(** * Plaus7 scanner engine: rate limiting, retry, circuit breaker,
      parallel map, DNS resolver, HTTP prober and crawler de-duplication.

    Shallow embedding of the Go sources under [scanner/] and of the
    token-bucket limiter, with the properties the specification states
    about them.

    Conventions used throughout:
    - Go [int] and [time.Duration] values are integers ([Z]); a duration
      counts nanoseconds.
    - In the rate limiter Go [float64] values are binary64 values: an
      infinity, not-a-number, or a rational rounded to 53 binary digits
      after every operation ([Float64]).  The delays of the retry loop are
      computed on exact rationals ([Q]).  A conversion [int(x)] or
      [time.Duration(x)] truncates toward zero.
    - Calls into the outside world (the retried function, the clock, the
      context, DNS and HTTP) are answered by oracles indexed by the number
      of the call, and every externally visible action is appended to an
      event log. *)

From stdpp Require Import base gmap strings list.
From Stdlib Require Import ZArith QArith Qround Qpower Qreduction Lia Lqa Ascii
  DecimalString.
From Stdlib Require Qcanon.

Open Scope Z_scope.

(** ** Go error values *)

Module GoErr.

(** [Static id text] is a value made once by [errors.New] (a package-level
    sentinel); [id] stands for its pointer identity.  The other two are
    results of one [fmt.Errorf] call with formatted message [text]:
    [Wrapped text inner] when its [%w] operand was the error [inner], and
    [Plain text] when that operand was nil; [Plain text] is also a value
    made by [errors.New] where it is used. *)
Inductive error : Type :=
| Static (id : positive) (text : string)
| Plain (text : string)
| Wrapped (text : string) (inner : error).

(** [err.Error()] *)
Definition Error (e : error) : string :=
  match e with
  | Static _ t => t
  | Plain t => t
  | Wrapped t _ => t
  end.

(** [errors.Unwrap(err)] *)
Definition Unwrap (e : error) : option error :=
  match e with
  | Wrapped _ inner => Some inner
  | _ => None
  end.

(** [err == target] on interface values.  A sentinel is told by its
    identity; values made at run time are compared by content, which may
    identify two that Go tells apart by address. *)
Fixpoint error_eqb (a b : error) : bool :=
  match a, b with
  | Static i s, Static j t => Pos.eqb i j && String.eqb s t
  | Plain s, Plain t => String.eqb s t
  | Wrapped s x, Wrapped t y => String.eqb s t && error_eqb x y
  | _, _ => false
  end.

(** [errors.Is(err, target)]: walks the [Unwrap] chain of [err]. *)
Fixpoint Is (err target : error) : bool :=
  error_eqb err target ||
  match err with
  | Wrapped _ inner => Is inner target
  | _ => false
  end.

(** The [%d] verb of [fmt]. *)
Definition itoa (n : Z) : string := NilEmpty.string_of_int (Z.to_int n).

(** The text [fmt] prints for [%w] (or [%v]) applied to a possibly nil
    error. *)
Definition verb_w (e : option error) : string :=
  match e with
  | Some x => Error x
  | None => "%!w(<nil>)"
  end.

End GoErr.

(** ** Numbers and durations *)

Module GoNum.

(** Truncation toward zero: [int(x)] and [time.Duration(x)] on a float. *)
Definition Qtrunc (q : Q) : Z := Z.quot (Qnum q) (Z.pos (Qden q)).

(** [x > y] on floats. *)
Definition Qgtb (x y : Q) : bool := negb (Qle_bool x y).

Definition Millisecond : Z := 1000000.
Definition Second : Z := 1000 * Millisecond.

End GoNum.

(** ** Strings *)

Module GoStrings.

(** A Go string is its sequence of bytes. *)
Definition str (s : string) : list ascii := String.list_ascii_of_string s.

Definition byte (n : nat) : ascii := ascii_of_nat n.

(** *** [strings.TrimSpace], on bytes

    White space is what [unicode.IsSpace] accepts: the six ASCII
    characters, U+0085, U+00A0, U+1680, U+2000 to U+200A, U+2028, U+2029,
    U+202F, U+205F and U+3000, each in its UTF-8 encoding. *)

Definition asciiSpace (c : ascii) : bool :=
  let n := nat_of_ascii c in
  ((9 <=? n)%nat && (n <=? 13)%nat) || (n =? 32)%nat.

Definition space2 (c1 c2 : ascii) : bool :=
  (nat_of_ascii c1 =? 194)%nat
  && ((nat_of_ascii c2 =? 133)%nat || (nat_of_ascii c2 =? 160)%nat).

Definition space3 (c1 c2 c3 : ascii) : bool :=
  let n1 := nat_of_ascii c1 in
  let n2 := nat_of_ascii c2 in
  let n3 := nat_of_ascii c3 in
  ((n1 =? 225) && (n2 =? 154) && (n3 =? 128))%nat
  || ((n1 =? 226)%nat && (n2 =? 128)%nat
      && (((128 <=? n3)%nat && (n3 <=? 138)%nat)
          || (n3 =? 168)%nat || (n3 =? 169)%nat || (n3 =? 175)%nat))
  || ((n1 =? 226) && (n2 =? 129) && (n3 =? 159))%nat
  || ((n1 =? 227) && (n2 =? 128) && (n3 =? 128))%nat.

(** Drop white space from the front; [sp2] and [sp3] recognise the two- and
    three-byte encodings in the order the bytes are met. *)
Fixpoint trimFront (sp2 : ascii -> ascii -> bool)
    (sp3 : ascii -> ascii -> ascii -> bool) (s : list ascii) : list ascii :=
  match s with
  | [] => []
  | c1 :: r1 =>
      if asciiSpace c1 then trimFront sp2 sp3 r1
      else
        match r1 with
        | [] => s
        | c2 :: r2 =>
            if sp2 c1 c2 then trimFront sp2 sp3 r2
            else
              match r2 with
              | [] => s
              | c3 :: r3 =>
                  if sp3 c1 c2 c3 then trimFront sp2 sp3 r3 else s
              end
        end
  end.

Definition TrimLeft (s : list ascii) : list ascii := trimFront space2 space3 s.

Definition TrimRight (s : list ascii) : list ascii :=
  rev (trimFront (fun a b => space2 b a) (fun a b c => space3 c b a) (rev s)).

Definition TrimSpace (s : list ascii) : list ascii := TrimRight (TrimLeft s).

(** [strings.HasPrefix(s, prefix)] *)
Fixpoint HasPrefix (s prefix : list ascii) : bool :=
  match prefix, s with
  | [], _ => true
  | _ :: _, [] => false
  | a :: prefix', b :: s' => Ascii.eqb a b && HasPrefix s' prefix'
  end.

End GoStrings.

(** ** Go [float64] values *)

Module Float64.
Import GoNum.

(** A binary64 value: not a number, an infinity, or a finite number, held
    as the rational it stands for (the sign of a zero is not kept). *)
Inductive float : Type :=
| NaN
| Inf (negative : bool)
| Fin (q : Q).

(** Every finite value is a multiple of [2 ^ emin]. *)
Definition emin : Z := -1074.

(** [floor (log2 a)], for [a > 0]. *)
Definition ilog2 (a : Q) : Z :=
  let l := Z.log2 (Qnum a) - Z.log2 (Z.pos (Qden a)) in
  if Qle_bool (2 ^ l) a then l else l - 1.

(** The nearest integer, the even one of two that are equally near. *)
Definition rne (m : Q) : Z :=
  let f := Qfloor m in
  match (m - inject_Z f ?= 1 # 2)%Q with
  | Lt => f
  | Gt => f + 1
  | Eq => if Z.even f then f else f + 1
  end.

(** The exponent of the unit in the last of the 53 binary digits kept
    for [a > 0]. *)
Definition ulpExp (a : Q) : Z := Z.max (ilog2 a - 52) emin.

(** [a > 0] rounded to 53 binary digits. *)
Definition nearest (a : Q) : Q :=
  (inject_Z (rne (a / 2 ^ ulpExp a)) * 2 ^ ulpExp a)%Q.

(** Rounding to nearest, ties to even, with overflow to an infinity. *)
Definition round64 (q : Q) : float :=
  match (q ?= 0)%Q with
  | Eq => Fin 0
  | Gt => let v := nearest q in
          if Qle_bool (2 ^ 1024) v then Inf false else Fin (Qred v)
  | Lt => let v := nearest (- q) in
          if Qle_bool (2 ^ 1024) v then Inf true else Fin (Qred (- v))
  end.

Definition fneg (x : float) : float :=
  match x with
  | NaN => NaN
  | Inf s => Inf (negb s)
  | Fin q => Fin (- q)
  end.

Definition isNegative (q : Q) : bool := negb (Qle_bool 0 q).

Definition fadd (x y : float) : float :=
  match x, y with
  | NaN, _ | _, NaN => NaN
  | Inf s, Inf s' => if Bool.eqb s s' then Inf s else NaN
  | Inf s, Fin _ => Inf s
  | Fin _, Inf s => Inf s
  | Fin a, Fin b => round64 (a + b)
  end.

Definition fsub (x y : float) : float := fadd x (fneg y).

Definition fmul (x y : float) : float :=
  match x, y with
  | NaN, _ | _, NaN => NaN
  | Inf s, Inf s' => Inf (xorb s s')
  | Inf s, Fin b =>
      if Qeq_bool b 0 then NaN else Inf (xorb s (isNegative b))
  | Fin a, Inf s =>
      if Qeq_bool a 0 then NaN else Inf (xorb s (isNegative a))
  | Fin a, Fin b => round64 (a * b)
  end.

Definition fdiv (x y : float) : float :=
  match x, y with
  | NaN, _ | _, NaN => NaN
  | Inf _, Inf _ => NaN
  | Inf s, Fin b => Inf (xorb s (isNegative b))
  | Fin _, Inf _ => Fin 0
  | Fin a, Fin b =>
      if Qeq_bool b 0
      then if Qeq_bool a 0 then NaN else Inf (isNegative a)
      else round64 (a / b)
  end.

(** [x <= y] and [x < y]; a comparison with not-a-number is false. *)
Definition fle (x y : float) : bool :=
  match x, y with
  | NaN, _ | _, NaN => false
  | Inf true, _ => true
  | _, Inf false => true
  | Inf false, _ => false
  | _, Inf true => false
  | Fin a, Fin b => Qle_bool a b
  end.

Definition flt (x y : float) : bool :=
  match x, y with
  | NaN, _ | _, NaN => false
  | Inf true, Inf true => false
  | Inf true, _ => true
  | Inf false, _ => false
  | Fin _, Inf s => negb s
  | Fin a, Fin b => negb (Qle_bool b a)
  end.

Definition fge (x y : float) : bool := fle y x.
Definition fgt (x y : float) : bool := flt y x.

(** [float64(n)] for an integer [n]. *)
Definition ofInt (n : Z) : float := round64 (inject_Z n).

(** [int(x)] and [time.Duration(x)]: truncation toward zero.  What Go
    gives when the value does not fit in 64 bits depends on the machine;
    this is the result on amd64. *)
Definition toInt (x : float) : Z :=
  match x with
  | Fin q =>
      let t := Qtrunc q in
      if (- 2 ^ 63 <=? t) && (t <? 2 ^ 63) then t else - 2 ^ 63
  | _ => - 2 ^ 63
  end.

(** A decimal literal of the source, or a value a caller writes: the
    nearest binary64 value. *)
Definition lit (q : Q) : float := round64 q.

(** A value that is zero or more, possibly the positive infinity. *)
Definition nonneg (x : float) : Prop :=
  match x with
  | Fin q => (0 <= q)%Q
  | Inf false => True
  | _ => False
  end.

End Float64.

(** ** Token-bucket rate limiter *)

Module RateLimit.
Import GoNum Float64.

(** [lastUpdate] is an instant on the monotonic clock, in nanoseconds;
    clock readings and their differences are taken within the range of a
    64-bit integer. *)
Record RateLimiter : Type := {
  rate : float;
  burst : Z;
  tokens : float;
  lastUpdate : Z
}.

(** [NewRateLimiter], called when the clock reads [now]. *)
Definition NewRateLimiter (ratePerSecond : float) (burst : Z) (now : Z) : RateLimiter :=
  let ratePerSecond := if fle ratePerSecond (Fin 0) then Fin 10 else ratePerSecond in
  let burst := if burst <=? 0 then toInt ratePerSecond else burst in
  {| rate := ratePerSecond;
     burst := burst;
     tokens := ofInt burst;
     lastUpdate := now |}.

(** [Duration.Seconds]: the whole seconds plus the remaining nanoseconds
    over 1e9. *)
Definition Seconds (d : Z) : float :=
  fadd (ofInt (Z.quot d Second)) (fdiv (ofInt (Z.rem d Second)) (Fin 1000000000)).

(** [now.Sub(rl.lastUpdate).Seconds()] *)
Definition elapsedSeconds (rl : RateLimiter) (now : Z) : float :=
  Seconds (now - lastUpdate rl).

(** The statements that open [Allow], [AllowN] and [Reserve] alike: add the
    tokens earned since [lastUpdate], clamp at [burst], record [now].  The
    product is rounded before it is added, as on amd64. *)
Definition refill (rl : RateLimiter) (now : Z) : RateLimiter :=
  let t := fadd (tokens rl) (fmul (elapsedSeconds rl now) (rate rl)) in
  {| rate := rate rl;
     burst := burst rl;
     tokens := if fgt t (ofInt (burst rl)) then ofInt (burst rl) else t;
     lastUpdate := now |}.

Definition setTokens (rl : RateLimiter) (t : float) : RateLimiter :=
  {| rate := rate rl; burst := burst rl; tokens := t;
     lastUpdate := lastUpdate rl |}.

Definition Allow (rl : RateLimiter) (now : Z) : RateLimiter * bool :=
  let rl := refill rl now in
  if fge (tokens rl) (Fin 1)
  then (setTokens rl (fsub (tokens rl) (Fin 1)), true)
  else (rl, false).

Definition AllowN (rl : RateLimiter) (n : Z) (now : Z) : RateLimiter * bool :=
  let rl := refill rl now in
  if fge (tokens rl) (ofInt n)
  then (setTokens rl (fsub (tokens rl) (ofInt n)), true)
  else (rl, false).

(** [Reserve] returns the time to wait, in nanoseconds. *)
Definition Reserve (rl : RateLimiter) (now : Z) : RateLimiter * Z :=
  let rl := refill rl now in
  if fge (tokens rl) (Fin 1)
  then (setTokens rl (fsub (tokens rl) (Fin 1)), 0)
  else
    let waitTime :=
      toInt (fmul (fdiv (fsub (Fin 1) (tokens rl)) (rate rl)) (Fin 1000000000)) in
    (setTokens rl (Fin 0), waitTime).

Definition SetRate (rl : RateLimiter) (ratePerSecond : float) : RateLimiter :=
  {| rate := ratePerSecond; burst := burst rl; tokens := tokens rl;
     lastUpdate := lastUpdate rl |}.

Definition SetBurst (rl : RateLimiter) (burst : Z) : RateLimiter :=
  {| rate := rate rl;
     burst := burst;
     tokens := if fgt (tokens rl) (ofInt burst) then ofInt burst else tokens rl;
     lastUpdate := lastUpdate rl |}.

(** One call on a limiter, with the clock value it reads. *)
Inductive op : Type :=
| OpAllow (now : Z)
| OpAllowN (n : Z) (now : Z)
| OpReserve (now : Z)
| OpSetBurst (burst : Z).

Definition perform (rl : RateLimiter) (o : op) : RateLimiter :=
  match o with
  | OpAllow now => (Allow rl now).1
  | OpAllowN n now => (AllowN rl n now).1
  | OpReserve now => (Reserve rl now).1
  | OpSetBurst b => SetBurst rl b
  end.

Definition run (rl : RateLimiter) (ops : list op) : RateLimiter :=
  fold_left perform ops rl.

(** The largest integer below which every integer is a binary64 value. *)
Definition maxExact : Z := 2 ^ 53.

(** The calls read a clock that does not go back from [last], ask
    [AllowN] for no negative number of tokens and set a burst between 0
    and 2^53. *)
Fixpoint orderly (last : Z) (ops : list op) : Prop :=
  match ops with
  | [] => True
  | OpAllow now :: rest => last <= now /\ orderly now rest
  | OpAllowN n now :: rest => 0 <= n /\ last <= now /\ orderly now rest
  | OpReserve now :: rest => last <= now /\ orderly now rest
  | OpSetBurst b :: rest => 0 <= b <= maxExact /\ orderly last rest
  end.

(** A construction [NewRateLimiter(rate, burst)] is valid when the rate is
    a number, neither not-a-number nor an infinity, and the burst the
    limiter gets is at most 2^53: the given one, or [int(rate)] when that
    is not positive. *)
Definition valid (ratePerSecond : float) (burst : Z) : Prop :=
  match ratePerSecond with
  | Fin r => burst <= maxExact /\ (burst <= 0 -> (r <= inject_Z maxExact)%Q)
  | _ => False
  end.

(** The calls all read the clock value [now], ask [AllowN] for no negative
    number of tokens and set a burst between 0 and [cap]. *)
Fixpoint within (now cap : Z) (ops : list op) : Prop :=
  match ops with
  | [] => True
  | OpAllow t :: rest => t = now /\ within now cap rest
  | OpAllowN n t :: rest => 0 <= n /\ t = now /\ within now cap rest
  | OpReserve t :: rest => t = now /\ within now cap rest
  | OpSetBurst b :: rest => 0 <= b <= cap /\ within now cap rest
  end.

(** The answers of the calls of [Allow] among [ops], run from [rl]. *)
Fixpoint allowed (rl : RateLimiter) (ops : list op) : list bool :=
  match ops with
  | [] => []
  | o :: rest =>
      match o with
      | OpAllow now => [(Allow rl now).2]
      | _ => []
      end ++ allowed (perform rl o) rest
  end.

Definition granted (answers : list bool) : nat :=
  length (List.filter (fun b => b) answers).

(** A sample sequence of calls, one second apart. *)
Definition sampleOps : list op :=
  [OpAllow 0; OpAllowN 2 0; OpAllow 0; OpReserve 1000000000;
   OpSetBurst 1; OpAllow 2000000000].

(** Calls made at one instant, with the burst lowered on the way. *)
Definition sampleInstant : list op :=
  [OpAllow 5; OpAllow 5; OpSetBurst 1; OpAllow 5; OpAllow 5; OpAllow 5].

(** The invariant of the bucket: the tokens are a number between 0 and
    [burst]. *)
Definition bounded (rl : RateLimiter) : Prop :=
  exists q, tokens rl = Fin q /\ (0 <= q /\ q <= inject_Z (burst rl))%Q.

(** A limiter in working order: a positive rate, a burst between 0 and
    2^53, and the tokens within their bounds. *)
Definition sound (rl : RateLimiter) : Prop :=
  (exists r, rate rl = Fin r /\ (0 < r)%Q)
  /\ 0 <= burst rl <= maxExact
  /\ bounded rl.

(** What the calls of one instant leave to be granted: the tokens are at
    most [cap] less the [g] requests granted so far, and the clock has
    been read at [now] before any was granted. *)
Definition budget (now cap g : Z) (rl : RateLimiter) : Prop :=
  sound rl /\ burst rl <= cap /\ lastUpdate rl <= now /\ 0 <= g
  /\ (exists q, tokens rl = Fin q /\ (q <= inject_Z (cap - g))%Q)
  /\ (lastUpdate rl = now \/ g = 0).

End RateLimit.

(** ** Retry with exponential backoff ([scanner/utils/retry.go]) *)

Module Retry.
Import GoErr GoNum.

Record RetryConfig : Type := {
  MaxRetries : Z;
  InitialDelay : Z;
  MaxDelay : Z;
  BackoffFactor : Q;
  Jitter : bool;
  RetryableErrors : list error
}.

Definition DefaultRetryConfig : RetryConfig :=
  {| MaxRetries := 3;
     InitialDelay := 100 * Millisecond;
     MaxDelay := 10 * Second;
     BackoffFactor := 2;
     Jitter := true;
     RetryableErrors := [] |}.

(** The zero value of [RetryConfig]. *)
Definition zeroConfig : RetryConfig :=
  {| MaxRetries := 0; InitialDelay := 0; MaxDelay := 0;
     BackoffFactor := 0; Jitter := false; RetryableErrors := [] |}.

(** The four guards at the head of [RetryWithBackoff]. *)
Definition withDefaults (c : RetryConfig) : RetryConfig :=
  {| MaxRetries := if MaxRetries c <=? 0 then 3 else MaxRetries c;
     InitialDelay :=
       if InitialDelay c <=? 0 then 100 * Millisecond else InitialDelay c;
     MaxDelay := if MaxDelay c <=? 0 then 10 * Second else MaxDelay c;
     BackoffFactor :=
       if Qle_bool (BackoffFactor c) 0 then 2%Q else BackoffFactor c;
     Jitter := Jitter c;
     RetryableErrors := RetryableErrors c |}.

(** [isRetryable] *)
Definition isRetryable (err : error) (retryableErrors : list error) : bool :=
  match retryableErrors with
  | [] => true
  | _ => existsb (fun retryableErr => Is err retryableErr) retryableErrors
  end.

(** Everything [RetryWithBackoff] asks of its surroundings, indexed by the
    attempt number: the outcome of the call of [fn] made in that attempt
    ([None] is a nil error), whether [ctx.Done()] is ready when polled before
    the attempt and while waiting after it, the value of [ctx.Err()], and
    the value [rand.Float64()] returns. *)
Record World : Type := {
  fn : nat -> option error;
  doneBefore : nat -> bool;
  doneWaiting : nat -> bool;
  ctxErr : error;
  randFloat : nat -> Q
}.

Inductive event : Type :=
| Call (attempt : nat)
| Sleep (d : Z).

Definition is_call (e : event) : bool :=
  match e with Call _ => true | Sleep _ => false end.

(** Number of times [fn] was invoked. *)
Definition calls (log : list event) : nat :=
  length (List.filter is_call log).

#[global] Arguments calls : simpl never.

(** The final statement of [RetryWithBackoff]. *)
Definition maxRetriesExceeded (c : RetryConfig) (lastErr : option error) : error :=
  let text := "max retries (" +:+ itoa (MaxRetries c) +:+ ") exceeded: "
              +:+ verb_w lastErr in
  match lastErr with
  | Some e => Wrapped text e
  | None => Plain text
  end.

(** The delay slept after a failed attempt. *)
Definition currentDelay (c : RetryConfig) (w : World) (attempt : nat) (delay : Z) : Z :=
  if Jitter c then
    let jitterRange := (inject_Z delay * (3 # 10))%Q in
    let jitter := (randFloat w attempt * jitterRange * 2 - jitterRange)%Q in
    Qtrunc (inject_Z delay + jitter)
  else delay.

(** The delay carried to the next attempt. *)
Definition nextDelay (c : RetryConfig) (delay : Z) : Z :=
  let d := Qtrunc (inject_Z delay * BackoffFactor c) in
  if MaxDelay c <? d then MaxDelay c else d.

(** The [for] loop of [RetryWithBackoff]; [fuel] counts the iterations for
    which [attempt <= config.MaxRetries] still holds. *)
Fixpoint retryLoop (c : RetryConfig) (w : World) (fuel : nat) (attempt : nat)
    (delay : Z) (lastErr : option error) (log : list event)
    : option error * list event :=
  match fuel with
  | O => (Some (maxRetriesExceeded c lastErr), log)
  | S fuel' =>
      if doneBefore w attempt then (Some (ctxErr w), log)
      else
        let log1 := log ++ [Call attempt] in
        match fn w attempt with
        | None => (None, log1)
        | Some err =>
            if negb (isRetryable err (RetryableErrors c)) then (Some err, log1)
            else if Z.of_nat attempt =? MaxRetries c
            then (Some (maxRetriesExceeded c (Some err)), log1)
            else
              if doneWaiting w attempt then (Some (ctxErr w), log1)
              else
                retryLoop c w fuel' (S attempt) (nextDelay c delay) (Some err)
                          (log1 ++ [Sleep (currentDelay c w attempt delay)])
        end
  end.

(** [RetryWithBackoff(ctx, config, fn)]: the returned error ([None] is nil)
    and the log of calls and sleeps. *)
Definition RetryWithBackoff (config : RetryConfig) (w : World)
    : option error * list event :=
  let c := withDefaults config in
  retryLoop c w (Z.to_nat (MaxRetries c + 1)) 0 (InitialDelay c) None [].

(** A context that is never cancelled. *)
Definition neverCancelled (w : World) : Prop :=
  forall k, doneBefore w k = false /\ doneWaiting w k = false.

(** Every call of [fn] fails, with an error the configuration retries. *)
Definition alwaysFailsRetryably (c : RetryConfig) (w : World) : Prop :=
  forall k, exists e, fn w k = Some e /\ isRetryable e (RetryableErrors c) = true.

(** *** Sample configurations and surroundings *)

Definition boom : error := Static 1 "connection refused".
Definition errTimeout : error := Static 2 "i/o timeout".
Definition ctxCanceled : error := Static 3 "context canceled".

(** [fn] always fails with [boom]; the context is never cancelled. *)
Definition boomWorld : World :=
  {| fn := fun _ => Some boom;
     doneBefore := fun _ => false;
     doneWaiting := fun _ => false;
     ctxErr := ctxCanceled;
     randFloat := fun _ => 0%Q |}.

(** Three retries, and only timeouts are retryable. *)
Definition onlyTimeouts : RetryConfig :=
  {| MaxRetries := 3; InitialDelay := 0; MaxDelay := 0; BackoffFactor := 0;
     Jitter := false; RetryableErrors := [errTimeout] |}.

Definition threeRetries : RetryConfig :=
  {| MaxRetries := 3; InitialDelay := 0; MaxDelay := 0; BackoffFactor := 0;
     Jitter := false; RetryableErrors := [] |}.

(** No retries asked for, and only timeouts are retryable. *)
Definition noRetriesOnlyTimeouts : RetryConfig :=
  {| MaxRetries := 0; InitialDelay := 0; MaxDelay := 0; BackoffFactor := 0;
     Jitter := false; RetryableErrors := [errTimeout] |}.

(** [fn] always fails with [boom]; the context is cancelled from the
    start. *)
Definition cancelledWorld : World :=
  {| fn := fun _ => Some boom;
     doneBefore := fun _ => true;
     doneWaiting := fun _ => true;
     ctxErr := ctxCanceled;
     randFloat := fun _ => 0%Q |}.

End Retry.

(** ** Circuit breaker ([scanner/utils/retry.go]) *)

Module Breaker.
Import GoErr.

(** [lastFailureTime] is an instant on the monotonic clock, in nanoseconds
    (the zero [time.Time] of a new breaker is read only after a failure
    has overwritten it); [failures] is taken far from the overflow of a Go
    [int]. *)
Record CircuitBreaker : Type := {
  maxFailures : Z;
  resetTimeout : Z;
  failures : Z;
  lastFailureTime : Z;
  state : string
}.

Definition NewCircuitBreaker (maxFailures resetTimeout : Z) : CircuitBreaker :=
  {| maxFailures := maxFailures;
     resetTimeout := resetTimeout;
     failures := 0;
     lastFailureTime := 0;
     state := "closed" |}.

Definition setState (cb : CircuitBreaker) (s : string) : CircuitBreaker :=
  {| maxFailures := maxFailures cb; resetTimeout := resetTimeout cb;
     failures := failures cb; lastFailureTime := lastFailureTime cb;
     state := s |}.

Definition errOpen : error := Plain "circuit breaker is open".

(** The first block of [Execute], read at clock value [now]: [None] when
    the call is rejected, otherwise the breaker as the wrapped function
    finds it. *)
Definition letThrough (cb : CircuitBreaker) (now : Z) : option CircuitBreaker :=
  if String.eqb (state cb) "open" then
    if resetTimeout cb <? now - lastFailureTime cb
    then Some (setState cb "half-open")
    else None
  else Some cb.

(** The rest of [Execute], once [fn] has returned [err]; [nowAfter] is the
    clock value [time.Now()] reads on a failure. *)
Definition settle (cb : CircuitBreaker) (err : option error) (nowAfter : Z)
    : CircuitBreaker :=
  match err with
  | Some _ =>
      let n := failures cb + 1 in
      {| maxFailures := maxFailures cb; resetTimeout := resetTimeout cb;
         failures := n; lastFailureTime := nowAfter;
         state := if maxFailures cb <=? n then "open" else state cb |}
  | None =>
      {| maxFailures := maxFailures cb; resetTimeout := resetTimeout cb;
         failures := 0; lastFailureTime := lastFailureTime cb;
         state := "closed" |}
  end.

(** One call of [Execute]: the clock at entry, what [fn] returns if it is
    invoked, and the clock after a failure. *)
Record call : Type := {
  now : Z;
  fnResult : option error;
  nowAfter : Z
}.

(** What a call of [Execute] leaves behind: the breaker, the returned error
    and whether [fn] was invoked. *)
Record outcome : Type := {
  after : CircuitBreaker;
  returned : option error;
  invoked : bool
}.

Definition Execute (cb : CircuitBreaker) (c : call) : outcome :=
  match letThrough cb (now c) with
  | None => {| after := cb; returned := Some errOpen; invoked := false |}
  | Some cb1 =>
      {| after := settle cb1 (fnResult c) (nowAfter c);
         returned := fnResult c;
         invoked := true |}
  end.

(** [State] *)
Definition State (cb : CircuitBreaker) : string := state cb.

(** A sequence of calls of [Execute] on one breaker. *)
Definition run (cb : CircuitBreaker) (cs : list call) : CircuitBreaker :=
  fold_left (fun b c => after (Execute b c)) cs cb.

(** Calls whose wrapped function fails. *)
Definition allFail (cs : list call) : Prop :=
  Forall (fun c => fnResult c <> None) cs.

(** The breaker is closed, or open with the failure count that opened it. *)
Definition settled (cb : CircuitBreaker) : Prop :=
  state cb = "closed" \/ (state cb = "open" /\ maxFailures cb <= failures cb).

(** *** Sample calls *)

Definition failAt (t : Z) : call :=
  {| now := t; fnResult := Some (Plain "refused"); nowAfter := t |}.
Definition succeedAt (t : Z) : call :=
  {| now := t; fnResult := None; nowAfter := t |}.

End Breaker.

(** ** [ParallelMap] ([scanner/utils/concurrent.go]) *)

Module PMap.
Import GoErr.

(** Where a spawned goroutine stands: before its [select] on [ctx.Done()];
    past it, before [sem.Acquire()]; holding a slot of the semaphore, from
    [Acquire] to the deferred [Release]; returned. *)
Inductive point : Type :=
| Spawned
| Checked
| Running
| Exited.

#[global] Instance point_eq_dec : EqDecision point.
Proof. solve_decision. Defined.

Definition isRunning (p : point) : nat :=
  match p with Running => 1 | _ => 0 end.

(** What the scheduler can let happen next: the context is cancelled, or
    goroutine [i] takes its next step. *)
Inductive action : Type :=
| Cancel
| Check (i : nat)
| Acquire (i : nat)
| Finish (i : nat).

Section ParallelMap.

Context {T R : Type}.

(** The zero value of [R], the mapped function (its outcome depends on
    the item alone), the items and the [workers] argument. *)
Variables (zero : R) (fn : T -> R * option error) (items : list T) (workers : Z).

(** [sem] is the number of slots taken in the semaphore channel, [errs] the
    content of the error channel of capacity 1, and [applied] the indices
    [fn] was called on, in the order the calls completed. *)
Record state : Type := {
  ctxDone : bool;
  sem : nat;
  results : list R;
  errs : option error;
  goroutines : list point;
  applied : list nat
}.

(** The size of the semaphore. *)
Definition slots : nat :=
  if workers <=? 0 then length items else Z.to_nat workers.

(** The state when all goroutines have been spawned; [cancelled] tells
    whether the context was done already. *)
Definition spawn (cancelled : bool) : state :=
  {| ctxDone := cancelled;
     sem := 0;
     results := replicate (length items) zero;
     errs := None;
     goroutines := replicate (length items) Spawned;
     applied := [] |}.

Definition move (st : state) (i : nat) (p : point) : list point :=
  <[i := p]> (goroutines st).

(** One action, if it is enabled: [Acquire] needs a free slot.  [Finish]
    covers the call of [fn], the send on [errs] (dropped when the channel
    is full) or the write of [results[idx]], and the deferred [Release] and
    [wg.Done]. *)
Definition exec (st : state) (a : action) : option state :=
  match a with
  | Cancel =>
      if ctxDone st then None
      else Some {| ctxDone := true; sem := sem st; results := results st;
                   errs := errs st; goroutines := goroutines st;
                   applied := applied st |}
  | Check i =>
      match goroutines st !! i with
      | Some Spawned =>
          Some {| ctxDone := ctxDone st; sem := sem st; results := results st;
                  errs := errs st;
                  goroutines := move st i (if ctxDone st then Exited else Checked);
                  applied := applied st |}
      | _ => None
      end
  | Acquire i =>
      match goroutines st !! i with
      | Some Checked =>
          if (sem st <? slots)%nat
          then Some {| ctxDone := ctxDone st; sem := S (sem st);
                       results := results st; errs := errs st;
                       goroutines := move st i Running;
                       applied := applied st |}
          else None
      | _ => None
      end
  | Finish i =>
      match goroutines st !! i, items !! i with
      | Some Running, Some it =>
          let '(result, err) := fn it in
          Some {| ctxDone := ctxDone st;
                  sem := pred (sem st);
                  results := match err with
                             | Some _ => results st
                             | None => <[i := result]> (results st)
                             end;
                  errs := match err, errs st with
                          | Some e, None => Some e
                          | _, held => held
                          end;
                  goroutines := move st i Exited;
                  applied := applied st ++ [i] |}
      | _, _ => None
      end
  end.

Definition step (st st' : state) : Prop := exists a, exec st a = Some st'.

(** A schedule, run from [st]; [None] if one of its actions is not
    enabled when its turn comes. *)
Fixpoint run (st : state) (schedule : list action) : option state :=
  match schedule with
  | [] => Some st
  | a :: rest =>
      match exec st a with
      | Some st' => run st' rest
      | None => None
      end
  end.

(** [wg.Wait()] returns. *)
Definition finished (st : state) : Prop :=
  forall i p, goroutines st !! i = Some p -> p = Exited.

(** What [ParallelMap] returns once [wg.Wait()] has returned; [None] is the
    nil slice, or the nil error. *)
Definition output (st : state) : option (list R) * option error :=
  match errs st with
  | Some err => (None, Some err)
  | None => (Some (results st), None)
  end.

(** Goroutines that hold a slot. *)
Fixpoint running (gs : list point) : nat :=
  match gs with
  | [] => 0
  | Running :: gs' => S (running gs')
  | _ :: gs' => running gs'
  end.

(** The error of the first failed call in completion order. *)
Fixpoint firstError (order : list nat) : option error :=
  match order with
  | [] => None
  | i :: rest =>
      match items !! i with
      | Some it =>
          match (fn it).2 with
          | Some e => Some e
          | None => firstError rest
          end
      | None => firstError rest
      end
  end.

(** Steps a goroutine has left, and the steps left in all; every action
    lowers the total. *)
Definition weight (p : point) : nat :=
  match p with Spawned => 3 | Checked => 2 | Running => 1 | Exited => 0 end.

Definition remaining (st : state) : nat :=
  (if ctxDone st then 0 else 1) + sum_list (weight <$> goroutines st).

(** What holds in every state of every schedule. *)
Record invariant (st : state) : Prop := {
  inv_goroutines : length (goroutines st) = length items;
  inv_results : length (results st) = length items;
  inv_sem : sem st = running (goroutines st);
  inv_bound : (sem st <= slots)%nat;
  inv_applied : forall i, i ∈ applied st -> goroutines st !! i = Some Exited;
  inv_once : NoDup (applied st);
  inv_exited : forall i, goroutines st !! i = Some Exited ->
                         ctxDone st = true \/ i ∈ applied st;
  inv_placed : forall i it, i ∈ applied st -> items !! i = Some it ->
                            (fn it).2 = None -> results st !! i = Some (fn it).1;
  inv_errs : errs st = firstError (applied st)
}.

End ParallelMap.

(** *** Samples: halving even numbers, failing on odd ones *)

Definition sampleSchedule : list action :=
  [Check 0; Check 1; Check 2; Acquire 2; Acquire 0; Finish 2; Acquire 1;
   Finish 1; Finish 0]%nat.

Definition sampleFinal : @state Z :=
  {| ctxDone := false; sem := 0; results := [2; 3; 5]; errs := None;
     goroutines := [Exited; Exited; Exited];
     applied := [2; 1; 0]%nat |}.

Definition halve (n : Z) : Z * option error :=
  if Z.even n then (n / 2, None)
  else (0, Some (Plain ("odd: " +:+ itoa n))).

End PMap.

(** ** DNS resolver ([Resolver], [scanner/utils/retry.go]) *)

Module Dns.
Import GoErr GoNum.

Record ResolverConfig : Type := {
  Resolvers : list string;
  Timeout : Z;
  Retries : Z;
  Workers : Z
}.

Record ResolutionResult : Type := {
  Subdomain : string;
  IPs : list string;
  Alive : bool;
  Error_ : string
}.

(** The guards of [NewResolver] on the configuration. *)
Definition NewResolver (config : ResolverConfig) : ResolverConfig :=
  {| Resolvers := match Resolvers config with
                  | [] => ["8.8.8.8:53"; "1.1.1.1:53"; "8.8.4.4:53"]
                  | rs => rs
                  end;
     Timeout := if Timeout config =? 0 then 5 * Second else Timeout config;
     Retries := if Retries config =? 0 then 2 else Retries config;
     Workers := if Workers config =? 0 then 100 else Workers config |}.

(** What [resolver.LookupIPAddr] returns: the addresses, already rendered
    as text, and the error ([None] is nil).  The network is an oracle that
    answers the lookup of a name made through the resolver of index
    [resolverIdx] in a given attempt. *)
Definition answer : Type := (list string * option error)%type.
Definition network : Type := nat -> string -> nat -> answer.

Inductive event : Type :=
| Lookup (subdomain : string) (timeout : Z)
| Sleep (d : Z).

(** The test [err == nil && len(ips) > 0]. *)
Definition resolved (a : answer) : bool :=
  match a with
  | (_ :: _, None) => true
  | _ => false
  end.

Definition errMsg (lastErr : option error) : string :=
  match lastErr with
  | Some e => Error e
  | None => ""
  end.

(** The loop of [resolveWithRetry]; [fuel] counts the iterations for which
    [attempt <= r.config.Retries] still holds. *)
Fixpoint resolveLoop (r : ResolverConfig) (net : network) (resolverIdx : nat)
    (subdomain : string) (fuel : nat) (attempt : nat) (lastErr : option error)
    (log : list event) : ResolutionResult * list event :=
  match fuel with
  | O =>
      ({| Subdomain := subdomain; IPs := []; Alive := false;
          Error_ := errMsg lastErr |}, log)
  | S fuel' =>
      let a := net resolverIdx subdomain attempt in
      let log1 := log ++ [Lookup subdomain (Timeout r)] in
      if resolved a then
        ({| Subdomain := subdomain; IPs := a.1; Alive := true; Error_ := "" |},
         log1)
      else
        let log2 :=
          if Z.of_nat attempt <? Retries r
          then log1 ++ [Sleep ((Z.of_nat attempt + 1) * 100 * Millisecond)]
          else log1 in
        resolveLoop r net resolverIdx subdomain fuel' (S attempt) a.2 log2
  end.

Definition resolveWithRetry (r : ResolverConfig) (net : network)
    (resolverIdx : nat) (subdomain : string) : ResolutionResult * list event :=
  resolveLoop r net resolverIdx subdomain (Z.to_nat (Retries r + 1)) 0 None [].

(** A job as a worker takes it off the job channel: the worker's index and
    the subdomain. *)
Definition job : Type := (nat * string)%type.

(** What the worker of index [i] sends for a subdomain; it is pinned to the
    resolver [i % len(r.resolvers)]. *)
Definition worker (r : ResolverConfig) (net : network) (j : job) : ResolutionResult :=
  (resolveWithRetry r net (j.1 mod length (Resolvers r)) j.2).1.

(** [Resolve]: the collecting loop over the result channel.  [taken] lists
    the jobs in the order their results arrive: a scheduling of the
    subdomains over the workers (all of them while the context is not
    cancelled). *)
Definition Resolve (r : ResolverConfig) (net : network) (taken : list job)
    : list ResolutionResult :=
  List.filter Alive (map (worker r net) taken).

(** [FilterAlive] *)
Definition FilterAlive (r : ResolverConfig) (net : network) (taken : list job)
    : list string :=
  map Subdomain (List.filter Alive (Resolve r net taken)).

(** The log of [n] attempts starting with attempt [j]: every lookup runs
    under the same timeout, and attempt [j] is followed by a sleep of
    [100ms * (j+1)] before the next one. *)
Fixpoint spaced (subdomain : string) (timeout : Z) (j : nat) (n : nat) : list event :=
  match n with
  | O => []
  | S n' =>
      Lookup subdomain timeout ::
      match n' with
      | O => []
      | S _ =>
          Sleep (100 * Millisecond * (Z.of_nat j + 1))
          :: spaced subdomain timeout (S j) n'
      end
  end.

(** *** A sample network *)

Definition noSuchHost : error := Static 1 "no such host".

(** "late.example.com" resolves at the third attempt, "www.example.com" at
    once, nothing else ever. *)
Definition sampleNet : network :=
  fun _ name attempt =>
    if String.eqb name "www.example.com" then (["93.184.216.34"], None)
    else if String.eqb name "late.example.com" && (2 <=? attempt)%nat
         then (["10.0.0.7"], None)
         else ([], Some noSuchHost).

Definition sampleResolver : ResolverConfig :=
  NewResolver {| Resolvers := []; Timeout := 0; Retries := 0; Workers := 0 |}.

End Dns.

(** ** Page title extraction ([extractTitle]) *)

Module Title.
Import GoStrings.

(** ASCII case folding, which is all that [(?i)] does to the letters of
    "title". *)
Definition lower (c : ascii) : ascii :=
  let n := nat_of_ascii c in
  if (65 <=? n)%nat && (n <=? 90)%nat then ascii_of_nat (n + 32) else c.

Definition foldEqb (a b : ascii) : bool := Ascii.eqb (lower a) (lower b).

(** *** The pattern [(?i)<title[^>]*>([^<]+)</title>] *)

(** A literal of the pattern at the front of [s], case folded: what follows
    it. *)
Fixpoint literal (pat s : list ascii) : option (list ascii) :=
  match pat, s with
  | [], _ => Some s
  | _ :: _, [] => None
  | a :: pat', b :: s' => if foldEqb a b then literal pat' s' else None
  end.

(** [[^>]*>]: what follows the first ">". *)
Fixpoint afterAttrs (s : list ascii) : option (list ascii) :=
  match s with
  | [] => None
  | c :: s' => if Ascii.eqb c ">" then Some s' else afterAttrs s'
  end.

(** [[^<]+], greedy: the bytes before the first "<", and the rest. *)
Fixpoint spanText (s : list ascii) : list ascii * list ascii :=
  match s with
  | [] => ([], [])
  | c :: s' =>
      if Ascii.eqb c "<" then ([], s)
      else let '(text, rest) := spanText s' in (c :: text, rest)
  end.

(** A match of the whole pattern starting at the first byte of [s]: its
    capture group. *)
Definition matchHere (s : list ascii) : option (list ascii) :=
  match literal (str "<title") s with
  | None => None
  | Some s1 =>
      match afterAttrs s1 with
      | None => None
      | Some s2 =>
          let '(text, s3) := spanText s2 in
          match text, literal (str "</title>") s3 with
          | _ :: _, Some _ => Some text
          | _, _ => None
          end
      end
  end.

(** [re.FindStringSubmatch(body)[1]]: the capture group of the leftmost
    match, if there is a match. *)
Fixpoint FindStringSubmatch (body : list ascii) : option (list ascii) :=
  match matchHere body with
  | Some text => Some text
  | None =>
      match body with
      | [] => None
      | _ :: body' => FindStringSubmatch body'
      end
  end.

(** The truncation of long titles. *)
Definition truncate (title : list ascii) : list ascii :=
  if (100 <? length title)%nat then take 100 title ++ str "..." else title.

Definition extractTitle (body : list ascii) : list ascii :=
  match FindStringSubmatch body with
  | Some m => truncate (TrimSpace m)
  | None => []
  end.

(** What it means for the pattern to match at the first byte of [s] with
    capture group [text]. *)
Definition foldEq (a b : list ascii) : Prop := map lower a = map lower b.

Definition matchesAt (s text : list ascii) : Prop :=
  exists tag attrs close rest,
    s = tag ++ attrs ++ [">"%char] ++ text ++ close ++ rest
    /\ foldEq tag (str "<title")
    /\ (">"%char ∉ attrs)
    /\ text <> [] /\ ("<"%char ∉ text)
    /\ foldEq close (str "</title>").

(** [text] is the capture group of the leftmost match in [body]. *)
Definition firstMatch (body text : list ascii) : Prop :=
  exists before at_,
    body = before ++ at_
    /\ matchesAt at_ text
    /\ forall b a t, body = b ++ a -> (length b < length before)%nat ->
                     ~ matchesAt a t.

Definition helloPage : list ascii :=
  str "<p><title lang=en>  Hello World </TITLE><title>second</title>".

(** A page whose title is 101 letters long. *)
Definition longPage : list ascii :=
  str "<html><head><TITLE> " ++ repeat "a"%char 101 ++ str " </title></head></html>".

End Title.

(** ** HTTP prober ([Prober], package [http]) *)

Module Probe.
Import GoNum GoStrings Title.

(** The fields of [ProbeConfig] the probing loop reads. *)
Record ProbeConfig : Type := {
  Targets : list (list ascii);
  Workers : Z;
  Retries : Z
}.

(** [ProbeResult], without its technology list, header map and clock
    readings. *)
Record ProbeResult : Type := {
  URL : list ascii;
  StatusCode : Z;
  ContentLength : Z;
  ContentType : list ascii;
  Title : list ascii;
  Server : list ascii;
  Redirected : bool;
  FinalURL : list ascii
}.

(** The zero value of [ProbeResult]. *)
Definition zeroResult : ProbeResult :=
  {| URL := []; StatusCode := 0; ContentLength := 0; ContentType := [];
     Title := []; Server := []; Redirected := false; FinalURL := [] |}.

(** What [p.client.Do] hands back when the request succeeds. *)
Record Response : Type := {
  status : Z;
  contentLength : Z;
  contentType : list ascii;
  server : list ascii;
  requestURL : list ascii;
  body : list ascii
}.

(** The web is an oracle: the outcome of the request for a URL made in a
    given attempt; [None] when the request could not be built or got no
    response. *)
Definition web : Type := list ascii -> nat -> option Response.

Definition bytes_eqb (a b : list ascii) : bool :=
  bool_decide (a = b).

(** [probe] *)
Definition probe (w : web) (url : list ascii) (attempt : nat) : ProbeResult :=
  match w url attempt with
  | None =>
      {| URL := url; StatusCode := 0; ContentLength := 0; ContentType := [];
         Title := []; Server := []; Redirected := false; FinalURL := [] |}
  | Some resp =>
      let redirected := negb (bytes_eqb (requestURL resp) url) in
      {| URL := url;
         StatusCode := status resp;
         ContentLength := contentLength resp;
         ContentType := contentType resp;
         Title := extractTitle (take (100 * 1024) (body resp));
         Server := server resp;
         Redirected := redirected;
         FinalURL := if redirected then requestURL resp else [] |}
  end.

Inductive event : Type :=
| Request (url : list ascii)
| Sleep (d : Z).

(** The loop of [probeWithRetry]; [fuel] counts the iterations for which
    [attempt <= p.config.Retries] still holds. *)
Fixpoint probeLoop (w : web) (url : list ascii) (fuel : nat) (attempt : nat)
    (lastResult : ProbeResult) (log : list event) : ProbeResult * list event :=
  match fuel with
  | O => (lastResult, log)
  | S fuel' =>
      let log1 :=
        if (0 <? attempt)%nat
        then log ++ [Sleep (Z.of_nat attempt * 500 * Millisecond)]
        else log in
      let result := probe w url attempt in
      let log2 := log1 ++ [Request url] in
      if 0 <? StatusCode result then (result, log2)
      else probeLoop w url fuel' (S attempt) result log2
  end.

Definition probeWithRetry (c : ProbeConfig) (w : web) (url : list ascii)
    : ProbeResult * list event :=
  probeLoop w url (Z.to_nat (Retries c + 1)) 0 zeroResult [].

(** [normalizeURL] *)
Definition normalizeURL (target : list ascii) : list (list ascii) :=
  let target := TrimSpace target in
  if HasPrefix target (str "http://") || HasPrefix target (str "https://")
  then [target]
  else [str "https://" ++ target; str "http://" ++ target].

(** The loop of [worker] over the candidate URLs of one target: the result
    it sends, if any, and the requests and sleeps made ([p.limiter.Wait]
    only delays the worker and is left out). *)
Fixpoint tryCandidates (c : ProbeConfig) (w : web) (urls : list (list ascii))
    : option ProbeResult * list event :=
  match urls with
  | [] => (None, [])
  | url :: rest =>
      let r := probeWithRetry c w url in
      if 0 <? StatusCode r.1 then (Some r.1, r.2)
      else let r' := tryCandidates c w rest in (r'.1, r.2 ++ r'.2)
  end.

Definition probeTarget (c : ProbeConfig) (w : web) (target : list ascii)
    : option ProbeResult * list event :=
  tryCandidates c w (normalizeURL target).




(** *** A sample web: only the plain-HTTP site of example.com answers. *)

Definition sampleWeb : web :=
  fun url _ =>
    if bytes_eqb url (str "http://example.com") then
      Some {| status := 200; contentLength := 42;
              contentType := str "text/html"; server := str "nginx";
              requestURL := str "http://example.com";
              body := str "<html><title>Example Domain</title></html>" |}
    else None.

Definition sampleConfig : ProbeConfig :=
  {| Targets := [str "example.com"; str "down.example.org"];
     Workers := 100; Retries := 2 |}.

End Probe.

(** ** Crawler de-duplication ([Crawler.markSeen], package [http]) *)

Module Crawl.
Import GoStrings.

(** The fields of [net/url.URL] that [markSeen] reads or drops. *)
Record URL : Type := {
  Scheme : list ascii;
  Host : list ascii;
  Path : list ascii;
  RawQuery : list ascii;
  Fragment : list ascii
}.

(** [url.Parse] belongs to the Go library: it is a parameter, [None]
    standing for a parse error. *)
Definition parser : Type := list ascii -> option URL.

(** [parsed.Scheme + "://" + parsed.Host + parsed.Path] *)
Definition normalize (parsed : URL) : list ascii :=
  Scheme parsed ++ str "://" ++ Host parsed ++ Path parsed.

(** Reading a Go [map[string]bool]: false for an absent key. *)
Definition has (seen : gmap (list ascii) bool) (key : list ascii) : bool :=
  default false (seen !! key).

(** The normalised key of a URL string, if it parses. *)
Definition key (Parse : parser) (urlStr : list ascii) : option (list ascii) :=
  normalize <$> Parse urlStr.

(** What [markSeen] does with the mutex and the map. *)
Inductive event : Type :=
| Lock
| Unlock
| Read (k : list ascii)
| Write (k : list ascii).

Record marked : Type := {
  seenAfter : gmap (list ascii) bool;
  isNew : bool;
  trace : list event
}.

(** [markSeen], run without interruption on the map [seen]. *)
Definition markSeen (Parse : parser) (seen : gmap (list ascii) bool)
    (urlStr : list ascii) : marked :=
  match Parse urlStr with
  | None => {| seenAfter := seen; isNew := false; trace := [Lock; Unlock] |}
  | Some parsed =>
      let normalized := normalize parsed in
      if has seen normalized
      then {| seenAfter := seen; isNew := false;
              trace := [Lock; Read normalized; Unlock] |}
      else {| seenAfter := <[normalized := true]> seen; isNew := true;
              trace := [Lock; Read normalized; Write normalized; Unlock] |}
  end.

(** No map access outside the critical section: the trace is one [Lock],
    reads and writes, one [Unlock]. *)
Definition critical (t : list event) : Prop :=
  exists inner,
    t = Lock :: inner ++ [Unlock]
    /\ Forall (fun e => e <> Lock /\ e <> Unlock) inner.

(** *** Calls of [markSeen] running concurrently

    Each goroutine is at one of these points of [markSeen]: before
    [c.seenMu.Lock()]; holding the mutex, about to parse and read the map;
    about to write [c.seen[normalized] = true]; about to run the deferred
    [Unlock] and return; returned. *)
Inductive point : Type :=
| Waiting (urlStr : list ascii)
| Holding (urlStr : list ascii)
| Inserting (urlStr : list ascii) (normalized : list ascii)
| Returning (urlStr : list ascii) (result : bool)
| Done (urlStr : list ascii) (result : bool).

Record crawler : Type := {
  locked : bool;
  seen : gmap (list ascii) bool;
  goroutines : list point
}.

(** From [Holding]: parse, normalise, read the map. *)
Definition afterCheck (Parse : parser) (seen : gmap (list ascii) bool)
    (urlStr : list ascii) : point :=
  match Parse urlStr with
  | None => Returning urlStr false
  | Some parsed =>
      if has seen (normalize parsed) then Returning urlStr false
      else Inserting urlStr (normalize parsed)
  end.

(** One step of one goroutine; [Lock] can be taken only when the mutex is
    free. *)
Inductive step (Parse : parser) : crawler -> crawler -> Prop :=
| step_lock (c : crawler) (i : nat) (u : list ascii) :
    goroutines c !! i = Some (Waiting u) -> locked c = false ->
    step Parse c {| locked := true; seen := seen c;
                    goroutines := <[i := Holding u]> (goroutines c) |}
| step_check (c : crawler) (i : nat) (u : list ascii) :
    goroutines c !! i = Some (Holding u) ->
    step Parse c {| locked := locked c; seen := seen c;
                    goroutines := <[i := afterCheck Parse (seen c) u]> (goroutines c) |}
| step_insert (c : crawler) (i : nat) (u k : list ascii) :
    goroutines c !! i = Some (Inserting u k) ->
    step Parse c {| locked := locked c; seen := <[k := true]> (seen c);
                    goroutines := <[i := Returning u true]> (goroutines c) |}
| step_unlock (c : crawler) (i : nat) (u : list ascii) (b : bool) :
    goroutines c !! i = Some (Returning u b) ->
    step Parse c {| locked := false; seen := seen c;
                    goroutines := <[i := Done u b]> (goroutines c) |}.

(** The crawler with one goroutine about to call [markSeen] on each of
    [urls]. *)
Definition start (seen0 : gmap (list ascii) bool) (urls : list (list ascii)) : crawler :=
  {| locked := false; seen := seen0; goroutines := Waiting <$> urls |}.

Inductive reachable (Parse : parser) (seen0 : gmap (list ascii) bool)
    (urls : list (list ascii)) : crawler -> Prop :=
| reach_start : reachable Parse seen0 urls (start seen0 urls)
| reach_step (c c' : crawler) :
    reachable Parse seen0 urls c -> step Parse c c' ->
    reachable Parse seen0 urls c'.

Definition urlOf (p : point) : list ascii :=
  match p with
  | Waiting u | Holding u | Inserting u _ | Returning u _ | Done u _ => u
  end.

(** The goroutine holds the mutex. *)
Definition inside (p : point) : Prop :=
  match p with
  | Holding _ | Inserting _ _ | Returning _ _ => True
  | _ => False
  end.

(** The goroutine answers (or has answered) true for the key [k]. *)
Definition won (Parse : parser) (p : point) (k : list ascii) : Prop :=
  match p with
  | Returning u true | Done u true => key Parse u = Some k
  | _ => False
  end.

(** The goroutine has returned. *)
Definition finished (p : point) : Prop :=
  match p with Done _ _ => True | _ => False end.

(** The goroutine is past its check of the map. *)
Definition answered (p : point) : Prop :=
  match p with Returning _ _ | Done _ _ => True | _ => False end.

(** What holds in every state the goroutines can reach from a crawler
    whose map was [seen0]: at most one goroutine holds the mutex, and the
    mutex is then locked; a goroutine about to insert a key has found it
    absent; for each key at most one goroutine answers true, the key was
    absent at the start and is present now; keys are never removed; a
    goroutine past its check has its key present; and every key added
    since the start has a goroutine that answers true for it. *)
Record invariant (Parse : parser) (seen0 : gmap (list ascii) bool)
    (c : crawler) : Prop := {
  inv_mutex : forall i p, goroutines c !! i = Some p -> inside p ->
    locked c = true
    /\ forall j q, goroutines c !! j = Some q -> inside q -> i = j;
  inv_inserting : forall i u k, goroutines c !! i = Some (Inserting u k) ->
    key Parse u = Some k /\ has (seen c) k = false;
  inv_won : forall i p k, goroutines c !! i = Some p -> won Parse p k ->
    has (seen c) k = true /\ has seen0 k = false
    /\ forall j q, goroutines c !! j = Some q -> won Parse q k -> i = j;
  inv_mono : forall k, has seen0 k = true -> has (seen c) k = true;
  inv_answered : forall i p k, goroutines c !! i = Some p -> answered p ->
    key Parse (urlOf p) = Some k -> has (seen c) k = true;
  inv_winner : forall k, has (seen c) k = true -> has seen0 k = false ->
    exists i p, goroutines c !! i = Some p /\ won Parse p k
}.

(** What [url.Parse] returns for an absolute URL with an authority: a
    scheme without ":", a host without "/", and a path that is empty or
    starts with "/". *)
Definition wellFormed (parsed : URL) : bool :=
  forallb (fun c => negb (Ascii.eqb c ":")) (Scheme parsed)
  && forallb (fun c => negb (Ascii.eqb c "/")) (Host parsed)
  && match Path parsed with
     | [] => true
     | c :: _ => Ascii.eqb c "/"
     end.

(** *** A simple parser for the samples: "scheme://host/path?query#fragment"

    As [url.Parse] does, it stores the path with its percent-escapes
    decoded, and fails on an escape that is not "%" and two hexadecimal
    digits. *)

Definition unhex (c : ascii) : option nat :=
  let n := nat_of_ascii c in
  if (48 <=? n)%nat && (n <=? 57)%nat then Some (n - 48)%nat
  else if (97 <=? n)%nat && (n <=? 102)%nat then Some (n - 97 + 10)%nat
  else if (65 <=? n)%nat && (n <=? 70)%nat then Some (n - 65 + 10)%nat
  else None.

Fixpoint unescape (s : list ascii) : option (list ascii) :=
  match s with
  | [] => Some []
  | c :: rest =>
      if Ascii.eqb c "%" then
        match rest with
        | h :: l :: rest' =>
            match unhex h, unhex l, unescape rest' with
            | Some x, Some y, Some r => Some (ascii_of_nat (16 * x + y) :: r)
            | _, _, _ => None
            end
        | _ => None
        end
      else
        match unescape rest with
        | Some r => Some (c :: r)
        | None => None
        end
  end.

Fixpoint splitAt (sep : ascii) (s : list ascii) : list ascii * list ascii :=
  match s with
  | [] => ([], [])
  | c :: s' =>
      if Ascii.eqb c sep then ([], s)
      else let '(a, b) := splitAt sep s' in (c :: a, b)
  end.

Fixpoint splitScheme (s : list ascii) : option (list ascii * list ascii) :=
  match s with
  | ":"%char :: "/"%char :: "/"%char :: rest => Some ([], rest)
  | c :: s' =>
      match splitScheme s' with
      | Some (scheme, rest) => Some (c :: scheme, rest)
      | None => None
      end
  | [] => None
  end.

Definition sampleParse : parser :=
  fun urlStr =>
    match splitScheme urlStr with
    | None => None
    | Some (scheme, rest) =>
        let '(beforeFragment, fragment) := splitAt "#" rest in
        let '(beforeQuery, query) := splitAt "?" beforeFragment in
        let '(host, path) := splitAt "/" beforeQuery in
        match unescape path with
        | None => None
        | Some decoded =>
            Some {| Scheme := scheme; Host := host; Path := decoded;
                    RawQuery := drop 1 query; Fragment := drop 1 fragment |}
        end
    end.

End Crawl.

(** ** Retry metadata, delay helpers and policies ([scanner/utils/retry.go]) *)

Module Policy.
Import GoErr GoNum Float64 Retry.

(** [RetryResult]; [Duration] is the difference of two clock readings. *)
Record RetryResult : Type := {
  Attempts : Z;
  Duration : Z;
  Error_ : option error
}.

(** [RetryWithResult]: the closure handed to [RetryWithBackoff] counts its
    own invocations, which are the [Call] events of the log; [start] and
    [finish] are the clock readings of [time.Now()] and [time.Since]. *)
Definition RetryWithResult (config : RetryConfig) (w : World) (start finish : Z)
    : RetryResult :=
  let r := RetryWithBackoff config w in
  {| Attempts := Z.of_nat (calls r.2);
     Duration := finish - start;
     Error_ := r.1 |}.

(** A Go [int] or [time.Duration] result of an addition or a
    multiplication: the low 64 bits, as a signed number. *)
Definition wrap64 (z : Z) : Z := (z + 2 ^ 63) mod 2 ^ 64 - 2 ^ 63.

(** [math.Pow(2, float64(attempt))]: an exact power of two, zero below
    the smallest binary64 value and an infinity above the largest. *)
Definition Pow2 (attempt : Z) : float :=
  if attempt <? -1074 then Fin 0
  else if 1023 <? attempt then Inf false
  else if attempt <? 0 then Fin (1 # Pos.pow 2 (Z.to_pos (- attempt)))
  else Fin (inject_Z (2 ^ attempt)).

(** [ExponentialBackoff] *)
Definition ExponentialBackoff (attempt baseDelay maxDelay : Z) : Z :=
  let delay := wrap64 (baseDelay * toInt (Pow2 attempt)) in
  if maxDelay <? delay then maxDelay else delay.

Record RetryPolicy : Type := {
  ShouldRetry : error -> bool;
  Delay : Z -> Z
}.

Definition NewLinearRetryPolicy (baseDelay : Z) : RetryPolicy :=
  {| ShouldRetry := fun _ => true;
     Delay := fun attempt => wrap64 (baseDelay * wrap64 (attempt + 1)) |}.

Definition NewExponentialRetryPolicy (baseDelay maxDelay : Z) : RetryPolicy :=
  {| ShouldRetry := fun _ => true;
     Delay := fun attempt => ExponentialBackoff attempt baseDelay maxDelay |}.

(** The sleeps of a log, in order. *)
Definition sleeps (log : list event) : list Z :=
  omap (fun e => match e with Sleep d => Some d | Call _ => None end) log.

(** [fn] fails twice with a retryable error, then succeeds; the random
    source always returns one half. *)
Definition flakyWorld : World :=
  {| fn := fun k => if (k <? 2)%nat then Some errTimeout else None;
     doneBefore := fun _ => false;
     doneWaiting := fun _ => false;
     ctxErr := ctxCanceled;
     randFloat := fun _ => 1 # 2 |}.

(** The context is cancelled while the loop waits after the second
    attempt. *)
Definition cancelledLater : World :=
  {| fn := fun _ => Some errTimeout;
     doneBefore := fun _ => false;
     doneWaiting := fun k => (1 <=? k)%nat;
     ctxErr := ctxCanceled;
     randFloat := fun _ => 0%Q |}.

End Policy.

(** ** Waiting, adaptive and per-host limiters (the rest of the limiter
       source) *)

Module Limiters.
Import GoErr GoNum Float64 RateLimit Policy.

(** Everything [Wait] asks of its surroundings, indexed by the iteration
    of its loop: the clock [Allow] reads, whether [ctx.Done()] is ready at
    the head of the iteration and while waiting for the timer, and the
    value of [ctx.Err()]. *)
Record Surroundings : Type := {
  clock : nat -> Z;
  doneBefore : nat -> bool;
  doneWaiting : nat -> bool;
  ctxErr : error
}.

(** What a bounded number of iterations of [Wait] leads to: it has
    returned an error ([None] is nil), or it is still looping. *)
Inductive waited : Type :=
| Returned (err : option error)
| Looping.

(** [time.Duration((1.0 / rl.rate) * float64(time.Second))] *)
Definition waitTime (rl : RateLimiter) : Z :=
  toInt (fmul (fdiv (Fin 1) (rate rl)) (Fin 1000000000)).

(** The loop of [Wait], run for at most [fuel] iterations from iteration
    [k]; the log lists the durations handed to [time.After]. *)
Fixpoint waitLoop (s : Surroundings) (fuel : nat) (k : nat) (rl : RateLimiter)
    (log : list Z) : RateLimiter * waited * list Z :=
  match fuel with
  | O => (rl, Looping, log)
  | S fuel' =>
      if doneBefore s k then (rl, Returned (Some (ctxErr s)), log)
      else
        let r := Allow rl (clock s k) in
        if r.2 then (r.1, Returned None, log)
        else
          let log1 := log ++ [waitTime r.1] in
          if doneWaiting s k then (r.1, Returned (Some (ctxErr s)), log1)
          else waitLoop s fuel' (S k) r.1 log1
  end.

Definition Wait (s : Surroundings) (fuel : nat) (rl : RateLimiter)
    : RateLimiter * waited * list Z :=
  waitLoop s fuel 0 rl [].

(** The answers of calls of [Allow] made at the instants [nows]. *)
Fixpoint answers (rl : RateLimiter) (nows : list Z) : list bool :=
  match nows with
  | [] => []
  | now :: rest => let r := Allow rl now in r.2 :: answers r.1 rest
  end.

(** *** [AdaptiveRateLimiter] *)

Record AdaptiveRateLimiter : Type := {
  limiter : RateLimiter;
  minRate : float;
  maxRate : float;
  targetLatency : Z;
  samples : list Z;
  maxSamples : Z
}.

(** [NewAdaptiveRateLimiter], called when the clock reads [now]. *)
Definition NewAdaptiveRateLimiter (initialRate minRate maxRate : float)
    (targetLatency : Z) (now : Z) : AdaptiveRateLimiter :=
  {| limiter := NewRateLimiter initialRate (toInt initialRate) now;
     minRate := minRate;
     maxRate := maxRate;
     targetLatency := targetLatency;
     samples := [];
     maxSamples := 100 |}.

(** [averageLatency]: the sum, held in 64 bits, over the number of
    samples, truncated toward zero. *)
Definition averageLatency (arl : AdaptiveRateLimiter) : Z :=
  match samples arl with
  | [] => 0
  | _ =>
      Z.quot (fold_left (fun total s => wrap64 (total + s)) (samples arl) 0)
             (Z.of_nat (length (samples arl)))
  end.

Definition setLimiter (arl : AdaptiveRateLimiter) (rl : RateLimiter)
    : AdaptiveRateLimiter :=
  {| limiter := rl; minRate := minRate arl; maxRate := maxRate arl;
     targetLatency := targetLatency arl; samples := samples arl;
     maxSamples := maxSamples arl |}.

(** [adjustRate] *)
Definition adjustRate (arl : AdaptiveRateLimiter) (avgLatency : Z)
    : AdaptiveRateLimiter :=
  let currentRate := rate (limiter arl) in
  if wrap64 (targetLatency arl * 2) <? avgLatency then
    let newRate := fmul currentRate (lit (1 # 2)) in
    let newRate := if flt newRate (minRate arl) then minRate arl else newRate in
    setLimiter arl (SetRate (limiter arl) newRate)
  else if targetLatency arl <? avgLatency then
    let newRate := fmul currentRate (lit (8 # 10)) in
    let newRate := if flt newRate (minRate arl) then minRate arl else newRate in
    setLimiter arl (SetRate (limiter arl) newRate)
  else if avgLatency <? Z.quot (targetLatency arl) 2 then
    let newRate := fmul currentRate (lit (12 # 10)) in
    let newRate := if fgt newRate (maxRate arl) then maxRate arl else newRate in
    setLimiter arl (SetRate (limiter arl) newRate)
  else arl.

(** [RecordLatency] *)
Definition RecordLatency (arl : AdaptiveRateLimiter) (latency : Z)
    : AdaptiveRateLimiter :=
  let s := samples arl ++ [latency] in
  let s := if maxSamples arl <? Z.of_nat (length s) then drop 1 s else s in
  let arl := {| limiter := limiter arl; minRate := minRate arl;
                maxRate := maxRate arl; targetLatency := targetLatency arl;
                samples := s; maxSamples := maxSamples arl |} in
  if 10 <=? Z.of_nat (length s) then adjustRate arl (averageLatency arl) else arl.

(** [AdaptiveRateLimiter.Wait] *)
Definition AdaptiveWait (s : Surroundings) (fuel : nat) (arl : AdaptiveRateLimiter)
    : RateLimiter * waited * list Z :=
  Wait s fuel (limiter arl).

(** A sequence of recorded latencies. *)
Definition record (arl : AdaptiveRateLimiter) (latencies : list Z)
    : AdaptiveRateLimiter :=
  fold_left RecordLatency latencies arl.

(** *** [PerHostRateLimiter] *)

Record PerHostRateLimiter : Type := {
  limiters : gmap string RateLimiter;
  hostRate : float;
  hostBurst : Z
}.

Definition NewPerHostRateLimiter (ratePerHost : float) (burstPerHost : Z)
    : PerHostRateLimiter :=
  {| limiters := ∅; hostRate := ratePerHost; hostBurst := burstPerHost |}.

(** [getLimiter], called when the clock reads [now]: the limiter of the
    host, created on first use. *)
Definition getLimiter (phrl : PerHostRateLimiter) (host : string) (now : Z)
    : PerHostRateLimiter * RateLimiter :=
  match limiters phrl !! host with
  | Some l => (phrl, l)
  | None =>
      let l := NewRateLimiter (hostRate phrl) (hostBurst phrl) now in
      ({| limiters := <[host := l]> (limiters phrl);
          hostRate := hostRate phrl; hostBurst := hostBurst phrl |}, l)
  end.

(** [PerHostRateLimiter.Allow]: the map holds pointers, so the limiter as
    [Allow] leaves it is what the map holds afterwards.  [created] is the
    clock reading of [NewRateLimiter], should the limiter be created, and
    [now] that of [Allow]. *)
Definition AllowHost (phrl : PerHostRateLimiter) (host : string)
    (created now : Z) : PerHostRateLimiter * bool :=
  let g := getLimiter phrl host created in
  let r := Allow g.2 now in
  ({| limiters := <[host := r.1]> (limiters g.1);
      hostRate := hostRate phrl; hostBurst := hostBurst phrl |}, r.2).

(** Requests, in order: each names a host and gives the two clock
    readings of the call, that of [NewRateLimiter] (read only when the
    host has no limiter yet) and that of [Allow].  The result lists each
    host with the answer it got. *)
Fixpoint requests (phrl : PerHostRateLimiter) (reqs : list (string * (Z * Z)))
    : list (string * bool) :=
  match reqs with
  | [] => []
  | (h, (c, t)) :: rest =>
      let r := AllowHost phrl h c t in (h, r.2) :: requests r.1 rest
  end.

(** The answers [host] got. *)
Definition answersTo (host : string) (log : list (string * bool)) : list bool :=
  map snd (List.filter (fun e => bool_decide (e.1 = host)) log).

(** The clock readings of the requests made to [host]. *)
Definition timesOf (host : string) (reqs : list (string * (Z * Z)))
    : list (Z * Z) :=
  map snd (List.filter (fun e => bool_decide (e.1 = host)) reqs).

(** The limiter that serves [host] at requests made at [times]: the one
    the map holds, or else one made at the first request. *)
Definition ownLimiter (phrl : PerHostRateLimiter) (host : string)
    (times : list (Z * Z)) : option RateLimiter :=
  match limiters phrl !! host with
  | Some l => Some l
  | None =>
      match times with
      | [] => None
      | ct :: _ => Some (NewRateLimiter (hostRate phrl) (hostBurst phrl) ct.1)
      end
  end.

(** The calls of [Allow] made at [times]. *)
Definition allowsAt (times : list (Z * Z)) : list op :=
  map (fun ct => OpAllow ct.2) times.

(** *** Samples *)

(** A clock that advances by half a second per iteration, under a context
    that is never cancelled. *)
Definition halfSeconds : Surroundings :=
  {| clock := fun k => Z.of_nat k * 500000000;
     doneBefore := fun _ => false;
     doneWaiting := fun _ => false;
     ctxErr := Static 3 "context canceled" |}.

(** Requests to two hosts, whose calls of [Allow] all read the clock at
    7. *)
Definition sampleRequests : list (string * (Z * Z)) :=
  [("a.example", (6, 7)); ("b.example", (7, 7)); ("a.example", (7, 7));
   ("a.example", (7, 7)); ("b.example", (7, 7)); ("a.example", (7, 7))].

End Limiters.

(** ** [FanOut] ([scanner/utils/concurrent.go]) *)

Module Fan.
Import GoErr.

(** [select { case errs <- err: default: }] on a channel of capacity
    [cap]: the error is dropped when the channel is full. *)
Definition trySend (cap : nat) (errs : list error) (e : error) : list error :=
  if (length errs <? cap)%nat then errs ++ [e] else errs.

(** The goroutine of index [i] runs to its end.  A function is given by
    the error it returns ([None] is nil). *)
Definition finish (fns : list (option error)) (errs : list error) (i : nat)
    : list error :=
  match fns !! i with
  | Some (Some e) => trySend (length fns) errs e
  | _ => errs
  end.

(** The content of [errs] when [wg.Wait()] returns; [order] is the order
    in which the goroutines came to their [select]. *)
Definition collected (fns : list (option error)) (order : list nat) : list error :=
  fold_left (finish fns) order [].

(** [FanOut]: the first error received from the closed channel. *)
Definition FanOut (fns : list (option error)) (order : list nat) : option error :=
  head (collected fns order).

(** The error of goroutine [i], if it returns one. *)
Definition failure (fns : list (option error)) (i : nat) : option error :=
  mjoin (fns !! i).

End Fan.

(** ** Banners ([scanner/portscan/scanner.go]) *)

Module Banner.
Import GoStrings.

(** [if sr >= 'A' && sr <= 'Z' { sr = sr + 32 }] *)
Definition foldByte (c : ascii) : ascii :=
  let n := nat_of_ascii c in
  if (65 <=? n)%nat && (n <=? 90)%nat then ascii_of_nat (n + 32) else c.

(** The loop of [equalFoldBytes] over two strings of the same length. *)
Fixpoint eqFold (s t : list ascii) : bool :=
  match s, t with
  | a :: s', b :: t' =>
      if negb (Ascii.eqb (foldByte a) (foldByte b)) then false else eqFold s' t'
  | _, _ => true
  end.

(** [equalFoldBytes] *)
Definition equalFoldBytes (s t : list ascii) : bool :=
  if negb (length s =? length t)%nat then false else eqFold s t.

(** [s[i:j]], for [i <= j <= len(s)]. *)
Definition slice (s : list ascii) (i j : nat) : list ascii :=
  take (j - i) (drop i s).

(** The loop shared by [containsIgnoreCase] and [findString], from index
    [i] with [left] iterations to go: the index at which it returns. *)
Fixpoint search (s substr : list ascii) (i left : nat) : option nat :=
  match left with
  | O => None
  | S left' =>
      if equalFoldBytes (slice s i (i + length substr)) substr then Some i
      else search s substr (S i) left'
  end.

(** The number of values of [i] with [0 <= i <= len(s)-len(substr)]. *)
Definition iterations (s substr : list ascii) : nat :=
  Z.to_nat (Z.of_nat (length s) - Z.of_nat (length substr) + 1).

(** [containsIgnoreCase] *)
Definition containsIgnoreCase (s substr : list ascii) : bool :=
  match search s substr 0 (iterations s substr) with
  | Some _ => true
  | None => false
  end.


Fixpoint findCharFrom (s : list ascii) (c : ascii) (i : nat) : Z :=
  match s with
  | [] => -1
  | b :: rest => if Ascii.eqb b c then Z.of_nat i else findCharFrom rest c (S i)
  end.

(** [findChar] *)
Definition findChar (s : list ascii) (c : ascii) : Z := findCharFrom s c 0.



(** The map literal of [identifyFromBanner], as written. *)
Definition patterns : list (list ascii * list ascii) :=
  [(str "SSH", str "ssh"); (str "HTTP", str "http"); (str "SMTP", str "smtp");
   (str "FTP", str "ftp"); (str "MySQL", str "mysql");
   (str "PostgreSQL", str "postgresql"); (str "MongoDB", str "mongodb");
   (str "Redis", str "redis"); (str "nginx", str "nginx");
   (str "Apache", str "apache")].

(** [identifyFromBanner]; [order] is the order in which the [range] loop
    visits the map, which Go leaves open. *)
Fixpoint identifyFromBanner (order : list (list ascii * list ascii))
    (banner : list ascii) : list ascii :=
  match order with
  | [] => str "unknown"
  | (pattern, service) :: rest =>
      if containsIgnoreCase banner pattern then service
      else identifyFromBanner rest banner
  end.

(** An HTTP answer of an nginx server. *)
Definition nginxBanner : list ascii := str "HTTP/1.1 200 OK Server: nginx".

End Banner.

(** ** Unique results ([scanner/subdomain/enumerator.go]) *)

Module Subdomains.

Record Result : Type := {
  Subdomain : string;
  Source : string;
  Timestamp : string
}.

(** The map [seen] and what has been sent on the channel [results], in
    the order of the sends. *)
Record Scanner : Type := {
  seen : gmap string bool;
  results : list Result
}.

(** [NewScanner], with the channel [Enumerate] makes. *)
Definition NewScanner : Scanner := {| seen := ∅; results := [] |}.

(** [addResult], run under its lock; [stamp] is the formatted time. *)
Definition addResult (s : Scanner) (subdomain source stamp : string) : Scanner :=
  if default false (seen s !! subdomain) then s
  else {| seen := <[subdomain := true]> (seen s);
          results := results s
                     ++ [{| Subdomain := subdomain; Source := source;
                            Timestamp := stamp |}] |}.

(** A sequence of calls, in the order they take the lock. *)
Definition addAll (s : Scanner) (calls : list (string * string * string)) : Scanner :=
  fold_left (fun s c => addResult s c.1.1 c.1.2 c.2) calls s.

(** What holds of a scanner between calls: the map marks exactly the
    subdomains sent, each sent once. *)
Definition tidy (s : Scanner) : Prop :=
  (forall sub, default false (seen s !! sub) = true
               <-> sub ∈ map Subdomain (results s))
  /\ NoDup (map Subdomain (results s)).

End Subdomains.

(** ** The number of URLs seen ([urlCount]) *)

Module CrawlCount.
Import Crawl.

(** [urlCount]: [len(c.seen)]. *)
Definition urlCount (seen : gmap (list ascii) bool) : Z := Z.of_nat (size seen).

(** Calls of [markSeen] one after the other: the map at the end and the
    answers. *)
Fixpoint markAll (Parse : parser) (seen : gmap (list ascii) bool)
    (urls : list (list ascii)) : gmap (list ascii) bool * list bool :=
  match urls with
  | [] => (seen, [])
  | u :: rest =>
      let m := markSeen Parse seen u in
      let r := markAll Parse (seenAfter m) rest in
      (r.1, isNew m :: r.2)
  end.

(** A map as [markSeen] fills it: every entry is true. *)
Definition allTrue (seen : gmap (list ascii) bool) : Prop :=
  forall k v, seen !! k = Some v -> v = true.

End CrawlCount.

(** * Properties *)

(** ** Rounding *)

Module Float64Props.
Import GoNum Float64.

Lemma two_neq_0 : ~ (2 == 0)%Q.
Proof. discriminate. Qed.

Lemma pow2_pos (e : Z) : (0 < 2 ^ e)%Q.
Proof. apply Qpower_0_lt. reflexivity. Qed.

Lemma pow2_succ (e : Z) : (2 ^ (e + 1) == 2 * 2 ^ e)%Q.
Proof. rewrite Qpower_plus by exact two_neq_0. rewrite Qpower_1_r. ring. Qed.

Lemma pow2_le (a b : Z) : a <= b -> (2 ^ a <= 2 ^ b)%Q.
Proof. intros H. apply Qpower_le_compat_l; [exact H | discriminate]. Qed.

Lemma pow2_lt_inv (a b : Z) : (2 ^ a < 2 ^ b)%Q -> a < b.
Proof.
  intros H. destruct (Z.lt_ge_cases a b) as [|Hge]; [assumption|].
  apply pow2_le in Hge. lra.
Qed.

Lemma pow2_Z (k : Z) : 0 <= k -> (2 ^ k == inject_Z (2 ^ k))%Q.
Proof. intros H. now rewrite Zpower_Qpower. Qed.

(** [ilog2 a] is the integer part of the binary logarithm of [a]. *)
Lemma ilog2_spec (a : Q) :
  (0 < a)%Q -> (2 ^ ilog2 a <= a /\ a < 2 ^ (ilog2 a + 1))%Q.
Proof.
  intros Ha. destruct a as [n d].
  assert (Hn : 0 < n) by (unfold Qlt in Ha; cbn in Ha; lia).
  unfold ilog2. cbn [Qnum Qden].
  set (ln := Z.log2 n). set (ld := Z.log2 (Z.pos d)).
  destruct (Z.log2_spec n Hn) as [Hn1 Hn2]. fold ln in Hn1, Hn2.
  destruct (Z.log2_spec (Z.pos d) ltac:(lia)) as [Hd1 Hd2]. fold ld in Hd1, Hd2.
  assert (Hln : 0 <= ln) by apply Z.log2_nonneg.
  assert (Hld : 0 <= ld) by apply Z.log2_nonneg.
  set (a := n # d) in *.
  set (N := inject_Z n). set (D := inject_Z (Z.pos d)).
  assert (HaD : (a * D == N)%Q).
  { unfold a, N, D. rewrite (Qmake_Qdiv n d). field. discriminate. }
  set (P := (2 ^ ln)%Q). set (R := (2 ^ ld)%Q).
  assert (HP : (0 < P)%Q) by apply pow2_pos.
  assert (HR : (0 < R)%Q) by apply pow2_pos.
  assert (HN1 : (P <= N)%Q).
  { unfold P, N. rewrite pow2_Z by lia. now rewrite <- Zle_Qle. }
  assert (HN2 : (N < 2 * P)%Q).
  { unfold P, N. rewrite <- pow2_succ, pow2_Z by lia. rewrite <- Zlt_Qlt.
    unfold Z.succ in Hn2. exact Hn2. }
  assert (HD1 : (R <= D)%Q).
  { unfold R, D. rewrite pow2_Z by lia. now rewrite <- Zle_Qle. }
  assert (HD2 : (D < 2 * R)%Q).
  { unfold R, D. rewrite <- pow2_succ, pow2_Z by lia. rewrite <- Zlt_Qlt.
    unfold Z.succ in Hd2. exact Hd2. }
  assert (Hl : (2 ^ (ln - ld) == P / R)%Q).
  { unfold P, R. apply Qpower_minus. exact two_neq_0. }
  assert (H1 : (0 <= a * (D - R))%Q) by (apply Qmult_le_0_compat; lra).
  assert (H2 : (0 <= a * (2 * R - D))%Q) by (apply Qmult_le_0_compat; lra).
  assert (E1 : (a * (D - R) == a * D - a * R)%Q) by ring.
  assert (E2 : (a * (2 * R - D) == 2 * (a * R) - a * D)%Q) by ring.
  destruct (Qle_bool (2 ^ (ln - ld)) a) eqn:E.
  - apply Qle_bool_iff in E. split; [exact E|].
    rewrite pow2_succ, Hl.
    assert (Hgoal : (a * R < 2 * P)%Q) by lra.
    apply Qlt_shift_div_l in Hgoal; [|exact HR].
    assert (E3 : (2 * (P / R) == 2 * P / R)%Q) by (field; lra).
    lra.
  - assert (Hlt : (a < 2 ^ (ln - ld))%Q).
    { apply Qnot_le_lt. intros Hle. apply Qle_bool_iff in Hle. congruence. }
    replace (ln - ld - 1 + 1) with (ln - ld) by lia.
    split; [|exact Hlt].
    assert (E3 : (2 ^ (ln - ld) == 2 * 2 ^ (ln - ld - 1))%Q).
    { rewrite <- pow2_succ. now replace (ln - ld - 1 + 1) with (ln - ld) by lia. }
    assert (Hgoal : (P <= 2 * (a * R))%Q) by lra.
    assert (Hdiv : (P / R <= 2 * a)%Q).
    { apply Qle_shift_div_r; [exact HR|]. lra. }
    lra.
Qed.

Lemma ilog2_mono (a b : Q) : (0 < a)%Q -> (a <= b)%Q -> ilog2 a <= ilog2 b.
Proof.
  intros Ha Hab.
  destruct (ilog2_spec a Ha) as [Ha1 _].
  destruct (ilog2_spec b ltac:(lra)) as [_ Hb2].
  assert (H : (2 ^ ilog2 a < 2 ^ (ilog2 b + 1))%Q) by lra.
  apply pow2_lt_inv in H. lia.
Qed.

(** Rounding to the nearest integer. *)
Lemma rne_bounds (m : Q) :
  (m - (1 # 2) <= inject_Z (rne m) /\ inject_Z (rne m) <= m + (1 # 2))%Q.
Proof.
  unfold rne. pose proof (Qfloor_le m) as Hlo. pose proof (Qlt_floor m) as Hhi.
  rewrite inject_Z_plus in Hhi. change (inject_Z 1) with 1%Q in Hhi.
  set (f := Qfloor m) in *.
  destruct (m - inject_Z f ?= 1 # 2)%Q eqn:E.
  - apply Qeq_alt in E.
    destruct (Z.even f); [|rewrite inject_Z_plus; change (inject_Z 1) with 1%Q];
      split; lra.
  - apply Qlt_alt in E. split; lra.
  - apply Qgt_alt in E. rewrite inject_Z_plus. change (inject_Z 1) with 1%Q.
    split; lra.
Qed.

Lemma rne_comp (m m' : Q) : (m == m')%Q -> rne m = rne m'.
Proof.
  intros H. unfold rne. rewrite (Qfloor_comp _ _ H).
  assert (E : (m - inject_Z (Qfloor m') == m' - inject_Z (Qfloor m'))%Q)
    by (rewrite H; reflexivity).
  now rewrite (Qcompare_comp _ _ E _ _ (Qeq_refl (1 # 2))).
Qed.

Lemma rne_Z (k : Z) : rne (inject_Z k) = k.
Proof.
  unfold rne. rewrite Qfloor_Z.
  assert (E : (inject_Z k - inject_Z k ?= 1 # 2)%Q = Lt).
  { apply (proj1 (Qlt_alt _ _)). lra. }
  now rewrite E.
Qed.

Lemma rne_mono (m m' : Q) : (m <= m')%Q -> rne m <= rne m'.
Proof.
  intros H. destruct (Z.le_gt_cases (rne m) (rne m')) as [|Hgt]; [assumption|].
  destruct (rne_bounds m) as [_ H1]. destruct (rne_bounds m') as [H2 _].
  assert (H3 : (inject_Z (rne m') + 1 <= inject_Z (rne m))%Q).
  { change 1%Q with (inject_Z 1). rewrite <- inject_Z_plus, <- Zle_Qle. lia. }
  assert (E : (m == m')%Q) by (apply Qle_antisym; lra).
  rewrite (rne_comp _ _ E) in Hgt. lia.
Qed.

Lemma scaled_le (a b : Q) (e : Z) : (a <= b)%Q -> (a / 2 ^ e <= b / 2 ^ e)%Q.
Proof.
  intros H. unfold Qdiv. apply Qmult_le_compat_r; [exact H|].
  apply Qlt_le_weak, Qinv_lt_0_compat, pow2_pos.
Qed.

Lemma pow2_scaled (e k : Z) : (2 ^ (e + k) / 2 ^ e == 2 ^ k)%Q.
Proof.
  rewrite Qpower_plus by exact two_neq_0. field.
  apply Qpower_not_0. exact two_neq_0.
Qed.

Lemma rne_pow2 (m : Q) (k : Z) :
  0 <= k ->
  ((m <= 2 ^ k)%Q -> rne m <= 2 ^ k) /\ ((2 ^ k <= m)%Q -> 2 ^ k <= rne m).
Proof.
  intros Hk. split; intros H.
  - rewrite <- (rne_Z (2 ^ k)). apply rne_mono. now rewrite <- pow2_Z.
  - rewrite <- (rne_Z (2 ^ k)). apply rne_mono. now rewrite <- pow2_Z.
Qed.

Lemma ulpExp_mono (a b : Q) : (0 < a)%Q -> (a <= b)%Q -> ulpExp a <= ulpExp b.
Proof.
  intros Ha Hab. pose proof (ilog2_mono a b Ha Hab). unfold ulpExp. lia.
Qed.

(** Rounding a positive number to 53 binary digits is monotone. *)
Lemma nearest_mono (a b : Q) : (0 < a)%Q -> (a <= b)%Q -> (nearest a <= nearest b)%Q.
Proof.
  intros Ha Hab. assert (Hb : (0 < b)%Q) by lra.
  pose proof (ulpExp_mono a b Ha Hab) as He. unfold nearest.
  destruct (Z.eq_dec (ulpExp a) (ulpExp b)) as [Heq|Hne].
  - rewrite Heq. apply Qmult_le_compat_r; [|apply Qlt_le_weak, pow2_pos].
    rewrite <- Zle_Qle. apply rne_mono. now apply scaled_le.
  - assert (Hlt : ulpExp a + 1 <= ulpExp b) by lia.
    set (ea := ulpExp a) in *. set (eb := ulpExp b) in *.
    (* below: at most 2^53 units of 2^ea *)
    destruct (ilog2_spec a Ha) as [_ Ha2].
    assert (Hup : (a <= 2 ^ (ea + 53))%Q).
    { apply Qlt_le_weak. eapply Qlt_le_trans; [exact Ha2|].
      apply pow2_le. unfold ea, ulpExp. lia. }
    apply (scaled_le _ _ ea) in Hup. rewrite pow2_scaled in Hup.
    apply (rne_pow2 _ 53 ltac:(lia)) in Hup.
    assert (H1 : (inject_Z (rne (a / 2 ^ ea)) * 2 ^ ea <= 2 ^ (ea + 53))%Q).
    { rewrite Qpower_plus by exact two_neq_0. rewrite (Qmult_comm (2 ^ ea)).
      apply Qmult_le_compat_r; [|apply Qlt_le_weak, pow2_pos].
      rewrite (pow2_Z 53) by lia. now rewrite <- Zle_Qle. }
    (* above: at least 2^52 units of 2^eb *)
    assert (Heb : eb = ilog2 b - 52) by (unfold eb, ea, ulpExp in *; lia).
    destruct (ilog2_spec b Hb) as [Hb1 _].
    assert (Hlow : (2 ^ (eb + 52) <= b)%Q).
    { replace (eb + 52) with (ilog2 b) by lia. exact Hb1. }
    apply (scaled_le _ _ eb) in Hlow. rewrite pow2_scaled in Hlow.
    apply (rne_pow2 _ 52 ltac:(lia)) in Hlow.
    assert (H2 : (2 ^ (eb + 52) <= inject_Z (rne (b / 2 ^ eb)) * 2 ^ eb)%Q).
    { rewrite Qpower_plus by exact two_neq_0. rewrite (Qmult_comm (2 ^ eb)).
      apply Qmult_le_compat_r; [|apply Qlt_le_weak, pow2_pos].
      rewrite (pow2_Z 52) by lia. now rewrite <- Zle_Qle. }
    assert (H3 : (2 ^ (ea + 53) <= 2 ^ (eb + 52))%Q) by (apply pow2_le; lia).
    lra.
Qed.

Lemma nearest_nonneg (a : Q) : (0 < a)%Q -> (0 <= nearest a)%Q.
Proof.
  intros Ha. unfold nearest.
  assert (Hs : (inject_Z 0 <= a / 2 ^ ulpExp a)%Q).
  { apply Qle_shift_div_l; [apply pow2_pos|]. rewrite Qmult_0_l. lra. }
  apply rne_mono in Hs. rewrite rne_Z in Hs.
  apply Qmult_le_0_compat; [|apply Qlt_le_weak, pow2_pos].
  change 0%Q with (inject_Z 0). now rewrite <- Zle_Qle.
Qed.

Lemma round64_pos (q : Q) :
  (0 < q)%Q ->
  round64 q = if Qle_bool (2 ^ 1024) (nearest q) then Inf false
              else Fin (Qred (nearest q)).
Proof.
  intros H. unfold round64.
  apply (proj1 (Qgt_alt _ _)) in H. now rewrite H.
Qed.

Lemma round64_0 (q : Q) : (q == 0)%Q -> round64 q = Fin 0.
Proof.
  intros H. unfold round64. apply (proj1 (Qeq_alt _ _)) in H. now rewrite H.
Qed.

Lemma round64_nonneg (q : Q) : (0 <= q)%Q -> nonneg (round64 q).
Proof.
  intros H. destruct (Qlt_le_dec 0 q) as [Hpos|Hle].
  - rewrite (round64_pos q Hpos).
    destruct (Qle_bool (2 ^ 1024) (nearest q)); cbn; [exact I|].
    rewrite Qred_correct. now apply nearest_nonneg.
  - rewrite round64_0 by (apply Qle_antisym; assumption). cbn. apply Qle_refl.
Qed.

(** Rounding is monotone on numbers that are not negative. *)
Lemma round64_mono (a b : Q) :
  (0 <= a)%Q -> (a <= b)%Q -> fle (round64 a) (round64 b) = true.
Proof.
  intros Ha Hab. destruct (Qlt_le_dec 0 a) as [Hpos|Hle].
  - assert (Hb : (0 < b)%Q) by lra.
    pose proof (nearest_mono a b Hpos Hab) as Hm.
    rewrite (round64_pos a Hpos), (round64_pos b Hb).
    destruct (Qle_bool (2 ^ 1024) (nearest a)) eqn:Ea.
    + apply Qle_bool_iff in Ea.
      assert (Eb : Qle_bool (2 ^ 1024) (nearest b) = true)
        by (apply Qle_bool_iff; lra).
      now rewrite Eb.
    + destruct (Qle_bool (2 ^ 1024) (nearest b)); [reflexivity|].
      cbn. apply Qle_bool_iff. now rewrite !Qred_correct.
  - rewrite (round64_0 a) by (apply Qle_antisym; assumption).
    pose proof (round64_nonneg b ltac:(lra)) as Hn.
    destruct (round64 b) as [|[|]|v]; cbn in *; try contradiction;
      [reflexivity|]. now apply Qle_bool_iff.
Qed.

(** Integers up to 2^53 are binary64 values. *)
Lemma round64_int (z : Z) :
  0 <= z <= 2 ^ 53 -> round64 (inject_Z z) = Fin (inject_Z z).
Proof.
  intros [H0 H53].
  destruct (Z.eq_dec z 0) as [->|Hne]; [reflexivity|].
  assert (Hpos : (0 < inject_Z z)%Q).
  { change 0%Q with (inject_Z 0). rewrite <- Zlt_Qlt. lia. }
  rewrite (round64_pos _ Hpos).
  destruct (ilog2_spec _ Hpos) as [Hl1 Hl2].
  set (L := ilog2 (inject_Z z)) in *.
  assert (HL0 : 0 <= L).
  { assert (H : (2 ^ 0 < 2 ^ (L + 1))%Q).
    { eapply Qle_lt_trans; [|exact Hl2].
      change (2 ^ 0)%Q with (inject_Z 1). rewrite <- Zle_Qle. lia. }
    apply pow2_lt_inv in H. lia. }
  assert (HL53 : L <= 53).
  { assert (H : (2 ^ L < 2 ^ 54)%Q).
    { eapply Qle_lt_trans; [exact Hl1|].
      rewrite (pow2_Z 54) by lia. rewrite <- Zlt_Qlt. lia. }
    apply pow2_lt_inv in H. lia. }
  assert (He : ulpExp (inject_Z z) = L - 52) by (unfold ulpExp, emin; fold L; lia).
  assert (Hk : exists k, (inject_Z z == inject_Z k * 2 ^ (L - 52))%Q).
  { destruct (Z.le_gt_cases (L - 52) 0) as [Hle|Hgt].
    - exists (z * 2 ^ (- (L - 52))).
      rewrite inject_Z_mult, <- (pow2_Z (- (L - 52))) by lia.
      rewrite Qpower_opp. field. apply Qpower_not_0. exact two_neq_0.
    - assert (L = 53) by lia. subst L.
      assert (Hz : z = 2 ^ 53).
      { rewrite H in Hl1. rewrite (pow2_Z 53) in Hl1 by lia.
        rewrite <- Zle_Qle in Hl1. lia. }
      exists (2 ^ 52). rewrite H, Hz. reflexivity. }
  destruct Hk as [k Hk].
  assert (Hn : (nearest (inject_Z z) == inject_Z z)%Q).
  { unfold nearest. rewrite He.
    assert (Hs : (inject_Z z / 2 ^ (L - 52) == inject_Z k)%Q).
    { rewrite Hk. field. apply Qpower_not_0. exact two_neq_0. }
    rewrite (rne_comp _ _ Hs), rne_Z. now rewrite Hk. }
  assert (Hsmall : Qle_bool (2 ^ 1024) (nearest (inject_Z z)) = false).
  { destruct (Qle_bool (2 ^ 1024) (nearest (inject_Z z))) eqn:E; [|reflexivity].
    apply Qle_bool_iff in E. rewrite Hn in E.
    assert (H : (inject_Z z <= 2 ^ 53)%Q).
    { rewrite (pow2_Z 53) by lia. now rewrite <- Zle_Qle. }
    assert (H' : (2 ^ 53 < 2 ^ 1024)%Q)
      by (apply Qpower_lt_compat_l; [lia | reflexivity]).
    lra. }
  rewrite Hsmall. f_equal.
  rewrite (Qred_complete _ _ Hn). apply Qcanon.Qred_identity. cbn. apply Z.gcd_1_r.
Qed.

End Float64Props.

(** ** Token-bucket rate limiter *)

Module RateLimitProps.
Import GoNum Float64 RateLimit Float64Props.

Lemma Qle_bool_false (x y : Q) : Qle_bool x y = false -> (y < x)%Q.
Proof.
  intros H. apply Qnot_le_lt. intros Hle.
  apply Qle_bool_iff in Hle. congruence.
Qed.

Ltac case_Qle x y E :=
  destruct (Qle_bool x y) eqn:E;
  [apply Qle_bool_iff in E | apply Qle_bool_false in E].

Lemma inject_Z_nonneg (z : Z) : 0 <= z -> (0 <= inject_Z z)%Q.
Proof. intros H. change 0%Q with (inject_Z 0). now rewrite <- Zle_Qle. Qed.

(** A number between two integers of at most 2^53 rounds to a number
    between them. *)
Lemma round64_between (lo hi : Z) (q : Q) :
  0 <= lo -> hi <= maxExact ->
  (inject_Z lo <= q)%Q -> (q <= inject_Z hi)%Q ->
  exists w, round64 q = Fin w /\ (inject_Z lo <= w /\ w <= inject_Z hi)%Q.
Proof.
  intros Hlo Hhi H1 H2.
  assert (Hle : lo <= hi) by (rewrite Zle_Qle; lra).
  pose proof (inject_Z_nonneg lo Hlo) as Hlo'.
  pose proof (round64_mono (inject_Z lo) q Hlo' H1) as M1.
  pose proof (round64_mono q (inject_Z hi) ltac:(lra) H2) as M2.
  rewrite round64_int in M1 by (unfold maxExact in *; lia).
  rewrite round64_int in M2 by (unfold maxExact in *; lia).
  destruct (round64 q) as [|[|]|w]; cbn in M1, M2; try discriminate.
  exists w. split; [reflexivity|]. split; now apply Qle_bool_iff.
Qed.

Lemma ofInt_exact (z : Z) : 0 <= z <= maxExact -> ofInt z = Fin (inject_Z z).
Proof. intros H. apply round64_int. exact H. Qed.

Lemma ofInt_nonneg (z : Z) : 0 <= z -> nonneg (ofInt z).
Proof. intros H. apply round64_nonneg. now apply inject_Z_nonneg. Qed.

Lemma fadd_nonneg (x y : float) : nonneg x -> nonneg y -> nonneg (fadd x y).
Proof.
  destruct x as [|[|]|a], y as [|[|]|b]; cbn; try contradiction; try exact (fun _ _ => I).
  intros Ha Hb. apply round64_nonneg. lra.
Qed.

Lemma fmul_nonneg (x : float) (r : Q) :
  nonneg x -> (0 < r)%Q -> nonneg (fmul x (Fin r)).
Proof.
  intros Hx Hr. destruct x as [|[|]|a]; cbn in *; try contradiction.
  - assert (E : Qeq_bool r 0 = false).
    { destruct (Qeq_bool r 0) eqn:E; [|reflexivity].
      apply Qeq_bool_eq in E. lra. }
    rewrite E. unfold isNegative.
    assert (E' : Qle_bool 0 r = true) by (apply Qle_bool_iff; lra).
    now rewrite E'.
  - apply round64_nonneg. apply Qmult_le_0_compat; lra.
Qed.

Lemma fdiv_nonneg (x : float) (r : Q) :
  nonneg x -> (0 < r)%Q -> nonneg (fdiv x (Fin r)).
Proof.
  intros Hx Hr. destruct x as [|[|]|a]; cbn in *; try contradiction.
  - unfold isNegative.
    assert (E' : Qle_bool 0 r = true) by (apply Qle_bool_iff; lra).
    now rewrite E'.
  - assert (E : Qeq_bool r 0 = false).
    { destruct (Qeq_bool r 0) eqn:E; [|reflexivity].
      apply Qeq_bool_eq in E. lra. }
    rewrite E. apply round64_nonneg. apply Qle_shift_div_l; lra.
Qed.

(** The time elapsed on a clock that has not gone back is not negative. *)
Lemma Seconds_nonneg (d : Z) : 0 <= d -> nonneg (Seconds d).
Proof.
  intros H. unfold Seconds. apply fadd_nonneg.
  - apply ofInt_nonneg. apply Z.quot_pos; [exact H | reflexivity].
  - apply fdiv_nonneg; [|reflexivity].
    apply ofInt_nonneg. apply Z.rem_nonneg; [discriminate | exact H].
Qed.

(** No time elapsed, no token earned. *)
Lemma earned_same_instant (r : Q) : fmul (Seconds 0) (Fin r) = Fin 0.
Proof.
  change (Seconds 0) with (Fin 0). cbn. apply round64_0. ring.
Qed.

(** Refilling keeps the bucket within its bounds. *)
Lemma refill_sound (rl : RateLimiter) (now : Z) :
  sound rl -> lastUpdate rl <= now -> sound (refill rl now).
Proof.
  intros ((r & Hrate & Hr) & Hb & (q & Hq & Hq0 & Hq1)) Ht.
  split; [exists r; auto|]. split; [exact Hb|].
  unfold bounded, refill. cbn [tokens burst].
  rewrite (ofInt_exact _ Hb).
  assert (Hn : nonneg (fadd (tokens rl) (fmul (elapsedSeconds rl now) (rate rl)))).
  { apply fadd_nonneg.
    - rewrite Hq. exact Hq0.
    - rewrite Hrate. apply fmul_nonneg; [|exact Hr].
      apply Seconds_nonneg. lia. }
  pose proof (inject_Z_nonneg _ (proj1 Hb)) as Hb0.
  destruct (fadd (tokens rl) (fmul (elapsedSeconds rl now) (rate rl)))
    as [|[|]|t]; cbn in Hn; try contradiction.
  - cbn. exists (inject_Z (burst rl)). split; [reflexivity|]. split; lra.
  - cbn. case_Qle t (inject_Z (burst rl)) E; cbn.
    + exists t. auto.
    + exists (inject_Z (burst rl)). split; [reflexivity|]. split; lra.
Qed.

Lemma refill_fields (rl : RateLimiter) (now : Z) :
  rate (refill rl now) = rate rl /\ burst (refill rl now) = burst rl
  /\ lastUpdate (refill rl now) = now.
Proof. repeat split. Qed.

(** Taking [m] tokens, with [m] not negative, from a bucket that holds
    them leaves it within its bounds, and with no more than before. *)
Lemma take_bounded (q m : Q) (b : Z) :
  0 <= b <= maxExact -> (0 <= m)%Q -> (m <= q)%Q -> (q <= inject_Z b)%Q ->
  exists w, fsub (Fin q) (Fin m) = Fin w /\ (0 <= w /\ w <= inject_Z b)%Q.
Proof.
  intros Hb Hm Hmq Hqb. unfold fsub. cbn.
  destruct (round64_between 0 b (q + - m)%Q) as (w & Hw & H0 & H1);
    [lia | lia | change (inject_Z 0) with 0%Q; lra | lra |].
  exists w. split; [exact Hw|]. change (inject_Z 0) with 0%Q in H0. auto.
Qed.

Lemma Allow_sound (rl : RateLimiter) (now : Z) :
  sound rl -> lastUpdate rl <= now -> sound (Allow rl now).1.
Proof.
  intros Hs Ht. pose proof (refill_sound rl now Hs Ht) as Hs'.
  unfold Allow. cbv zeta.
  destruct (fge (tokens (refill rl now)) (Fin 1)) eqn:E; [|exact Hs'].
  destruct Hs' as (Hr & Hb & (q & Hq & Hq0 & Hq1)).
  split; [exact Hr|]. split; [exact Hb|].
  unfold bounded. cbn [fst setTokens tokens burst].
  rewrite Hq in E |- *. cbn in E. apply Qle_bool_iff in E.
  apply (take_bounded q 1 _ Hb); [discriminate | exact E | exact Hq1].
Qed.

Lemma AllowN_sound (rl : RateLimiter) (n now : Z) :
  0 <= n -> sound rl -> lastUpdate rl <= now -> sound (AllowN rl n now).1.
Proof.
  intros Hn Hs Ht. pose proof (refill_sound rl now Hs Ht) as Hs'.
  unfold AllowN. cbv zeta.
  destruct (fge (tokens (refill rl now)) (ofInt n)) eqn:E; [|exact Hs'].
  destruct Hs' as (Hr & Hb & (q & Hq & Hq0 & Hq1)).
  split; [exact Hr|]. split; [exact Hb|].
  unfold bounded. cbn [fst setTokens tokens burst].
  pose proof (ofInt_nonneg n Hn) as Hnn.
  rewrite Hq in E |- *.
  destruct (ofInt n) as [|[|]|m]; cbn in Hnn, E; try contradiction;
    try discriminate.
  apply Qle_bool_iff in E.
  apply (take_bounded q m _ Hb); assumption.
Qed.

Lemma Reserve_sound (rl : RateLimiter) (now : Z) :
  sound rl -> lastUpdate rl <= now -> sound (Reserve rl now).1.
Proof.
  intros Hs Ht. pose proof (refill_sound rl now Hs Ht) as Hs'.
  unfold Reserve. cbv zeta.
  destruct Hs' as (Hr & Hb & (q & Hq & Hq0 & Hq1)).
  destruct (fge (tokens (refill rl now)) (Fin 1)) eqn:E.
  - split; [exact Hr|]. split; [exact Hb|].
    unfold bounded. cbn [fst setTokens tokens burst].
    rewrite Hq in E |- *. cbn in E. apply Qle_bool_iff in E.
    apply (take_bounded q 1 _ Hb); [discriminate | exact E | exact Hq1].
  - split; [exact Hr|]. split; [exact Hb|].
    exists 0%Q. split; [reflexivity|]. split; [apply Qle_refl|].
    apply inject_Z_nonneg. apply Hb.
Qed.

Lemma SetBurst_sound (rl : RateLimiter) (b : Z) :
  0 <= b <= maxExact -> sound rl -> sound (SetBurst rl b).
Proof.
  intros Hb (Hr & _ & (q & Hq & Hq0 & Hq1)).
  split; [exact Hr|]. split; [exact Hb|].
  unfold bounded, SetBurst. cbn [tokens burst].
  rewrite (ofInt_exact _ Hb), Hq. cbn.
  pose proof (inject_Z_nonneg _ (proj1 Hb)) as Hb0.
  case_Qle q (inject_Z b) E; cbn.
  - exists q. auto.
  - exists (inject_Z b). split; [reflexivity|]. split; lra.
Qed.

Lemma Qtrunc_range (q : Q) (b : Z) :
  (0 <= q)%Q -> (q <= inject_Z b)%Q -> 0 <= Qtrunc q <= b.
Proof.
  destruct q as [n d]. unfold Qle, Qtrunc. cbn. intros H0 Hb.
  assert (Hn : 0 <= n) by lia.
  rewrite Z.quot_div_nonneg by lia. split.
  - apply Z.div_pos; lia.
  - apply Z.div_le_upper_bound; lia.
Qed.

(** A valid construction gives a limiter in working order, holding
    [burst] tokens. *)
Lemma NewRateLimiter_sound (r : float) (b now : Z) :
  valid r b -> sound (NewRateLimiter r b now).
Proof.
  destruct r as [| |r]; cbn [valid]; try contradiction.
  intros [Hb Hr]. unfold NewRateLimiter. cbv zeta.
  set (r' := if fle (Fin r) (Fin 0) then Fin 10 else Fin r).
  assert (Hr' : exists q, r' = Fin q /\ (0 < q)%Q
                          /\ (b <= 0 -> (q <= inject_Z maxExact)%Q)).
  { unfold r'. cbn. case_Qle r 0%Q E.
    - exists 10%Q. split; [reflexivity|]. split; [reflexivity|].
      intros _. discriminate.
    - exists r. auto. }
  destruct Hr' as (q & Hq & Hq0 & Hq1). rewrite Hq.
  set (b' := if b <=? 0 then toInt (Fin q) else b).
  assert (Hb' : 0 <= b' <= maxExact).
  { unfold b'. destruct (Z.leb_spec b 0) as [Hle|Hgt]; [|lia].
    pose proof (Qtrunc_range q maxExact (Qlt_le_weak _ _ Hq0) (Hq1 Hle)) as Ht.
    cbn [toInt]. cbv zeta.
    assert (E : (- 2 ^ 63 <=? Qtrunc q) && (Qtrunc q <? 2 ^ 63) = true).
    { apply andb_true_intro. unfold maxExact in Ht. split.
      - apply Z.leb_le. lia.
      - apply Z.ltb_lt. lia. }
    rewrite E. exact Ht. }
  split; [exists q; auto|]. split; [exact Hb'|].
  unfold bounded. cbn [tokens burst]. rewrite (ofInt_exact _ Hb').
  exists (inject_Z b'). split; [reflexivity|].
  split; [apply inject_Z_nonneg; lia | apply Qle_refl].
Qed.

(** The rate and, in orderly runs, the clock are carried along. *)
Lemma perform_lastUpdate (rl : RateLimiter) (o : op) :
  lastUpdate (perform rl o)
  = match o with
    | OpAllow now | OpAllowN _ now | OpReserve now => now
    | OpSetBurst _ => lastUpdate rl
    end.
Proof.
  destruct o as [now | n now | now | b]; cbn -[refill]; try reflexivity.
  - unfold Allow. cbv zeta. destruct (fge (tokens (refill rl now)) (Fin 1)); reflexivity.
  - unfold AllowN. cbv zeta.
    destruct (fge (tokens (refill rl now)) (ofInt n)); reflexivity.
  - unfold Reserve. cbv zeta. destruct (fge (tokens (refill rl now)) (Fin 1)); reflexivity.
Qed.

Lemma perform_sound (rl : RateLimiter) (o : op) (rest : list op) :
  sound rl -> orderly (lastUpdate rl) (o :: rest) ->
  sound (perform rl o) /\ orderly (lastUpdate (perform rl o)) rest.
Proof.
  intros Hs Hord. rewrite perform_lastUpdate.
  destruct o as [now | n now | now | b]; cbn [orderly] in Hord; cbn [perform].
  - split; [now apply Allow_sound | tauto].
  - split; [now apply AllowN_sound | tauto].
  - split; [now apply Reserve_sound | tauto].
  - split; [now apply SetBurst_sound | tauto].
Qed.

(** The invariant holds along every orderly run. *)
Lemma run_sound (ops : list op) :
  forall rl, sound rl -> orderly (lastUpdate rl) ops -> sound (run rl ops).
Proof.
  induction ops as [|o ops IH]; intros rl Hs Hord; [exact Hs|].
  change (run rl (o :: ops)) with (run (perform rl o) ops).
  destruct (perform_sound rl o ops Hs Hord) as [Hs' Hord']. now apply IH.
Qed.

(** A rounded number is held in lowest terms. *)
Lemma round64_reduced (q w : Q) : round64 q = Fin w -> Qred w = w.
Proof.
  unfold round64. destruct (q ?= 0)%Q.
  - intros H. injection H as <-. reflexivity.
  - cbv zeta. destruct (Qle_bool (2 ^ 1024) (nearest (- q))); [discriminate|].
    intros H. injection H as <-. apply Qred_complete, Qred_correct.
  - cbv zeta. destruct (Qle_bool (2 ^ 1024) (nearest q)); [discriminate|].
    intros H. injection H as <-. apply Qred_complete, Qred_correct.
Qed.

(** What the refill does: the tokens held and the tokens earned are added
    up, and the sum is kept when it is at most [burst] and replaced by
    [burst] when it is [burst] or more, or beyond every number. *)
Lemma refill_replenishes (rl : RateLimiter) (now : Z) (q : Q) :
  sound rl -> lastUpdate rl <= now -> tokens rl = Fin q ->
  match fmul (elapsedSeconds rl now) (rate rl) with
  | Fin v =>
      ((inject_Z (burst rl) <= q + v)%Q ->
       tokens (refill rl now) = Fin (inject_Z (burst rl)))
      /\ ((q + v <= inject_Z (burst rl))%Q ->
          tokens (refill rl now) = round64 (q + v))
  | _ => tokens (refill rl now) = Fin (inject_Z (burst rl))
  end.
Proof.
  intros ((r & Hrate & Hr) & Hb & (q0 & Hq0 & Hq00 & Hq01)) Ht Hq.
  rewrite Hq in Hq0. injection Hq0 as <-.
  assert (Hn : nonneg (fmul (elapsedSeconds rl now) (rate rl))).
  { rewrite Hrate. apply fmul_nonneg; [|exact Hr]. apply Seconds_nonneg. lia. }
  pose proof (inject_Z_nonneg _ (proj1 Hb)) as Hb0.
  unfold refill. cbn [tokens]. rewrite (ofInt_exact _ Hb), Hq.
  destruct (fmul (elapsedSeconds rl now) (rate rl)) as [|[|]|v];
    cbn in Hn; try contradiction.
  - reflexivity.
  - cbn [fadd]. split.
    + intros Hfull.
      pose proof (round64_mono (inject_Z (burst rl)) (q + v) Hb0 Hfull) as Hm.
      rewrite (round64_int _ Hb) in Hm.
      destruct (round64 (q + v)) as [|[|]|w] eqn:Ew; cbn in Hm;
        try discriminate; [reflexivity|].
      apply Qle_bool_iff in Hm. cbn.
      case_Qle w (inject_Z (burst rl)) E; cbn; [|reflexivity].
      f_equal. rewrite <- (round64_reduced _ _ Ew).
      assert (Heq : (w == inject_Z (burst rl))%Q) by (apply Qle_antisym; assumption).
      rewrite (Qred_complete _ _ Heq).
      apply Qcanon.Qred_identity. cbn. apply Z.gcd_1_r.
    + intros Hroom.
      destruct (round64_between 0 (burst rl) (q + v)%Q) as (w & Hw & _ & H1);
        [lia | lia | change (inject_Z 0) with 0%Q; lra | exact Hroom |].
      rewrite Hw. cbn.
      assert (E : Qle_bool w (inject_Z (burst rl)) = true)
        by now apply Qle_bool_iff.
      now rewrite E.
Qed.

(** *** Calls made at one instant *)

Lemma budget_room (now cap g : Z) (rl : RateLimiter) :
  budget now cap g rl -> g <= cap.
Proof.
  intros ((_ & _ & (q & Hq & Hq0 & _)) & _ & _ & _ & (q' & Hq' & Hle) & _).
  rewrite Hq in Hq'. injection Hq' as <-.
  assert (H : (inject_Z 0 <= inject_Z (cap - g))%Q)
    by (change (inject_Z 0) with 0%Q; lra).
  rewrite <- Zle_Qle in H. lia.
Qed.

(** The refill of a call made at the instant. *)
Lemma refill_budget (now cap g : Z) (rl : RateLimiter) :
  cap <= maxExact -> budget now cap g rl ->
  budget now cap g (refill rl now)
  /\ lastUpdate (refill rl now) = now.
Proof.
  intros Hcap Hbud. pose proof (budget_room _ _ _ _ Hbud) as Hroom.
  destruct Hbud as (Hs & Hb & Ht & Hg & (q & Hq & Hle) & Hwhen).
  pose proof (refill_sound rl now Hs Ht) as Hs'.
  split; [|reflexivity].
  split; [exact Hs'|]. split; [exact Hb|]. split; [cbn; lia|].
  split; [exact Hg|]. split; [|left; reflexivity].
  destruct Hs as ((r & Hrate & Hr) & Hbb & (q0 & Hq0 & Hq00 & Hq01)).
  rewrite Hq in Hq0. injection Hq0 as <-.
  destruct Hwhen as [Hsame | ->].
  - (* nothing is earned *)
    unfold refill, elapsedSeconds. cbn [tokens burst].
    rewrite Hsame, Z.sub_diag, Hrate, earned_same_instant, Hq.
    rewrite (ofInt_exact _ Hbb). cbn [fadd].
    destruct (round64_between 0 (cap - g) (q + 0)%Q) as (w & Hw & H0 & H1);
      [lia | lia | change (inject_Z 0) with 0%Q; lra | lra |].
    rewrite Hw. cbn. case_Qle w (inject_Z (burst rl)) E; cbn.
    + exists w. auto.
    + exists (inject_Z (burst rl)). split; [reflexivity | lra].
  - (* nothing granted yet: the clamp at [burst] is enough *)
    destruct Hs' as (_ & _ & (q' & Hq' & _ & Hq'1)).
    exists q'. split; [exact Hq'|].
    change (burst (refill rl now)) with (burst rl) in Hq'1.
    assert (H : (inject_Z (burst rl) <= inject_Z (cap - 0))%Q)
      by (rewrite <- Zle_Qle; lia).
    lra.
Qed.

(** Taking tokens after the refill, at the instant. *)
Lemma take_budget (now cap g g' : Z) (rl : RateLimiter) (q m : Q) :
  cap <= maxExact -> budget now cap g rl -> lastUpdate rl = now ->
  tokens rl = Fin q -> (0 <= m)%Q -> (m <= q)%Q ->
  g <= g' -> (inject_Z (g' - g) <= m)%Q ->
  budget now cap g' (setTokens rl (fsub (Fin q) (Fin m))).
Proof.
  intros Hcap Hbud Hnow Hq Hm Hmq Hgg Hcount.
  pose proof (budget_room _ _ _ _ Hbud) as Hroom.
  destruct Hbud as (Hs & Hb & Ht & Hg & (q1 & Hq1 & Hle) & _).
  rewrite Hq in Hq1. injection Hq1 as <-.
  destruct Hs as (Hr & Hbb & (q0 & Hq0 & Hq00 & Hq01)).
  rewrite Hq in Hq0. injection Hq0 as <-.
  assert (Hcg : (inject_Z (cap - g') == inject_Z (cap - g) - inject_Z (g' - g))%Q).
  { unfold Z.sub. rewrite !inject_Z_plus, !inject_Z_opp. ring. }
  assert (Hroom' : 0 <= cap - g').
  { assert (H : (inject_Z 0 <= inject_Z (cap - g'))%Q)
      by (change (inject_Z 0) with 0%Q; lra).
    now rewrite <- Zle_Qle in H. }
  unfold fsub. cbn [fneg fadd].
  destruct (round64_between 0 (cap - g') (q + - m)%Q) as (w & Hw & H0 & H1);
    [lia | lia | change (inject_Z 0) with 0%Q; lra | lra |].
  change (inject_Z 0) with 0%Q in H0.
  destruct (round64_between 0 (burst rl) (q + - m)%Q) as (w' & Hw' & _ & H1');
    [lia | lia | change (inject_Z 0) with 0%Q; lra | lra |].
  rewrite Hw in Hw'. injection Hw' as <-.
  split.
  { split; [exact Hr|]. split; [exact Hbb|]. exists w. cbn. rewrite Hw. auto. }
  split; [exact Hb|]. split; [exact Ht|]. split; [lia|].
  split; [exists w; cbn; rewrite Hw; auto|]. left. exact Hnow.
Qed.

Lemma granted_app (l1 l2 : list bool) :
  granted (l1 ++ l2) = (granted l1 + granted l2)%nat.
Proof. unfold granted. now rewrite List.filter_app, length_app. Qed.

(** At one instant the grants never exceed the budget. *)
Lemma instant_grants (now cap : Z) (ops : list op) :
  cap <= maxExact ->
  forall rl g,
    budget now cap g rl -> within now cap ops ->
    g + Z.of_nat (granted (allowed rl ops)) <= cap.
Proof.
  intros Hcap. induction ops as [|o ops IH]; intros rl g Hbud Hin.
  { cbn. pose proof (budget_room _ _ _ _ Hbud). lia. }
  cbn [allowed]. rewrite granted_app.
  destruct o as [t | n t | t | b]; cbn [within] in Hin; cbn [perform].
  - (* Allow *)
    destruct Hin as [-> Hin].
    destruct (refill_budget now cap g rl Hcap Hbud) as [Hbud1 Hnow1].
    unfold Allow. cbv zeta.
    destruct (fge (tokens (refill rl now)) (Fin 1)) eqn:E; cbn [fst snd].
    + pose proof Hbud1 as (_ & _ & _ & _ & (q & Hq & _) & _).
      rewrite Hq in E |- *. cbn in E. apply Qle_bool_iff in E.
      pose proof (take_budget now cap g (g + 1) (refill rl now) q 1
                    Hcap Hbud1 Hnow1 Hq ltac:(discriminate) E ltac:(lia)) as Hb2.
      specialize (IH _ _ (Hb2 ltac:(replace (g + 1 - g) with 1 by lia;
                                     apply Qle_refl)) Hin).
      change (granted [true]) with 1%nat. lia.
    + specialize (IH _ _ Hbud1 Hin). change (granted [false]) with 0%nat. lia.
  - (* AllowN *)
    destruct Hin as (Hn & -> & Hin).
    destruct (refill_budget now cap g rl Hcap Hbud) as [Hbud1 Hnow1].
    change (granted []) with 0%nat.
    unfold AllowN. cbv zeta.
    destruct (fge (tokens (refill rl now)) (ofInt n)) eqn:E; cbn [fst].
    + pose proof Hbud1 as (_ & _ & _ & _ & (q & Hq & _) & _).
      pose proof (ofInt_nonneg n Hn) as Hnn.
      rewrite Hq in E |- *.
      destruct (ofInt n) as [|[|]|m]; cbn in Hnn, E; try contradiction;
        try discriminate.
      apply Qle_bool_iff in E.
      pose proof (take_budget now cap g g (refill rl now) q m
                    Hcap Hbud1 Hnow1 Hq Hnn E ltac:(lia)) as Hb2.
      specialize (IH _ _ (Hb2 ltac:(rewrite Z.sub_diag; exact Hnn)) Hin). lia.
    + specialize (IH _ _ Hbud1 Hin). lia.
  - (* Reserve *)
    destruct Hin as [-> Hin].
    destruct (refill_budget now cap g rl Hcap Hbud) as [Hbud1 Hnow1].
    change (granted []) with 0%nat.
    unfold Reserve. cbv zeta.
    destruct (fge (tokens (refill rl now)) (Fin 1)) eqn:E; cbn [fst].
    + pose proof Hbud1 as (_ & _ & _ & _ & (q & Hq & _) & _).
      rewrite Hq in E |- *. cbn in E. apply Qle_bool_iff in E.
      pose proof (take_budget now cap g g (refill rl now) q 1
                    Hcap Hbud1 Hnow1 Hq ltac:(discriminate) E ltac:(lia)) as Hb2.
      specialize (IH _ _ (Hb2 ltac:(rewrite Z.sub_diag; discriminate)) Hin). lia.
    + assert (Hb2 : budget now cap g (setTokens (refill rl now) (Fin 0))).
      { pose proof (budget_room _ _ _ _ Hbud1) as Hroom.
        destruct Hbud1 as ((Hr & Hbb & _) & Hb & Ht & Hg & _ & Hw).
        split.
        { split; [exact Hr|]. split; [exact Hbb|].
          exists 0%Q. split; [reflexivity|].
          split; [apply Qle_refl | apply inject_Z_nonneg, Hbb]. }
        split; [exact Hb|]. split; [exact Ht|]. split; [exact Hg|].
        split; [|exact Hw]. exists 0%Q. split; [reflexivity|].
        apply inject_Z_nonneg. lia. }
      specialize (IH _ _ Hb2 Hin). lia.
  - (* SetBurst *)
    destruct Hin as [Hb Hin]. change (granted []) with 0%nat.
    assert (Hb2 : budget now cap g (SetBurst rl b)).
    { destruct Hbud as (Hs & Hbc & Ht & Hg & (q & Hq & Hle) & Hw).
      split; [apply SetBurst_sound; [lia | exact Hs]|].
      split; [cbn; lia|]. split; [exact Ht|]. split; [exact Hg|].
      split; [|exact Hw].
      unfold SetBurst. cbn [tokens]. rewrite Hq.
      rewrite (ofInt_exact b) by lia. cbn.
      case_Qle q (inject_Z b) E; cbn.
      - exists q. auto.
      - exists (inject_Z b). split; [reflexivity | lra]. }
    specialize (IH _ _ Hb2 Hin). lia.
Qed.

(** C1, as stated, fails on the code: on a fresh limiter with burst 1,
    [AllowN(-5)] succeeds and leaves 6 tokens, above the burst, and
    [SetBurst(-1)] leaves -1 tokens, below zero. *)
Lemma C1_counterexample :
  let rl := NewRateLimiter (Fin 1) 1 0 in
  valid (Fin 1) 1
  /\ (tokens (run rl [OpAllowN (-5) 0]) = Fin 6
      /\ burst (run rl [OpAllowN (-5) 0]) = 1
      /\ ~ bounded (run rl [OpAllowN (-5) 0]))
  /\ (tokens (run rl [OpSetBurst (-1)]) = Fin (-1)
      /\ ~ bounded (run rl [OpSetBurst (-1)])).
Proof.
  cbv zeta.
  assert (H6 : tokens (run (NewRateLimiter (Fin 1) 1 0) [OpAllowN (-5) 0]) = Fin 6)
    by (vm_compute; reflexivity).
  assert (H1 : tokens (run (NewRateLimiter (Fin 1) 1 0) [OpSetBurst (-1)]) = Fin (-1))
    by (vm_compute; reflexivity).
  split; [split; [vm_compute; discriminate | discriminate]|].
  split; [split; [exact H6 | split; [reflexivity|]] | split; [exact H1|]].
  - intros (q & Hq & _ & Hle). rewrite H6 in Hq. injection Hq as <-.
    vm_compute in Hle. apply Hle. reflexivity.
  - intros (q & Hq & Hle & _). rewrite H1 in Hq. injection Hq as <-.
    vm_compute in Hle. apply Hle. reflexivity.
Qed.

Lemma within_Allow (now cap : Z) (k : nat) :
  within now cap (replicate k (OpAllow now)).
Proof. induction k as [|k IH]; cbn; auto. Qed.

(** C1 (amended): for every valid construction [NewRateLimiter(rate,
    burst)] (a rate that is a number, and a burst of at most 2^53 for the
    limiter) and every sequence of calls of [Allow], [AllowN(n)] with
    [n >= 0], [Reserve] and [SetBurst(b)] with [0 <= b <= 2^53], read on a
    clock that does not go back, the tokens stay a number between 0 and
    [burst].  The next access adds the tokens earned since the last one to
    the tokens held, and keeps the sum when it is at most [burst] and
    [burst] otherwise.  Among any further such calls, all made at one
    instant, [Allow] returns true at most [cap] times, [cap] bounding the
    burst of the limiter and the bursts set at that instant; so any
    number of calls of [Allow] in a row at one instant return true at
    most [burst] times. *)
Theorem C1_tokens_within_burst (r : float) (b t0 : Z) (ops : list op)
    (now cap : Z) (calls : list op) (k : nat) :
  valid r b -> orderly t0 ops ->
  let rl := run (NewRateLimiter r b t0) ops in
  bounded rl
  /\ (lastUpdate rl <= now ->
      forall q, tokens rl = Fin q ->
        match fmul (elapsedSeconds rl now) (rate rl) with
        | Fin v =>
            ((inject_Z (burst rl) <= q + v)%Q ->
             tokens (refill rl now) = Fin (inject_Z (burst rl)))
            /\ ((q + v <= inject_Z (burst rl))%Q ->
                tokens (refill rl now) = round64 (q + v))
        | _ => tokens (refill rl now) = Fin (inject_Z (burst rl))
        end)
  /\ (lastUpdate rl <= now -> burst rl <= cap -> cap <= maxExact ->
      within now cap calls ->
      Z.of_nat (granted (allowed rl calls)) <= cap)
  /\ (lastUpdate rl <= now ->
      Z.of_nat (granted (allowed rl (replicate k (OpAllow now)))) <= burst rl).
Proof.
  intros Hvalid Hord rl.
  pose proof (NewRateLimiter_sound r b t0 Hvalid) as Hs0.
  assert (Hs : sound rl) by (apply run_sound; [exact Hs0 | exact Hord]).
  assert (Hgrants : forall cap calls,
            lastUpdate rl <= now -> burst rl <= cap -> cap <= maxExact ->
            within now cap calls ->
            Z.of_nat (granted (allowed rl calls)) <= cap).
  { intros cap' calls' Ht Hb Hcap Hin.
    assert (Hbud : budget now cap' 0 rl).
    { split; [exact Hs|]. split; [exact Hb|]. split; [exact Ht|]. split; [lia|].
      split; [|now right].
      destruct Hs as (_ & _ & (q & Hq & _ & Hq1)). exists q. split; [exact Hq|].
      assert (H : (inject_Z (burst rl) <= inject_Z (cap' - 0))%Q)
        by (rewrite <- Zle_Qle; lia).
      lra. }
    pose proof (instant_grants now cap' calls' Hcap rl 0 Hbud Hin). lia. }
  split; [apply Hs|]. split; [|split].
  - intros Ht q Hq. now apply refill_replenishes.
  - apply Hgrants.
  - intros Ht. apply Hgrants; [exact Ht | lia | apply Hs | apply within_Allow].
Qed.

Lemma C1_tokens_within_burst_witness :
  bounded (run (NewRateLimiter (Fin 2) 3 0) sampleOps)
  /\ (let rl := run (NewRateLimiter (Fin 1) 3 0) [] in
      Z.of_nat (granted (allowed rl sampleInstant)) <= 3
      /\ Z.of_nat (granted (allowed rl (replicate 10 (OpAllow 5)))) <= burst rl).
Proof.
  assert (V2 : valid (Fin 2) 3).
  { split; [vm_compute; discriminate | intros H; lia]. }
  assert (V1 : valid (Fin 1) 3).
  { split; [vm_compute; discriminate | intros H; lia]. }
  assert (O : orderly 0 sampleOps) by (cbn; unfold maxExact; lia).
  destruct (C1_tokens_within_burst (Fin 2) 3 0 sampleOps 0 0 [] 0 V2 O)
    as (H1 & _).
  destruct (C1_tokens_within_burst (Fin 1) 3 0 [] 5 3 sampleInstant 10 V1 I)
    as (_ & _ & H3 & H4).
  split; [exact H1|]. cbv zeta. split.
  - apply H3.
    + vm_compute. discriminate.
    + vm_compute. discriminate.
    + vm_compute. discriminate.
    + cbn. lia.
  - apply H4. vm_compute. discriminate.
Defined.

End RateLimitProps.

(** ** Retry with backoff *)

Module RetryProps.
Import GoErr GoNum Retry.

Lemma calls_app (l1 l2 : list event) : calls (l1 ++ l2) = (calls l1 + calls l2)%nat.
Proof. unfold calls. now rewrite List.filter_app, length_app. Qed.

Lemma calls_snoc_call (l : list event) (a : nat) : calls (l ++ [Call a]) = S (calls l).
Proof. rewrite calls_app. unfold calls. cbn. lia. Qed.

Lemma calls_snoc_sleep (l : list event) (d : Z) : calls (l ++ [Sleep d]) = calls l.
Proof. rewrite calls_app. unfold calls. cbn. lia. Qed.

(** The guards leave a configuration with at least one retry and positive
    delays and factor. *)
Lemma withDefaults_MaxRetries_pos (c : RetryConfig) : 1 <= MaxRetries (withDefaults c).
Proof. cbn. destruct (Z.leb_spec (MaxRetries c) 0); lia. Qed.

Lemma withDefaults_idem (c : RetryConfig) : withDefaults (withDefaults c) = withDefaults c.
Proof.
  destruct c as [m i d b j r]. unfold withDefaults. cbn.
  f_equal.
  - destruct (Z.leb_spec m 0); cbn; [reflexivity|].
    destruct (Z.leb_spec m 0); [lia | reflexivity].
  - destruct (Z.leb_spec i 0); cbn; [reflexivity|].
    destruct (Z.leb_spec i 0); [lia | reflexivity].
  - destruct (Z.leb_spec d 0); cbn; [reflexivity|].
    destruct (Z.leb_spec d 0); [lia | reflexivity].
  - destruct (Qle_bool b 0) eqn:E; [reflexivity|]. now rewrite E.
Qed.

(** Each iteration of the loop calls [fn] at most once. *)
Lemma retryLoop_calls_le (c : RetryConfig) (w : World) (fuel : nat) :
  forall attempt delay lastErr log,
    (calls (retryLoop c w fuel attempt delay lastErr log).2 <= calls log + fuel)%nat.
Proof.
  induction fuel as [|fuel IH]; intros attempt delay lastErr log; cbn.
  - lia.
  - destruct (doneBefore w attempt); cbn; [lia|].
    destruct (fn w attempt) as [err|]; cbn.
    2:{ rewrite calls_snoc_call. lia. }
    destruct (isRetryable err (RetryableErrors c)); cbn.
    2:{ rewrite calls_snoc_call. lia. }
    destruct (Z.of_nat attempt =? MaxRetries c); cbn.
    { rewrite calls_snoc_call. lia. }
    destruct (doneWaiting w attempt); cbn.
    { rewrite calls_snoc_call. lia. }
    etransitivity; [apply IH|].
    rewrite calls_snoc_sleep, calls_snoc_call. lia.
Qed.

(** [fn] is executed at most [M+1] times, [M] being [MaxRetries] after the
    guards. *)
Lemma RetryWithBackoff_calls_le (config : RetryConfig) (w : World) :
  Z.of_nat (calls (RetryWithBackoff config w).2) <= MaxRetries (withDefaults config) + 1.
Proof.
  unfold RetryWithBackoff. cbv zeta.
  pose proof (withDefaults_MaxRetries_pos config) as Hpos.
  pose proof (retryLoop_calls_le (withDefaults config) w
                (Z.to_nat (MaxRetries (withDefaults config) + 1)) 0
                (InitialDelay (withDefaults config)) None []) as H.
  change (calls []) with 0%nat in H. lia.
Qed.

(** With an uncancelled context and such a function the loop runs all its
    iterations and ends at the [break]. *)
Lemma retryLoop_exhaust (c : RetryConfig) (w : World) :
  neverCancelled w -> alwaysFailsRetryably c w ->
  forall fuel attempt delay lastErr log,
    (1 <= fuel)%nat ->
    Z.of_nat attempt + Z.of_nat fuel = MaxRetries c + 1 ->
    exists log',
      retryLoop c w fuel attempt delay lastErr log
      = (Some (maxRetriesExceeded c (fn w (Z.to_nat (MaxRetries c)))), log')
      /\ calls log' = (calls log + fuel)%nat.
Proof.
  intros Hctx Hfail fuel.
  induction fuel as [|fuel IH]; intros attempt delay lastErr log Hf Hsum; [lia|].
  cbn. destruct (Hctx attempt) as [Hb Hw]. rewrite Hb.
  destruct (Hfail attempt) as (e & He & Hr). rewrite He, Hr. cbn.
  destruct (Z.eqb_spec (Z.of_nat attempt) (MaxRetries c)) as [Heq|Hne].
  - assert (fuel = 0%nat) by lia. subst fuel.
    exists (log ++ [Call attempt]). split.
    + replace (Z.to_nat (MaxRetries c)) with attempt by lia.
      rewrite He. reflexivity.
    + rewrite calls_snoc_call. lia.
  - rewrite Hw.
    destruct (IH (S attempt) (nextDelay c delay) (Some e)
                ((log ++ [Call attempt]) ++ [Sleep (currentDelay c w attempt delay)]))
      as (log' & Hrun & Hcalls); [lia | lia |].
    exists log'. split; [exact Hrun|].
    rewrite Hcalls, calls_snoc_sleep, calls_snoc_call. lia.
Qed.

Lemma RetryWithBackoff_exhaust (config : RetryConfig) (w : World) :
  neverCancelled w -> alwaysFailsRetryably config w ->
  let c := withDefaults config in
  (RetryWithBackoff config w).1
    = Some (maxRetriesExceeded c (fn w (Z.to_nat (MaxRetries c))))
  /\ Z.of_nat (calls (RetryWithBackoff config w).2) = MaxRetries c + 1.
Proof.
  intros Hctx Hfail c.
  pose proof (withDefaults_MaxRetries_pos config) as Hpos. fold c in Hpos.
  destruct (retryLoop_exhaust c w Hctx Hfail
              (Z.to_nat (MaxRetries c + 1)) 0 (InitialDelay c) None [])
    as (log' & Hrun & Hcalls); [lia | lia |].
  unfold RetryWithBackoff. cbv zeta. fold c. rewrite Hrun. cbn [fst snd].
  split; [reflexivity|]. rewrite Hcalls. change (calls []) with 0%nat. lia.
Qed.

(** A non-retryable error at attempt [k] is returned as it is; [fn] has then
    been called [k+1] times and no sleep follows that call. *)
Lemma retryLoop_stops_at (c : RetryConfig) (w : World) (err : error) (k : nat) :
  (forall j, (j <= k)%nat -> doneBefore w j = false) ->
  (forall j, (j < k)%nat -> doneWaiting w j = false) ->
  (forall j, (j < k)%nat ->
     exists e, fn w j = Some e /\ isRetryable e (RetryableErrors c) = true) ->
  fn w k = Some err ->
  isRetryable err (RetryableErrors c) = false ->
  Z.of_nat k <= MaxRetries c ->
  forall fuel attempt delay lastErr log,
    (attempt <= k)%nat ->
    (fuel + attempt = S (Z.to_nat (MaxRetries c)))%nat ->
    exists log',
      retryLoop c w fuel attempt delay lastErr log = (Some err, log' ++ [Call k])
      /\ calls log' = (calls log + (k - attempt))%nat.
Proof.
  intros Hb Hw Hprev Hk Hnr HkM fuel.
  induction fuel as [|fuel IH]; intros attempt delay lastErr log Ha Hsum; [lia|].
  cbn. rewrite (Hb attempt Ha).
  destruct (Nat.eq_dec attempt k) as [->|Hne].
  - rewrite Hk, Hnr. cbn. exists log. split; [reflexivity|lia].
  - destruct (Hprev attempt) as (e & He & Hr); [lia|]. rewrite He, Hr. cbn.
    destruct (Z.eqb_spec (Z.of_nat attempt) (MaxRetries c)) as [Heq|_]; [lia|].
    rewrite Hw by lia.
    destruct (IH (S attempt) (nextDelay c delay) (Some e)
                ((log ++ [Call attempt]) ++ [Sleep (currentDelay c w attempt delay)]))
      as (log' & Hrun & Hcalls); [lia | lia |].
    exists log'. split; [exact Hrun|].
    rewrite Hcalls, calls_snoc_sleep, calls_snoc_call. lia.
Qed.

(** Whenever [fn] returns an error that is not retryable, that error is
    returned at once: [fn] has been called once per attempt so far and is
    not called again. *)
Lemma RetryWithBackoff_stops_at (config : RetryConfig) (w : World) (err : error)
    (k : nat) :
  (forall j, (j <= k)%nat -> doneBefore w j = false) ->
  (forall j, (j < k)%nat -> doneWaiting w j = false) ->
  (forall j, (j < k)%nat ->
     exists e, fn w j = Some e /\ isRetryable e (RetryableErrors config) = true) ->
  fn w k = Some err ->
  isRetryable err (RetryableErrors config) = false ->
  Z.of_nat k <= MaxRetries (withDefaults config) ->
  (RetryWithBackoff config w).1 = Some err
  /\ calls (RetryWithBackoff config w).2 = S k.
Proof.
  intros Hb Hw Hprev Hk Hnr HkM.
  pose proof (withDefaults_MaxRetries_pos config) as Hpos.
  destruct (retryLoop_stops_at (withDefaults config) w err k Hb Hw Hprev Hk Hnr HkM
              (Z.to_nat (MaxRetries (withDefaults config) + 1)) 0
              (InitialDelay (withDefaults config)) None [])
    as (log' & Hrun & Hcalls); [lia | lia |].
  unfold RetryWithBackoff. cbv zeta. rewrite Hrun. cbn [fst snd].
  split; [reflexivity|]. rewrite calls_snoc_call, Hcalls.
  change (calls []) with 0%nat. lia.
Qed.

Lemma boomWorld_neverCancelled : neverCancelled boomWorld.
Proof. intros k. split; reflexivity. Qed.

Lemma boomWorld_fails (c : RetryConfig) :
  RetryableErrors c = [] -> alwaysFailsRetryably c boomWorld.
Proof. intros H k. exists boom. rewrite H. split; reflexivity. Qed.

(** The zero-value configuration runs with the default delays: 100ms,
    doubled after every failure. *)
Example zeroConfig_run :
  RetryWithBackoff zeroConfig boomWorld
  = (Some (Wrapped "max retries (3) exceeded: connection refused" boom),
     [Call 0; Sleep 100000000; Call 1; Sleep 200000000; Call 2;
      Sleep 400000000; Call 3]).
Proof. vm_compute. reflexivity. Qed.

(** C2, as stated, fails on the code: a configuration with [MaxRetries = 0]
    has its always-failing function called 4 times, more than
    [MaxRetries + 1 = 1]; and with [MaxRetries = 3] a function that always
    fails with an error outside the retryable set is called once, not 4
    times. *)
Lemma C2_counterexample :
  (neverCancelled boomWorld /\ MaxRetries zeroConfig = 0
   /\ ~ Z.of_nat (calls (RetryWithBackoff zeroConfig boomWorld).2)
        <= MaxRetries zeroConfig + 1)
  /\ (MaxRetries onlyTimeouts = 3
      /\ (forall k, fn boomWorld k = Some boom)
      /\ calls (RetryWithBackoff onlyTimeouts boomWorld).2 <> 4%nat).
Proof.
  split; [split; [exact boomWorld_neverCancelled | split; [reflexivity|]] |].
  - vm_compute. intros H. apply H. reflexivity.
  - split; [reflexivity | split; [reflexivity|]]. vm_compute. discriminate.
Qed.

(** C2 (amended): [fn] is executed at most [M+1] times, where [M] is
    [MaxRetries] when that is positive and 3 otherwise; with
    [MaxRetries = 3], a context that is never cancelled and a function that
    always fails with a retryable error, [fn] is called exactly 4 times and
    the returned error wraps the failure of the last call behind the text
    "max retries (3) exceeded: ". *)
Theorem C2_retry_attempts (config : RetryConfig) (w : World) :
  Z.of_nat (calls (RetryWithBackoff config w).2)
    <= (if MaxRetries config <=? 0 then 3 else MaxRetries config) + 1
  /\ (MaxRetries config = 3 -> neverCancelled w -> alwaysFailsRetryably config w ->
      calls (RetryWithBackoff config w).2 = 4%nat
      /\ exists last,
           fn w 3 = Some last
           /\ (RetryWithBackoff config w).1
              = Some (Wrapped ("max retries (3) exceeded: " +:+ Error last) last)
           /\ Unwrap (Wrapped ("max retries (3) exceeded: " +:+ Error last) last)
              = Some last).
Proof.
  split.
  - exact (RetryWithBackoff_calls_le config w).
  - intros HM Hctx Hfail.
    destruct (RetryWithBackoff_exhaust config w Hctx Hfail) as [Hres Hcalls].
    assert (HM' : MaxRetries (withDefaults config) = 3) by (cbn; now rewrite HM).
    rewrite HM' in Hres, Hcalls. split; [lia|].
    destruct (Hfail 3%nat) as (last & Hlast & _). exists last.
    split; [exact Hlast|]. split; [|reflexivity].
    rewrite Hres. change (Z.to_nat 3) with 3%nat. rewrite Hlast.
    unfold maxRetriesExceeded. now rewrite HM'.
Qed.

Lemma C2_retry_attempts_witness :
  calls (RetryWithBackoff threeRetries boomWorld).2 = 4%nat
  /\ exists last,
       fn boomWorld 3 = Some last
       /\ (RetryWithBackoff threeRetries boomWorld).1
          = Some (Wrapped ("max retries (3) exceeded: " +:+ Error last) last)
       /\ Unwrap (Wrapped ("max retries (3) exceeded: " +:+ Error last) last)
          = Some last.
Proof.
  apply (C2_retry_attempts threeRetries boomWorld).
  - reflexivity.
  - exact boomWorld_neverCancelled.
  - apply boomWorld_fails. reflexivity.
Defined.

(** C9: when the retryable set is non-empty and the first call of [fn]
    returns an error that matches none of its elements, [RetryWithBackoff]
    returns that very error after this single call, without sleeping or
    calling again; when the set is empty every error is retryable. *)
Theorem C9_non_retryable_stops (config : RetryConfig) (w : World) (err : error) :
  (RetryableErrors config <> [] ->
   Forall (fun target => Is err target = false) (RetryableErrors config) ->
   doneBefore w 0 = false ->
   fn w 0 = Some err ->
   RetryWithBackoff config w = (Some err, [Call 0]))
  /\ (RetryableErrors config = [] ->
      isRetryable err (RetryableErrors config) = true).
Proof.
  split.
  - intros Hne Hall Hb Hfn.
    assert (Hnr : isRetryable err (RetryableErrors config) = false).
    { unfold isRetryable. destruct (RetryableErrors config) as [|t ts] eqn:E;
        [congruence|].
      rewrite <- E in *. clear E Hne.
      induction Hall as [|x xs Hx _ IH]; [reflexivity|].
      cbn. now rewrite Hx, IH. }
    unfold RetryWithBackoff. cbv zeta.
    pose proof (withDefaults_MaxRetries_pos config) as Hpos.
    destruct (Z.to_nat (MaxRetries (withDefaults config) + 1)) as [|fuel] eqn:Ef;
      [lia|].
    cbn. rewrite Hb, Hfn. cbn. now rewrite Hnr.
  - intros ->. reflexivity.
Qed.

Lemma C9_non_retryable_stops_witness :
  RetryWithBackoff onlyTimeouts boomWorld = (Some boom, [Call 0])
  /\ isRetryable boom (RetryableErrors threeRetries) = true.
Proof.
  split.
  - apply (C9_non_retryable_stops onlyTimeouts boomWorld boom).
    + discriminate.
    + repeat constructor.
    + reflexivity.
    + reflexivity.
  - apply (C9_non_retryable_stops threeRetries boomWorld boom). reflexivity.
Defined.

(** C10, as stated, fails on the code: with [MaxRetries <= 0] an
    always-failing function is not always invoked 4 times.  With
    [MaxRetries = 0] and timeouts as the only retryable errors, a function
    that always fails with another error is called once, under a context
    that is never cancelled; and with the zero-value configuration and a
    context that is cancelled from the start it is not called at all. *)
Lemma C10_counterexample :
  (MaxRetries noRetriesOnlyTimeouts <= 0
   /\ (forall k, fn boomWorld k = Some boom)
   /\ neverCancelled boomWorld
   /\ calls (RetryWithBackoff noRetriesOnlyTimeouts boomWorld).2 = 1%nat)
  /\ (MaxRetries zeroConfig <= 0
      /\ (forall k, fn cancelledWorld k = Some boom)
      /\ calls (RetryWithBackoff zeroConfig cancelledWorld).2 = 0%nat).
Proof.
  split.
  - split; [cbn; lia|]. split; [reflexivity|].
    split; [exact boomWorld_neverCancelled | reflexivity].
  - split; [cbn; lia|]. split; reflexivity.
Qed.

(** C10 (amended): a configuration with [MaxRetries <= 0] runs as if
    [MaxRetries] were 3, so that under a context that is not cancelled a
    function that always fails with an error the configuration retries is
    invoked 4 times; non-positive [InitialDelay], [MaxDelay] and
    [BackoffFactor] are replaced by 100ms, 10s and 2; and running a
    configuration is running it with these replacements made. *)
Theorem C10_defaults_substituted (config : RetryConfig) (w : World) :
  let c := withDefaults config in
  (MaxRetries config <= 0 ->
   MaxRetries c = 3
   /\ RetryWithBackoff config w = retryLoop c w 4 0 (InitialDelay c) None []
   /\ (neverCancelled w -> alwaysFailsRetryably config w ->
       calls (RetryWithBackoff config w).2 = 4%nat))
  /\ (InitialDelay config <= 0 -> InitialDelay c = 100 * Millisecond)
  /\ (MaxDelay config <= 0 -> MaxDelay c = 10 * Second)
  /\ ((BackoffFactor config <= 0)%Q -> BackoffFactor c = 2%Q)
  /\ RetryWithBackoff config w = RetryWithBackoff c w.
Proof.
  intros c. split; [|split; [|split; [|split]]].
  - intros HM.
    assert (HM3 : MaxRetries c = 3).
    { cbn. destruct (Z.leb_spec (MaxRetries config) 0); [reflexivity | lia]. }
    split; [exact HM3|]. split.
    { unfold RetryWithBackoff. cbv zeta. fold c. now rewrite HM3. }
    intros Hctx Hfail.
    destruct (RetryWithBackoff_exhaust config w Hctx Hfail) as [_ Hcalls].
    fold c in Hcalls. rewrite HM3 in Hcalls. lia.
  - intros H. cbn. destruct (Z.leb_spec (InitialDelay config) 0); [reflexivity | lia].
  - intros H. cbn. destruct (Z.leb_spec (MaxDelay config) 0); [reflexivity | lia].
  - intros H. cbn. apply Qle_bool_iff in H. now rewrite H.
  - unfold RetryWithBackoff. cbv zeta. unfold c. now rewrite withDefaults_idem.
Qed.

Lemma C10_defaults_substituted_witness :
  MaxRetries (withDefaults zeroConfig) = 3
  /\ calls (RetryWithBackoff zeroConfig boomWorld).2 = 4%nat
  /\ InitialDelay (withDefaults zeroConfig) = 100 * Millisecond
  /\ MaxDelay (withDefaults zeroConfig) = 10 * Second
  /\ BackoffFactor (withDefaults zeroConfig) = 2%Q.
Proof.
  destruct (C10_defaults_substituted zeroConfig boomWorld)
    as (Hmax & H3 & H4 & H5 & _).
  destruct Hmax as (H1 & _ & H2); [cbn; lia|].
  split; [exact H1|]. split.
  { apply H2; [exact boomWorld_neverCancelled | now apply boomWorld_fails]. }
  split; [apply H3; cbn; lia|]. split; [apply H4; cbn; lia|].
  apply H5. cbn. discriminate.
Defined.

End RetryProps.

(** ** Circuit breaker *)

Module BreakerProps.
Import GoErr Breaker.

Lemma run_snoc (cb : CircuitBreaker) (cs : list call) (c : call) :
  run cb (cs ++ [c]) = after (Execute (run cb cs) c).
Proof. unfold run. now rewrite fold_left_app. Qed.

Lemma Execute_params (cb : CircuitBreaker) (c : call) :
  maxFailures (after (Execute cb c)) = maxFailures cb
  /\ resetTimeout (after (Execute cb c)) = resetTimeout cb.
Proof.
  unfold Execute, letThrough.
  destruct (String.eqb (state cb) "open");
    [destruct (resetTimeout cb <? now c - lastFailureTime cb)|];
    cbn; try (split; reflexivity);
    destruct (fnResult c); cbn; split; reflexivity.
Qed.

Lemma run_params (cs : list call) :
  forall cb, maxFailures (run cb cs) = maxFailures cb
             /\ resetTimeout (run cb cs) = resetTimeout cb.
Proof.
  induction cs as [|c cs IH]; intros cb; [split; reflexivity|].
  change (run cb (c :: cs)) with (run (after (Execute cb c)) cs).
  destruct (IH (after (Execute cb c))) as [-> ->]. apply Execute_params.
Qed.

Lemma letThrough_closed (cb : CircuitBreaker) (t : Z) :
  state cb = "closed" -> letThrough cb t = Some cb.
Proof. intros H. unfold letThrough. now rewrite H. Qed.

(** Between calls the breaker is closed or open, and open only with at
    least [maxFailures] failures counted. *)
Lemma Execute_settled (cb : CircuitBreaker) (c : call) :
  settled cb -> settled (after (Execute cb c)).
Proof.
  intros [Hc | [Ho Hf]]; unfold Execute.
  - rewrite (letThrough_closed _ _ Hc). cbn. unfold settled.
    destruct (fnResult c); cbn; [|now left].
    destruct (Z.leb_spec (maxFailures cb) (failures cb + 1)); [right | left]; auto.
  - unfold letThrough. rewrite Ho. cbn.
    destruct (resetTimeout cb <? now c - lastFailureTime cb); cbn.
    + unfold settled. destruct (fnResult c); cbn; [|now left].
      destruct (Z.leb_spec (maxFailures cb) (failures cb + 1)); [|lia].
      right. split; [reflexivity | lia].
    + right. auto.
Qed.

Lemma run_settled (cs : list call) :
  forall cb, settled cb -> settled (run cb cs).
Proof.
  induction cs as [|c cs IH]; intros cb H; [exact H|].
  apply (IH (after (Execute cb c))). now apply Execute_settled.
Qed.

(** While closed, failures short of [maxFailures] are only counted. *)
Lemma run_failures_below (cs : list call) :
  forall cb,
    state cb = "closed" -> allFail cs ->
    failures cb + Z.of_nat (length cs) < maxFailures cb ->
    state (run cb cs) = "closed"
    /\ failures (run cb cs) = failures cb + Z.of_nat (length cs).
Proof.
  induction cs as [|c cs IH]; intros cb Hc Hall Hlt.
  - cbn. split; [exact Hc | lia].
  - inversion Hall as [|? ? Hfail Hrest]; subst.
    change (run cb (c :: cs)) with (run (after (Execute cb c)) cs).
    cbn [length] in Hlt.
    assert (Hstep : state (after (Execute cb c)) = "closed"
                    /\ failures (after (Execute cb c)) = failures cb + 1
                    /\ maxFailures (after (Execute cb c)) = maxFailures cb).
    { unfold Execute. rewrite (letThrough_closed _ _ Hc).
      destruct (fnResult c); [|congruence]. cbn.
      destruct (Z.leb_spec (maxFailures cb) (failures cb + 1)); [lia|]. auto. }
    destruct Hstep as (Hs & Hf & Hm).
    destruct (IH (after (Execute cb c)) Hs Hrest) as [Hs' Hf']; [lia|].
    split; [exact Hs' | cbn [length]; lia].
Qed.

(** The failure that brings the count to [maxFailures] opens the breaker. *)
Lemma run_failures_open (cs : list call) (cb : CircuitBreaker) :
  state cb = "closed" -> failures cb = 0 -> allFail cs ->
  1 <= maxFailures cb ->
  Z.of_nat (length cs) = maxFailures cb ->
  state (run cb cs) = "open".
Proof.
  intros Hc Hz Hall Hm Hlen.
  destruct (exists_last (l := cs)) as (front & c & ->).
  { intros ->. cbn in Hlen. lia. }
  rewrite length_app in Hlen. cbn in Hlen.
  apply Forall_app in Hall. destruct Hall as [Hfront Hlast].
  inversion Hlast as [|? ? Hfail _]; subst.
  destruct (run_failures_below front cb Hc Hfront) as [Hs Hf]; [lia|].
  destruct (run_params front cb) as [Hmax _].
  rewrite run_snoc. unfold Execute. rewrite (letThrough_closed _ _ Hs).
  destruct (fnResult c); [|congruence]. cbn.
  destruct (Z.leb_spec (maxFailures (run cb front)) (failures (run cb front) + 1));
    [reflexivity | lia].
Qed.

(** C3: the breaker starts closed and between calls is closed or open
    (half-open only while a trial call runs).  From a closed breaker with no
    failure counted, fewer than [maxFailures] consecutive failures leave it
    closed and the [maxFailures]-th opens it.  While open and no more than
    [resetTimeout] after the last failure, [Execute] returns an error and
    does not invoke the function.  Once more than [resetTimeout] has passed
    it becomes half-open and invokes the function once: a success closes it
    with the counter at zero, a failure reopens it, so that the next call
    within [resetTimeout] is rejected again.  Every success of a call that
    was let through (closed or half-open) sets the counter to zero. *)
Theorem C3_circuit_breaker (m t : Z) (history : list call) (c : call) :
  1 <= m ->
  let fresh := NewCircuitBreaker m t in
  let cb := run fresh history in
  State fresh = "closed"
  /\ (State cb = "closed" \/ State cb = "open")
  /\ (forall fs, State cb = "closed" -> failures cb = 0 -> allFail fs ->
      (Z.of_nat (length fs) < m -> State (run cb fs) = "closed")
      /\ (Z.of_nat (length fs) = m -> State (run cb fs) = "open"))
  /\ (State cb = "open" -> now c - lastFailureTime cb <= t ->
      Execute cb c = {| after := cb; returned := Some errOpen; invoked := false |})
  /\ (State cb = "open" -> t < now c - lastFailureTime cb ->
      letThrough cb (now c) = Some (setState cb "half-open")
      /\ invoked (Execute cb c) = true
      /\ returned (Execute cb c) = fnResult c
      /\ (fnResult c = None ->
          State (after (Execute cb c)) = "closed"
          /\ failures (after (Execute cb c)) = 0)
      /\ (fnResult c <> None ->
          State (after (Execute cb c)) = "open"
          /\ forall c2, now c2 - nowAfter c <= t ->
               Execute (after (Execute cb c)) c2
               = {| after := after (Execute cb c);
                    returned := Some errOpen; invoked := false |}))
  /\ (forall cb1, letThrough cb (now c) = Some cb1 ->
      (State cb1 = "closed" \/ State cb1 = "half-open")
      /\ (fnResult c = None ->
          failures (after (Execute cb c)) = 0
          /\ State (after (Execute cb c)) = "closed")).
Proof.
  intros Hm fresh cb. unfold State.
  assert (Hset : settled cb).
  { apply run_settled. left. reflexivity. }
  destruct (run_params history fresh) as [Hmax Htime].
  fold cb in Hmax, Htime. cbn in Hmax, Htime.
  split; [reflexivity|].
  split; [destruct Hset as [H | [H _]]; auto|].
  split.
  { intros fs Hc Hz Hall. split; intros Hlen.
    - apply (run_failures_below fs cb Hc Hall). lia.
    - apply (run_failures_open fs cb Hc Hz Hall); lia. }
  split.
  { intros Ho Hin. unfold Execute, letThrough. rewrite Ho, Htime. cbn.
    destruct (Z.ltb_spec t (now c - lastFailureTime cb)); [lia | reflexivity]. }
  split.
  { intros Ho Hout.
    assert (Hcount : m <= failures cb).
    { destruct Hset as [H | [_ H]]; [congruence | lia]. }
    assert (Hpass : letThrough cb (now c) = Some (setState cb "half-open")).
    { unfold letThrough. rewrite Ho, Htime. cbn.
      destruct (Z.ltb_spec t (now c - lastFailureTime cb)); [reflexivity | lia]. }
    split; [exact Hpass|]. unfold Execute. rewrite Hpass. cbn [after returned invoked].
    split; [reflexivity|]. split; [reflexivity|]. split.
    - intros ->. cbn. auto.
    - intros Hfail. destruct (fnResult c) as [e|]; [|congruence]. cbn.
      rewrite Hmax.
      destruct (Z.leb_spec m (failures cb + 1)); [|lia].
      split; [reflexivity|]. intros c2 Hc2. unfold letThrough. cbn. rewrite Htime.
      destruct (Z.ltb_spec t (now c2 - nowAfter c)); [lia | reflexivity]. }
  intros cb1 Hpass. split.
  - unfold letThrough in Hpass.
    destruct Hset as [H | [H _]]; rewrite H in Hpass; cbn in Hpass.
    + injection Hpass as <-. auto.
    + destruct (resetTimeout cb <? now c - lastFailureTime cb);
        [injection Hpass as <- | discriminate]. right. reflexivity.
  - intros Hok. unfold Execute. rewrite Hpass, Hok. cbn. auto.
Qed.

Lemma C3_circuit_breaker_witness :
  State (run (NewCircuitBreaker 2 10) [failAt 0]) = "closed"
  /\ State (run (NewCircuitBreaker 2 10) [failAt 0; failAt 1]) = "open"
  /\ invoked (Execute (run (NewCircuitBreaker 2 10) [failAt 0; failAt 1])
                      (succeedAt 11)) = false
  /\ State (after (Execute (run (NewCircuitBreaker 2 10) [failAt 0; failAt 1])
                           (succeedAt 12))) = "closed".
Proof.
  assert (H1 : 1 <= 2) by lia.
  destruct (C3_circuit_breaker 2 10 [] (succeedAt 0) H1) as (_ & _ & Hfail & _).
  destruct (C3_circuit_breaker 2 10 [failAt 0; failAt 1] (succeedAt 11) H1)
    as (_ & _ & _ & Hrej & _).
  destruct (C3_circuit_breaker 2 10 [failAt 0; failAt 1] (succeedAt 12) H1)
    as (_ & _ & _ & _ & Htrial & _).
  split.
  { apply (Hfail [failAt 0]); [reflexivity | reflexivity | | cbn; lia].
    repeat constructor; discriminate. }
  split.
  { apply (Hfail [failAt 0; failAt 1]); [reflexivity | reflexivity | | reflexivity].
    repeat constructor; discriminate. }
  split.
  { rewrite Hrej; [reflexivity | reflexivity | vm_compute; discriminate]. }
  apply Htrial; [reflexivity | vm_compute; reflexivity | reflexivity].
Defined.

End BreakerProps.

(** ** Page title extraction *)

Module TitleProps.
Import GoStrings Title.

Lemma foldEqb_eq (a b : ascii) : foldEqb a b = true <-> lower a = lower b.
Proof. unfold foldEqb. apply Ascii.eqb_eq. Qed.

(** Only "<" folds to "<". *)
Lemma lower_lt (c : ascii) : lower c = "<"%char -> c = "<"%char.
Proof.
  destruct c as [[] [] [] [] [] [] [] []]; vm_compute; intros H;
    first [reflexivity | discriminate H].
Qed.

Lemma literal_spec (pat : list ascii) :
  forall s rest,
    literal pat s = Some rest <-> exists p, s = p ++ rest /\ foldEq p pat.
Proof.
  induction pat as [|a pat IH]; intros s rest; cbn.
  - split.
    + intros [= ->]. exists []. split; reflexivity.
    + intros ([|x p] & -> & H); [reflexivity | discriminate H].
  - destruct s as [|b s].
    + split; [discriminate|]. intros ([|x p] & H & Hf); [discriminate Hf | discriminate H].
    + destruct (foldEqb a b) eqn:E.
      * apply foldEqb_eq in E. rewrite IH. split.
        -- intros (p & -> & Hp). exists (b :: p). split; [reflexivity|].
           unfold foldEq in *. cbn. now rewrite Hp, E.
        -- intros ([|x p] & H & Hf); [discriminate Hf|].
           injection H as -> ->. injection Hf as _ Hf. exists p. auto.
      * split; [discriminate|].
        intros ([|x p] & H & Hf); [discriminate Hf|].
        injection H as -> _. injection Hf as Hx _.
        symmetry in Hx. apply foldEqb_eq in Hx. congruence.
Qed.

Lemma afterAttrs_spec (s : list ascii) :
  forall rest,
    afterAttrs s = Some rest
    <-> exists attrs, s = attrs ++ ">"%char :: rest /\ (">"%char ∉ attrs).
Proof.
  induction s as [|c s IH]; intros rest; cbn.
  - split; [discriminate|]. intros ([|x a] & H & _); discriminate H.
  - destruct (Ascii.eqb_spec c ">"%char) as [->|Hne].
    + split.
      * intros [= ->]. exists []. split; [reflexivity | apply not_elem_of_nil].
      * intros ([|x a] & H & Hn).
        -- now injection H as ->.
        -- injection H as <- _. exfalso. apply Hn. left.
    + rewrite IH. split.
      * intros (a & -> & Hn). exists (c :: a). split; [reflexivity|].
        apply not_elem_of_cons. auto.
      * intros ([|x a] & H & Hn).
        -- injection H as -> _. congruence.
        -- injection H as <- ->. exists a. split; [reflexivity|].
           apply not_elem_of_cons in Hn. tauto.
Qed.

Lemma spanText_split (s : list ascii) :
  forall text rest,
    spanText s = (text, rest) ->
    s = text ++ rest /\ ("<"%char ∉ text).
Proof.
  induction s as [|c s IH]; intros text rest; cbn.
  - intros [= <- <-]. split; [reflexivity | apply not_elem_of_nil].
  - destruct (Ascii.eqb_spec c "<"%char) as [->|Hne].
    + intros [= <- <-]. split; [reflexivity | apply not_elem_of_nil].
    + destruct (spanText s) as [t r] eqn:E. intros [= <- <-].
      destruct (IH t r eq_refl) as [-> Hn]. split; [reflexivity|].
      apply not_elem_of_cons. auto.
Qed.

Lemma spanText_greedy (text rest : list ascii) :
  ("<"%char ∉ text) ->
  spanText (text ++ "<"%char :: rest) = (text, "<"%char :: rest).
Proof.
  induction text as [|c text IH]; intros Hn; cbn.
  - reflexivity.
  - apply not_elem_of_cons in Hn. destruct Hn as [Hc Hn].
    destruct (Ascii.eqb_spec c "<"%char) as [->|_]; [congruence|].
    now rewrite IH.
Qed.

(** The scanner at one position agrees with the meaning of the pattern. *)
Lemma matchHere_spec (s text : list ascii) :
  matchHere s = Some text <-> matchesAt s text.
Proof.
  unfold matchHere, matchesAt. split.
  - destruct (literal (str "<title") s) as [s1|] eqn:E1; [|discriminate].
    destruct (afterAttrs s1) as [s2|] eqn:E2; [|discriminate].
    destruct (spanText s2) as [t s3] eqn:E3.
    destruct t as [|c t]; [discriminate|].
    destruct (literal (str "</title>") s3) as [s4|] eqn:E4; [|discriminate].
    intros [= <-].
    apply literal_spec in E1. destruct E1 as (tag & -> & Htag).
    apply afterAttrs_spec in E2. destruct E2 as (attrs & -> & Hattrs).
    apply spanText_split in E3. destruct E3 as [-> Htext].
    apply literal_spec in E4. destruct E4 as (close & -> & Hclose).
    exists tag, attrs, close, s4. repeat split; auto.
  - intros (tag & attrs & close & rest & -> & Htag & Hattrs & Hne & Htext & Hclose).
    assert (E1 : literal (str "<title") (tag ++ attrs ++ [">"%char] ++ text ++ close ++ rest)
                 = Some (attrs ++ [">"%char] ++ text ++ close ++ rest)).
    { apply literal_spec. eauto. }
    rewrite E1.
    assert (E2 : afterAttrs (attrs ++ [">"%char] ++ text ++ close ++ rest)
                 = Some (text ++ close ++ rest)).
    { apply afterAttrs_spec. eauto. }
    rewrite E2.
    destruct close as [|c0 close]; [discriminate Hclose|].
    assert (c0 = "<"%char) as ->.
    { injection Hclose as Hc _. now apply lower_lt. }
    cbn [app]. rewrite (spanText_greedy text (close ++ rest) Htext).
    destruct text as [|c t]; [congruence|].
    assert (E4 : literal (str "</title>") (("<"%char :: close) ++ rest) = Some rest).
    { apply literal_spec. eauto. }
    cbn [app] in E4. now rewrite E4.
Qed.

Lemma FindStringSubmatch_unfold (body : list ascii) :
  FindStringSubmatch body
  = match matchHere body with
    | Some text => Some text
    | None => match body with
              | [] => None
              | _ :: body' => FindStringSubmatch body'
              end
    end.
Proof. destruct body; reflexivity. Qed.

(** [FindStringSubmatch] returns the capture group of the leftmost match. *)
Lemma FindStringSubmatch_first (body : list ascii) :
  forall text, FindStringSubmatch body = Some text <-> firstMatch body text.
Proof.
  induction body as [|c body IH]; intros text; rewrite FindStringSubmatch_unfold.
  - destruct (matchHere []) as [t|] eqn:E.
    + discriminate E.
    + split; [discriminate|].
      intros (b & a & H & Hm & _). symmetry in H.
      apply app_eq_nil in H. destruct H as [_ ->].
      apply matchHere_spec in Hm. congruence.
  - destruct (matchHere (c :: body)) as [t|] eqn:E.
    + split.
      * intros [= ->]. exists [], (c :: body). split; [reflexivity|].
        split; [now apply matchHere_spec|]. intros b a t' _ Hlt. cbn in Hlt. lia.
      * intros (b & a & H & Hm & Hleft). destruct b as [|x b].
        -- cbn in H. subst a. apply matchHere_spec in Hm. congruence.
        -- exfalso. apply (Hleft [] (c :: body) t); [reflexivity | cbn; lia |].
           now apply matchHere_spec.
    + rewrite IH. split.
      * intros (b & a & -> & Hm & Hleft). exists (c :: b), a.
        split; [reflexivity|]. split; [exact Hm|].
        intros b' a' t' H Hlt. destruct b' as [|x b'].
        -- cbn in H. subst a'. intros Hm'. apply matchHere_spec in Hm'. congruence.
        -- injection H as _ H. apply (Hleft b' a' t' H). cbn in Hlt. lia.
      * intros (b & a & H & Hm & Hleft). destruct b as [|x b].
        -- cbn in H. subst a. apply matchHere_spec in Hm. congruence.
        -- injection H as <- H. exists b, a. split; [exact H|]. split; [exact Hm|].
           intros b' a' t' H' Hlt. apply (Hleft (c :: b') a' t').
           ++ cbn. now rewrite H'.
           ++ cbn. lia.
Qed.

Lemma truncate_short (t : list ascii) : (length t <= 100)%nat -> truncate t = t.
Proof.
  intros H. unfold truncate. destruct (Nat.ltb_spec 100 (length t)); [lia | reflexivity].
Qed.

Lemma truncate_long (t : list ascii) :
  (100 < length t)%nat ->
  truncate t = take 100 t ++ str "..." /\ length (truncate t) = 103%nat.
Proof.
  intros H. unfold truncate. destruct (Nat.ltb_spec 100 (length t)); [|lia].
  split; [reflexivity|]. rewrite length_app, length_take.
  change (length (str "...")) with 3%nat. lia.
Qed.

Lemma truncate_length (t : list ascii) : (length (truncate t) <= 103)%nat.
Proof.
  destruct (Nat.le_gt_cases (length t) 100) as [H|H].
  - rewrite truncate_short by exact H. lia.
  - destruct (truncate_long t H) as [_ ->]. lia.
Qed.

(** C5, as stated, fails on the code: the first title of [longPage] is 101
    letters long once trimmed, and the extracted title is not its first 100
    letters but those followed by "...", 103 bytes in all. *)
Lemma C5_counterexample :
  let text := str " " ++ repeat "a"%char 101 ++ str " " in
  firstMatch longPage text
  /\ TrimSpace text = repeat "a"%char 101
  /\ extractTitle longPage = repeat "a"%char 100 ++ str "..."
  /\ extractTitle longPage <> take 100 (TrimSpace text)
  /\ length (extractTitle longPage) = 103%nat.
Proof.
  cbv zeta. split; [|split; [|split; [|split]]].
  - apply FindStringSubmatch_first. vm_compute. reflexivity.
  - vm_compute. reflexivity.
  - vm_compute. reflexivity.
  - intros H. apply (f_equal length) in H. vm_compute in H. discriminate H.
  - vm_compute. reflexivity.
Qed.

(** C5 (amended): for every body, the extracted title is computed from the
    capture group of the leftmost match of
    [(?i)<title[^>]*>([^<]+)</title>], trimmed of white space: it is that
    text when it has at most 100 bytes, and otherwise its first 100 bytes
    followed by "..." (103 bytes); without a match it is empty. *)
Theorem C5_extractTitle (body : list ascii) :
  (forall text, firstMatch body text ->
     ((length (TrimSpace text) <= 100)%nat ->
      extractTitle body = TrimSpace text)
     /\ ((100 < length (TrimSpace text))%nat ->
         extractTitle body = take 100 (TrimSpace text) ++ str "..."
         /\ length (extractTitle body) = 103%nat))
  /\ ((forall text, ~ firstMatch body text) -> extractTitle body = [])
  /\ (length (extractTitle body) <= 103)%nat.
Proof.
  split; [|split].
  - intros text Hfirst. apply FindStringSubmatch_first in Hfirst.
    unfold extractTitle. rewrite Hfirst. split; intros Hlen.
    + now apply truncate_short.
    + now apply truncate_long.
  - intros Hnone. unfold extractTitle.
    destruct (FindStringSubmatch body) as [text|] eqn:E; [|reflexivity].
    apply FindStringSubmatch_first in E. now apply Hnone in E.
  - unfold extractTitle. destruct (FindStringSubmatch body) as [text|].
    + apply truncate_length.
    + cbn. lia.
Qed.

Lemma C5_extractTitle_witness :
  extractTitle helloPage = str "Hello World".
Proof.
  destruct (C5_extractTitle helloPage) as [H _].
  destruct (H (str "  Hello World ")) as [Hshort _].
  - apply FindStringSubmatch_first. vm_compute. reflexivity.
  - rewrite Hshort; [vm_compute; reflexivity | vm_compute; lia].
Defined.

End TitleProps.

(** ** [ParallelMap] *)

Module PMapProps.
Import GoErr PMap.

Section ParallelMap.

Context {T R : Type}.
Variables (zero : R) (fn : T -> R * option error) (items : list T) (workers : Z).

#[local] Abbreviation state := (@state R).
#[local] Abbreviation exec := (exec fn items workers).
#[local] Abbreviation run := (run fn items workers).
#[local] Abbreviation spawn := (spawn zero items).
#[local] Abbreviation slots := (slots items workers).
#[local] Abbreviation firstError := (firstError fn items).
#[local] Abbreviation invariant := (invariant fn items workers).

Lemma sum_insert (f : point -> nat) (gs : list point) :
  forall i p q,
    gs !! i = Some p ->
    (sum_list (f <$> <[i := q]> gs) + f p = sum_list (f <$> gs) + f q)%nat.
Proof.
  induction gs as [|g gs IH]; intros [|i] p q H; simpl in *; try discriminate.
  - injection H as ->. lia.
  - specialize (IH i p q H). unfold fmap in *. lia.
Qed.

Lemma running_sum (gs : list point) : running gs = sum_list (isRunning <$> gs).
Proof.
  induction gs as [|g gs IH]; [reflexivity|].
  destruct g; cbn; rewrite IH; reflexivity.
Qed.

Lemma running_insert (gs : list point) (i : nat) (p q : point) :
  gs !! i = Some p ->
  (running (<[i := q]> gs) + isRunning p = running gs + isRunning q)%nat.
Proof. intros H. rewrite !running_sum. now apply sum_insert. Qed.

(** A slot in use is held by some goroutine. *)
Lemma running_pos (gs : list point) :
  (1 <= running gs)%nat -> exists j, gs !! j = Some Running.
Proof.
  induction gs as [|g gs IH]; cbn; [lia|].
  intros H. destruct g; try (destruct (IH H) as [j Hj]; exists (S j); exact Hj).
  exists 0%nat. reflexivity.
Qed.

Lemma firstError_snoc (order : list nat) (i : nat) :
  firstError (order ++ [i])
  = match firstError order with
    | Some e => Some e
    | None => match items !! i with
              | Some it => (fn it).2
              | None => None
              end
    end.
Proof.
  induction order as [|j order IH]; cbn.
  - destruct (items !! i) as [it|]; [|reflexivity]. now destruct (fn it).2.
  - destruct (items !! j) as [it|]; [|exact IH]. now destruct (fn it).2.
Qed.

Lemma spawn_invariant (cancelled : bool) : invariant (spawn cancelled).
Proof.
  constructor; cbn.
  - apply length_replicate.
  - apply length_replicate.
  - induction (length items) as [|n IH]; [reflexivity | exact IH].
  - lia.
  - intros i Hi. inversion Hi.
  - constructor.
  - intros i Hi. apply lookup_replicate in Hi. destruct Hi as [Hi _]. discriminate Hi.
  - intros i it Hi. inversion Hi.
  - reflexivity.
Qed.

Lemma exec_invariant (st st' : state) (a : action) :
  invariant st -> exec st a = Some st' -> invariant st'.
Proof.
  intros [Hg Hr Hs Hb Ha Ho Hx Hp He] Hexec.
  destruct a as [|i|i|i]; unfold PMap.exec in Hexec.
  - (* Cancel *)
    destruct (ctxDone st); [discriminate|]. injection Hexec as <-.
    constructor; cbn; auto.
  - (* Check *)
    destruct (goroutines st !! i) as [[| | |]|] eqn:Hi; try discriminate.
    injection Hexec as <-.
    assert (Hne : forall j, goroutines st !! j = Some Exited -> i <> j).
    { intros j Hj ->. congruence. }
    constructor; cbn; unfold move; auto.
    + now rewrite length_insert.
    + pose proof (running_insert _ i _ (if ctxDone st then Exited else Checked) Hi) as H.
      destruct (ctxDone st); cbn in H; lia.
    + intros j Hj. rewrite list_lookup_insert_ne; auto.
    + intros j Hj. destruct (decide (i = j)) as [<-|Hij].
      * rewrite list_lookup_insert_eq in Hj by (apply lookup_lt_Some in Hi; lia).
        destruct (ctxDone st); [now left | discriminate].
      * rewrite list_lookup_insert_ne in Hj by exact Hij. auto.
  - (* Acquire *)
    destruct (goroutines st !! i) as [[| | |]|] eqn:Hi; try discriminate.
    destruct (sem st <? slots)%nat eqn:Hlt; [|discriminate].
    apply Nat.ltb_lt in Hlt.
    injection Hexec as <-.
    assert (Hne : forall j, goroutines st !! j = Some Exited -> i <> j).
    { intros j Hj ->. congruence. }
    constructor; cbn; unfold move; auto.
    + now rewrite length_insert.
    + pose proof (running_insert _ i _ Running Hi) as H. cbn in H. lia.
    + intros j Hj. rewrite list_lookup_insert_ne; auto.
    + intros j Hj. destruct (decide (i = j)) as [<-|Hij].
      * rewrite list_lookup_insert_eq in Hj by (apply lookup_lt_Some in Hi; lia).
        discriminate.
      * rewrite list_lookup_insert_ne in Hj by exact Hij. auto.
  - (* Finish *)
    destruct (goroutines st !! i) as [[| | |]|] eqn:Hi; try discriminate.
    destruct (items !! i) as [it|] eqn:Hit; [|discriminate].
    destruct (fn it) as [result err] eqn:Hfn. injection Hexec as <-.
    assert (Hlt : (i < length (goroutines st))%nat) by now apply lookup_lt_Some in Hi.
    assert (Hfresh : i ∉ applied st).
    { intros Hin. apply Ha in Hin. congruence. }
    constructor; cbn; unfold move.
    + now rewrite length_insert.
    + destruct err; [exact Hr | now rewrite length_insert].
    + pose proof (running_insert _ i _ Exited Hi) as H. cbn in H. lia.
    + lia.
    + intros j Hj. apply elem_of_app in Hj. destruct Hj as [Hj|Hj].
      * rewrite list_lookup_insert_ne; [auto|]. intros ->. contradiction.
      * apply list_elem_of_singleton in Hj. subst j.
        now apply list_lookup_insert_eq.
    + apply NoDup_app. split; [exact Ho|]. split; [|apply NoDup_singleton].
      intros j Hj Hj'. apply list_elem_of_singleton in Hj'. now subst j.
    + intros j Hj. destruct (decide (i = j)) as [<-|Hij].
      * right. apply elem_of_app. right. now apply list_elem_of_singleton.
      * rewrite list_lookup_insert_ne in Hj by exact Hij.
        destruct (Hx j Hj); [now left | right]. apply elem_of_app. now left.
    + intros j it' Hj Hit' Hok. apply elem_of_app in Hj. destruct Hj as [Hj|Hj].
      * assert (i <> j) by (intros ->; contradiction).
        destruct err; [|rewrite list_lookup_insert_ne by assumption]; eauto.
      * apply list_elem_of_singleton in Hj. subst j.
        assert (it' = it) as -> by congruence. rewrite Hfn in Hok |- *.
        cbn in Hok |- *. subst err. apply list_lookup_insert_eq. lia.
    + rewrite firstError_snoc, <- He, Hit, Hfn. cbn.
      destruct err, (errs st); reflexivity.
Qed.

Lemma run_invariant (schedule : list action) :
  forall st st', invariant st -> run st schedule = Some st' -> invariant st'.
Proof.
  induction schedule as [|a rest IH]; intros st st' Hinv; cbn.
  - now intros [= <-].
  - destruct (exec st a) as [st1|] eqn:E; [|discriminate].
    apply IH. exact (exec_invariant st st1 a Hinv E).
Qed.

(** Every action uses up one of the steps that remain. *)
Lemma exec_remaining (st st' : state) (a : action) :
  exec st a = Some st' -> (remaining st' < remaining st)%nat.
Proof.
  intros Hexec. unfold remaining.
  destruct a as [|i|i|i]; unfold PMap.exec in Hexec.
  - destruct (ctxDone st) eqn:Hc; [discriminate|]. injection Hexec as <-.
    cbn. lia.
  - destruct (goroutines st !! i) as [[| | |]|] eqn:Hi; try discriminate.
    injection Hexec as <-. cbn [ctxDone goroutines]. unfold move.
    pose proof (sum_insert weight _ i _ (if ctxDone st then Exited else Checked) Hi) as H.
    destruct (ctxDone st); cbn in H |- *; lia.
  - destruct (goroutines st !! i) as [[| | |]|] eqn:Hi; try discriminate.
    destruct (sem st <? slots)%nat; [|discriminate].
    injection Hexec as <-. cbn [ctxDone goroutines]. unfold move.
    pose proof (sum_insert weight _ i _ Running Hi) as H. cbn in H. lia.
  - destruct (goroutines st !! i) as [[| | |]|] eqn:Hi; try discriminate.
    destruct (items !! i) as [it|]; [|discriminate].
    destruct (fn it) as [result err]. injection Hexec as <-.
    cbn [ctxDone goroutines]. unfold move.
    pose proof (sum_insert weight _ i _ Exited Hi) as H. cbn in H. lia.
Qed.

(** No deadlock: while a goroutine has not returned, some action is
    enabled. *)
Lemma exec_progress (st : state) (i : nat) (p : point) :
  invariant st -> goroutines st !! i = Some p -> p <> Exited ->
  exists a st', exec st a = Some st'.
Proof.
  intros Hinv Hi Hp.
  assert (Hfinish : forall j, goroutines st !! j = Some Running ->
                              exists a st', exec st a = Some st').
  { intros j Hj.
    assert (Hlt : (j < length items)%nat).
    { rewrite <- (inv_goroutines _ _ _ st Hinv). now apply lookup_lt_Some in Hj. }
    destruct (lookup_lt_is_Some_2 items j Hlt) as [it Hit].
    exists (Finish j). unfold PMap.exec. rewrite Hj, Hit.
    destruct (fn it) as [result err]. eauto. }
  destruct p; [| | |congruence].
  - exists (Check i). unfold PMap.exec. rewrite Hi. eauto.
  - destruct (Nat.ltb_spec (sem st) slots) as [Hlt|Hge].
    + exists (Acquire i). unfold PMap.exec. rewrite Hi.
      apply Nat.ltb_lt in Hlt. rewrite Hlt. eauto.
    + assert (Hn : (1 <= length items)%nat).
      { rewrite <- (inv_goroutines _ _ _ st Hinv). apply lookup_lt_Some in Hi. lia. }
      assert (Hs : (1 <= slots)%nat).
      { unfold PMap.slots. destruct (Z.leb_spec workers 0); lia. }
      destruct (running_pos (goroutines st)) as [j Hj].
      { rewrite <- (inv_sem _ _ _ st Hinv). lia. }
      now apply Hfinish in Hj.
  - now apply Hfinish in Hi.
Qed.

Lemma firstError_found (order : list nat) (i : nat) (it : T) (e : error) :
  i ∈ order -> items !! i = Some it -> (fn it).2 = Some e ->
  exists e', firstError order = Some e'.
Proof.
  intros Hin Hit He. induction order as [|j order IH]; [inversion Hin|]. cbn.
  destruct (decide (j = i)) as [->|Hne].
  - rewrite Hit, He. eauto.
  - destruct (items !! j) as [it'|]; [destruct (fn it').2; [eauto|]|];
      apply IH; apply elem_of_cons in Hin; destruct Hin; congruence.
Qed.

Lemma firstError_origin (order : list nat) (e : error) :
  firstError order = Some e ->
  exists i it, i ∈ order /\ items !! i = Some it /\ (fn it).2 = Some e.
Proof.
  induction order as [|j order IH]; cbn; [discriminate|].
  destruct (items !! j) as [it|] eqn:Hit.
  - destruct (fn it).2 as [e'|] eqn:He.
    + intros [= ->]. exists j, it. split; [left | auto].
    + intros H. destruct (IH H) as (i & it' & Hin & H1 & H2).
      exists i, it'. split; [now right | auto].
  - intros H. destruct (IH H) as (i & it' & Hin & H1 & H2).
    exists i, it'. split; [now right | auto].
Qed.

(** Once all goroutines have returned under a context that was never
    cancelled: [fn] has been applied to every item exactly once, every
    successful result sits at the index of its item, and the error channel
    holds the error of the first failed call in completion order. *)
Lemma finished_state (st : state) :
  invariant st -> finished st -> ctxDone st = false ->
  (forall i, (i < length items)%nat -> i ∈ applied st)
  /\ NoDup (applied st)
  /\ (forall i it, items !! i = Some it -> (fn it).2 = None ->
                   results st !! i = Some (fn it).1)
  /\ errs st = firstError (applied st).
Proof.
  intros Hinv Hfin Hctx.
  assert (Hall : forall i, (i < length items)%nat -> i ∈ applied st).
  { intros i Hi. rewrite <- (inv_goroutines _ _ _ st Hinv) in Hi.
    destruct (lookup_lt_is_Some_2 _ i Hi) as [p Hp].
    pose proof (Hfin i p Hp) as ->.
    destruct (inv_exited _ _ _ st Hinv i Hp); [congruence | assumption]. }
  split; [exact Hall|]. split; [exact (inv_once _ _ _ st Hinv)|].
  split; [|exact (inv_errs _ _ _ st Hinv)].
  intros i it Hit Hok. apply (inv_placed _ _ _ st Hinv i it); [|exact Hit | exact Hok].
  apply Hall. now apply lookup_lt_Some in Hit.
Qed.

(** What [ParallelMap] returns in that case. *)
Lemma finished_output (st : state) :
  invariant st -> finished st -> ctxDone st = false ->
  ((forall it, it ∈ items -> (fn it).2 = None) ->
   output st = (Some ((fun it => (fn it).1) <$> items), None))
  /\ ((exists it, it ∈ items /\ (fn it).2 <> None) ->
      exists e, output st = (None, Some e)
                /\ firstError (applied st) = Some e
                /\ exists it, it ∈ items /\ (fn it).2 = Some e).
Proof.
  intros Hinv Hfin Hctx.
  destruct (finished_state st Hinv Hfin Hctx) as (Hall & _ & Hplaced & Herrs).
  unfold output. rewrite Herrs. split.
  - intros Hok.
    destruct (firstError (applied st)) as [e|] eqn:E.
    { destruct (firstError_origin _ _ E) as (i & it & _ & Hit & He).
      rewrite (Hok it) in He; [discriminate|].
      apply list_elem_of_lookup. eauto. }
    do 2 f_equal. apply list_eq. intros i. rewrite list_lookup_fmap.
    destruct (items !! i) as [it|] eqn:Hit; cbn.
    + apply Hplaced; [exact Hit|]. apply Hok, list_elem_of_lookup. eauto.
    + apply lookup_ge_None. rewrite (inv_results _ _ _ st Hinv).
      now apply lookup_ge_None in Hit.
  - intros (it & Hin & Hbad).
    apply list_elem_of_lookup in Hin. destruct Hin as [i Hit].
    destruct (fn it).2 as [e0|] eqn:He0; [|congruence].
    destruct (firstError_found (applied st) i it e0) as [e He]; auto.
    { apply Hall. now apply lookup_lt_Some in Hit. }
    exists e. rewrite He. split; [reflexivity|]. split; [reflexivity|].
    destruct (firstError_origin _ _ He) as (j & it' & _ & Hit' & He').
    exists it'. split; [|exact He']. apply list_elem_of_lookup. eauto.
Qed.

(** From every state of a schedule, the goroutines can be run to the end:
    [wg.Wait()] returns. *)
Lemma completes (n : nat) :
  forall st, (remaining st <= n)%nat -> invariant st ->
             exists schedule st', run st schedule = Some st' /\ finished st'.
Proof.
  induction n as [|n IH]; intros st Hn Hinv;
    (destruct (decide (Forall (fun p => p = Exited) (goroutines st))) as [Hall|Hsome];
     [exists [], st; split; [reflexivity|]; intros i p Hp;
      rewrite Forall_lookup in Hall; eauto|]);
    apply not_Forall_Exists in Hsome; try (intros p; apply _);
    apply Exists_exists in Hsome; destruct Hsome as (p & Hin & Hp);
    apply list_elem_of_lookup in Hin; destruct Hin as [i Hi];
    destruct (exec_progress st i p Hinv Hi Hp) as (a & st1 & Hexec);
    pose proof (exec_remaining st st1 a Hexec) as Hless.
  - lia.
  - destruct (IH st1) as (schedule & st' & Hrun & Hfin);
      [lia | exact (exec_invariant st st1 a Hinv Hexec) |].
    exists (a :: schedule), st'. split; [|exact Hfin]. cbn. now rewrite Hexec.
Qed.

(** C4 (amended): in every state a schedule can reach, the goroutines
    inside the semaphore are at most [workers] ([len(items)] when
    [workers <= 0]), and
    while a goroutine has not returned some action is enabled and uses up
    one of finitely many remaining steps, so that [wg.Wait()] returns.
    When it has returned and the context was never cancelled: [fn] has been
    applied to every item, once; every successful result sits at the index
    of its item, whatever the completion order; if all calls succeeded the
    mapped list is returned; and if some call failed an error is returned,
    which is the error of the first failed call in completion order, all
    other calls having run to their end as well. *)
Theorem C4_ParallelMap (cancelled : bool) (schedule : list action) (st : state) :
  run (spawn cancelled) schedule = Some st ->
  slots = (if workers <=? 0 then length items else Z.to_nat workers)
  /\ (running (goroutines st) <= slots)%nat
  /\ (forall i p, goroutines st !! i = Some p -> p <> Exited ->
                  exists a st', exec st a = Some st'
                                /\ (remaining st' < remaining st)%nat)
  /\ (exists rest st', run st rest = Some st' /\ finished st')
  /\ (finished st -> ctxDone st = false ->
      (forall i, (i < length items)%nat -> i ∈ applied st)
      /\ NoDup (applied st)
      /\ (forall i it, items !! i = Some it -> (fn it).2 = None ->
                       results st !! i = Some (fn it).1)
      /\ ((forall it, it ∈ items -> (fn it).2 = None) ->
          output st = (Some ((fun it => (fn it).1) <$> items), None))
      /\ ((exists it, it ∈ items /\ (fn it).2 <> None) ->
          exists e, output st = (None, Some e)
                    /\ firstError (applied st) = Some e
                    /\ exists it, it ∈ items /\ (fn it).2 = Some e)).
Proof.
  intros Hrun.
  assert (Hinv : invariant st).
  { exact (run_invariant schedule _ st (spawn_invariant cancelled) Hrun). }
  split; [reflexivity|]. split.
  { rewrite <- (inv_sem _ _ _ st Hinv). exact (inv_bound _ _ _ st Hinv). }
  split.
  { intros i p Hi Hp. destruct (exec_progress st i p Hinv Hi Hp) as (a & st' & He).
    exists a, st'. split; [exact He | exact (exec_remaining st st' a He)]. }
  split.
  { exact (completes (remaining st) st (Nat.le_refl _) Hinv). }
  intros Hfin Hctx.
  destruct (finished_state st Hinv Hfin Hctx) as (H1 & H2 & H3 & _).
  destruct (finished_output st Hinv Hfin Hctx) as (H4 & H5).
  auto.
Qed.

End ParallelMap.

(** Three items on two workers: the third item is mapped first, the second
    has to wait for a slot, and the results come out in input order. *)
Example schedule_in_order :
  run halve [4; 6; 10] 2 (spawn 0 [4; 6; 10] false) sampleSchedule
  = Some sampleFinal
  /\ run halve [4; 6; 10] 2 (spawn 0 [4; 6; 10] false)
       [Check 0; Check 1; Check 2; Acquire 2; Acquire 0; Acquire 1]%nat
     = None.
Proof. split; vm_compute; reflexivity. Qed.

(** Which error is returned depends on the schedule. *)
Example error_depends_on_schedule :
  (output <$> run halve [3; 5] 0 (spawn 0 [3; 5] false)
     [Check 0; Check 1; Acquire 0; Acquire 1; Finish 0; Finish 1]%nat)
  = Some (None, Some (Plain "odd: 3"))
  /\ (output <$> run halve [3; 5] 0 (spawn 0 [3; 5] false)
        [Check 0; Check 1; Acquire 0; Acquire 1; Finish 1; Finish 0]%nat)
     = Some (None, Some (Plain "odd: 5")).
Proof. split; vm_compute; reflexivity. Qed.

(** C4, as stated, fails on the code: called with a context that is
    already cancelled, [ParallelMap] lets every goroutine return at its
    [select], applies [fn] to no item, and returns the slice of zero values
    with a nil error. *)
Lemma C4_counterexample :
  exists st,
    run halve [4; 6] 2 (spawn 0 [4; 6] true) [Check 0; Check 1]%nat = Some st
    /\ (forall i p, goroutines st !! i = Some p -> p = Exited)
    /\ applied st = []
    /\ output st = (Some [0; 0], None)
    /\ output st <> (Some ((fun it => (halve it).1) <$> [4; 6]), None).
Proof.
  eexists. split; [vm_compute; reflexivity|].
  split; [|split; [reflexivity | split; [reflexivity | discriminate]]].
  intros i p Hp. destruct i as [|[|i]]; vm_compute in Hp; congruence.
Qed.

Lemma C4_ParallelMap_witness :
  output sampleFinal = (Some [2; 3; 5], None)
  /\ (running (goroutines sampleFinal) <= 2)%nat.
Proof.
  destruct (C4_ParallelMap 0 halve [4; 6; 10] 2 false sampleSchedule sampleFinal)
    as (_ & Hbound & _ & _ & Hfinal).
  { vm_compute. reflexivity. }
  split; [|exact Hbound].
  destruct Hfinal as (_ & _ & _ & Hok & _).
  - intros i p Hp. destruct i as [|[|[|i]]]; vm_compute in Hp; congruence.
  - reflexivity.
  - apply Hok. intros it Hit.
    repeat (apply elem_of_cons in Hit; destruct Hit as [->|Hit]; [reflexivity|]).
    inversion Hit.
Defined.

End PMapProps.


(** ** DNS resolver *)

Module DnsProps.
Import GoErr GoNum Dns.

Lemma spaced_step (sub : string) (timeout : Z) (j n : nat) :
  (1 <= n)%nat ->
  spaced sub timeout j (S n)
  = Lookup sub timeout :: Sleep (100 * Millisecond * (Z.of_nat j + 1))
    :: spaced sub timeout (S j) n.
Proof. intros H. destruct n as [|n]; [lia | reflexivity]. Qed.

(** What one run of the loop does, from attempt [attempt] with [fuel]
    attempts left. *)
Lemma resolveLoop_spec (r : ResolverConfig) (net : network) (idx : nat) (sub : string)
    (fuel : nat) :
  forall attempt lastErr log,
    (attempt + fuel = Z.to_nat (Retries r + 1))%nat ->
    let res := resolveLoop r net idx sub fuel attempt lastErr log in
    exists n,
      res.2 = log ++ spaced sub (Timeout r) attempt n
      /\ (n <= fuel)%nat /\ (1 <= fuel -> 1 <= n)%nat
      /\ (Alive res.1 = true ->
          (1 <= n)%nat
          /\ resolved (net idx sub (attempt + n - 1)%nat) = true
          /\ IPs res.1 = (net idx sub (attempt + n - 1)%nat).1
          /\ forall j, (attempt <= j < attempt + n - 1)%nat ->
                       resolved (net idx sub j) = false)
      /\ (Alive res.1 = false ->
          n = fuel
          /\ Error_ res.1
             = errMsg match fuel with
                      | O => lastErr
                      | S f => (net idx sub (attempt + f)%nat).2
                      end
          /\ forall j, (attempt <= j < attempt + fuel)%nat ->
                       resolved (net idx sub j) = false).
Proof.
  induction fuel as [|fuel IH]; intros attempt lastErr log Hsum; cbn zeta.
  - exists 0%nat. cbn. rewrite app_nil_r.
    split; [reflexivity|]. split; [lia|]. split; [lia|].
    split; [discriminate|]. intros _. split; [reflexivity|].
    split; [reflexivity|]. intros j Hj. lia.
  - cbn [resolveLoop]. cbv zeta.
    destruct (resolved (net idx sub attempt)) eqn:Hres.
    + exists 1%nat. cbn [fst snd Alive IPs Error_ spaced].
      split; [reflexivity|]. split; [lia|]. split; [lia|]. split.
      * intros _. replace (attempt + 1 - 1)%nat with attempt by lia.
        split; [lia|]. split; [exact Hres|]. split; [reflexivity|].
        intros j Hj. lia.
      * discriminate.
    + destruct fuel as [|fuel].
      * (* the last attempt: no sleep follows *)
        assert (Hlast : (Z.of_nat attempt <? Retries r) = false).
        { apply Z.ltb_ge. lia. }
        rewrite Hlast. cbn [resolveLoop fst snd Alive IPs Error_].
        exists 1%nat. cbn [spaced].
        split; [reflexivity|]. split; [lia|]. split; [lia|].
        split; [discriminate|]. intros _. split; [reflexivity|].
        replace (attempt + 0)%nat with attempt by lia.
        split; [reflexivity|]. intros j Hj.
        assert (j = attempt) as -> by lia. exact Hres.
      * assert (Hmore : (Z.of_nat attempt <? Retries r) = true).
        { apply Z.ltb_lt. lia. }
        rewrite Hmore.
        destruct (IH (S attempt) (net idx sub attempt).2
                    ((log ++ [Lookup sub (Timeout r)])
                     ++ [Sleep ((Z.of_nat attempt + 1) * 100 * Millisecond)]))
          as (n & Hlog & Hle & Hpos & Hyes & Hno); [lia|].
        assert (Hn : (1 <= n)%nat) by (apply Hpos; lia).
        exists (S n). split.
        { rewrite Hlog, (spaced_step _ _ _ _ Hn), <- !app_assoc. cbn [app].
          do 4 f_equal. lia. }
        split; [lia|]. split; [lia|]. split.
        -- intros Halive. destruct (Hyes Halive) as (_ & H1 & H2 & H3).
           replace (attempt + S n - 1)%nat with (S attempt + n - 1)%nat by lia.
           split; [lia|]. split; [exact H1|]. split; [exact H2|].
           intros j Hj. destruct (Nat.eq_dec j attempt) as [->|Hne];
             [exact Hres | apply H3; lia].
        -- intros Hdead. destruct (Hno Hdead) as (-> & H2 & H3).
           split; [reflexivity|]. split.
           ++ rewrite H2. do 2 f_equal. f_equal. lia.
           ++ intros j Hj. destruct (Nat.eq_dec j attempt) as [->|Hne];
                [exact Hres | apply H3; lia].
Qed.


(** The sample resolver waits 100ms, then 200ms, and finds
    "late.example.com" at its third attempt. *)
Example resolve_late :
  resolveWithRetry sampleResolver sampleNet 0 "late.example.com"
  = ({| Subdomain := "late.example.com"; IPs := ["10.0.0.7"]; Alive := true;
        Error_ := "" |},
     [Lookup "late.example.com" 5000000000; Sleep 100000000;
      Lookup "late.example.com" 5000000000; Sleep 200000000;
      Lookup "late.example.com" 5000000000]).
Proof. vm_compute. reflexivity. Qed.

(** The result carries the name that was looked up. *)
Lemma resolveLoop_Subdomain (r : ResolverConfig) (net : network) (idx : nat)
    (sub : string) (fuel : nat) :
  forall attempt lastErr log,
    Subdomain (resolveLoop r net idx sub fuel attempt lastErr log).1 = sub.
Proof.
  induction fuel as [|fuel IH]; intros attempt lastErr log; [reflexivity|].
  cbn [resolveLoop]. cbv zeta.
  destruct (resolved (net idx sub attempt)); [reflexivity | apply IH].
Qed.




End DnsProps.

(** ** HTTP prober *)

Module ProbeProps.
Import GoNum GoStrings Probe.













(** On the sample web the bare target "example.com" is first requested
    over HTTPS, three times in vain, and then found over HTTP. *)
Example probe_example :
  probeTarget sampleConfig sampleWeb (str " example.com ")
  = (Some {| URL := str "http://example.com"; StatusCode := 200;
             ContentLength := 42; ContentType := str "text/html";
             Title := str "Example Domain"; Server := str "nginx";
             Redirected := false; FinalURL := [] |},
     [Request (str "https://example.com"); Sleep 500000000;
      Request (str "https://example.com"); Sleep 1000000000;
      Request (str "https://example.com");
      Request (str "http://example.com")]).
Proof. vm_compute. reflexivity. Qed.


End ProbeProps.

(** ** Crawler de-duplication *)

Module CrawlProps.
Import GoStrings Crawl.

Lemma has_insert (seen : gmap (list ascii) bool) (k : list ascii) :
  has (<[k := true]> seen) k = true.
Proof. unfold has. now rewrite lookup_insert_eq. Qed.

Lemma has_insert_ne (seen : gmap (list ascii) bool) (k k' : list ascii) :
  k <> k' -> has (<[k := true]> seen) k' = has seen k'.
Proof. intros H. unfold has. now rewrite lookup_insert_ne. Qed.

Lemma has_insert_mono (seen : gmap (list ascii) bool) (k k' : list ascii) :
  has seen k' = true -> has (<[k := true]> seen) k' = true.
Proof.
  intros H. destruct (decide (k = k')) as [->|Hne];
    [apply has_insert | now rewrite has_insert_ne].
Qed.

(** The key determines the answer: true exactly for a key not seen yet,
    which is then recorded. *)
Lemma markSeen_parsed (Parse : parser) (seen : gmap (list ascii) bool)
    (urlStr : list ascii) (parsed : URL) :
  Parse urlStr = Some parsed ->
  isNew (markSeen Parse seen urlStr) = negb (has seen (normalize parsed))
  /\ has (seenAfter (markSeen Parse seen urlStr)) (normalize parsed) = true
  /\ forall k, k <> normalize parsed ->
               has (seenAfter (markSeen Parse seen urlStr)) k = has seen k.
Proof.
  intros HP. unfold markSeen. rewrite HP. cbv zeta.
  destruct (has seen (normalize parsed)) eqn:E; cbn.
  - auto.
  - split; [reflexivity|]. split; [apply has_insert|].
    intros k Hk. now apply has_insert_ne.
Qed.

(** URLs with the same scheme and host have the same key exactly when
    their paths are the same. *)
Lemma normalize_path (p1 p2 : URL) :
  Scheme p1 = Scheme p2 -> Host p1 = Host p2 ->
  (normalize p1 = normalize p2 <-> Path p1 = Path p2).
Proof.
  intros Hs Hh. unfold normalize. rewrite Hs, Hh. split.
  - intros H. now repeat apply app_inv_head in H.
  - now intros ->.
Qed.

(** Two strings that agree up to and after a separator neither of their
    fronts contains have the same fronts. *)
Lemma app_sep_inj (c : ascii) (a b x y : list ascii) :
  c ∉ a -> c ∉ b -> a ++ c :: x = b ++ c :: y -> a = b /\ x = y.
Proof.
  revert b. induction a as [|h a IH]; intros [|k b] Ha Hb Heq; cbn in Heq.
  - injection Heq as ->. auto.
  - injection Heq as <- _. exfalso. apply Hb. left.
  - injection Heq as -> _. exfalso. apply Ha. left.
  - injection Heq as -> Heq.
    destruct (IH b) as [-> ->]; [| |exact Heq|auto].
    + intros H. apply Ha. now right.
    + intros H. apply Hb. now right.
Qed.

Lemma forallb_absent (c : ascii) (l : list ascii) :
  forallb (fun x => negb (Ascii.eqb x c)) l = true -> c ∉ l.
Proof.
  intros H Hin. rewrite forallb_forall in H.
  apply list_elem_of_In, H in Hin. now rewrite Ascii.eqb_refl in Hin.
Qed.

(** On well-formed parses the key tells scheme, host and path: two keys
    are the same only when all three are. *)
Lemma normalize_inj (p1 p2 : URL) :
  wellFormed p1 = true -> wellFormed p2 = true ->
  normalize p1 = normalize p2 ->
  Scheme p1 = Scheme p2 /\ Host p1 = Host p2 /\ Path p1 = Path p2.
Proof.
  unfold wellFormed, normalize. intros W1 W2 Heq.
  apply andb_prop in W1 as [W1 P1]. apply andb_prop in W1 as [S1 H1].
  apply andb_prop in W2 as [W2 P2]. apply andb_prop in W2 as [S2 H2].
  apply forallb_absent in S1, S2, H1, H2.
  change (str "://") with [":"%char; "/"%char; "/"%char] in Heq. cbn [app] in Heq.
  destruct (app_sep_inj _ _ _ _ _ S1 S2 Heq) as [Hs Hrest].
  injection Hrest as Hrest. split; [exact Hs|].
  destruct (Path p1) as [|c1 r1], (Path p2) as [|c2 r2].
  - rewrite !app_nil_r in Hrest. auto.
  - apply Ascii.eqb_eq in P2 as ->. rewrite app_nil_r in Hrest.
    exfalso. apply H1. rewrite Hrest. apply elem_of_app. right. left.
  - apply Ascii.eqb_eq in P1 as ->. rewrite app_nil_r in Hrest.
    exfalso. apply H2. rewrite <- Hrest. apply elem_of_app. right. left.
  - apply Ascii.eqb_eq in P1 as ->. apply Ascii.eqb_eq in P2 as ->.
    destruct (app_sep_inj _ _ _ _ _ H1 H2 Hrest) as [-> ->]. auto.
Qed.

Lemma markSeen_critical (Parse : parser) (seen : gmap (list ascii) bool)
    (urlStr : list ascii) :
  critical (trace (markSeen Parse seen urlStr)).
Proof.
  unfold markSeen, critical. destruct (Parse urlStr) as [parsed|].
  - cbv zeta. destruct (has seen (normalize parsed)); cbn.
    + exists [Read (normalize parsed)]. split; [reflexivity|].
      repeat constructor; discriminate.
    + exists [Read (normalize parsed); Write (normalize parsed)].
      split; [reflexivity|]. repeat constructor; discriminate.
  - exists []. split; [reflexivity | constructor].
Qed.

(** *** Concurrent calls

    Reading the goroutine list after one goroutine has moved. *)
Lemma upd_lookup (gs : list point) (i0 : nat) (p0 x : point) (j : nat) (q : point) :
  gs !! i0 = Some p0 ->
  (<[i0 := x]> gs !! j = Some q
   <-> (j = i0 /\ q = x) \/ (j <> i0 /\ gs !! j = Some q)).
Proof.
  intros H0. apply lookup_lt_Some in H0. rewrite list_lookup_insert_Some.
  split.
  - intros [(-> & -> & _) | (Hne & H)]; [left | right]; auto.
  - intros [(-> & ->) | (Hne & H)]; [left | right]; auto.
Qed.

Ltac upd H0 H :=
  apply (upd_lookup _ _ _ _ _ _ H0) in H;
  destruct H as [[-> H] | [? H]].

Lemma afterCheck_inside (Parse : parser) (s : gmap (list ascii) bool) (u : list ascii) :
  inside (afterCheck Parse s u).
Proof.
  unfold afterCheck. destruct (Parse u) as [parsed|]; [|exact I].
  destruct (has s (normalize parsed)); exact I.
Qed.

Lemma afterCheck_not_won (Parse : parser) (s : gmap (list ascii) bool)
    (u k : list ascii) :
  ~ won Parse (afterCheck Parse s u) k.
Proof.
  unfold afterCheck. destruct (Parse u) as [parsed|]; [|intros []].
  destruct (has s (normalize parsed)); intros [].
Qed.

Lemma afterCheck_inserting (Parse : parser) (s : gmap (list ascii) bool)
    (u u' k : list ascii) :
  afterCheck Parse s u = Inserting u' k ->
  key Parse u' = Some k /\ has s k = false.
Proof.
  unfold afterCheck, key. destruct (Parse u) as [parsed|] eqn:E; [|discriminate].
  destruct (has s (normalize parsed)) eqn:Hs; [discriminate|].
  intros [= <- <-]. rewrite E. auto.
Qed.

Lemma afterCheck_answered (Parse : parser) (s : gmap (list ascii) bool)
    (u k : list ascii) :
  answered (afterCheck Parse s u) ->
  key Parse (urlOf (afterCheck Parse s u)) = Some k -> has s k = true.
Proof.
  unfold afterCheck, key. destruct (Parse u) as [parsed|] eqn:E.
  - destruct (has s (normalize parsed)) eqn:Hs; cbn; [|intros []].
    intros _. rewrite E. cbn. congruence.
  - cbn. rewrite E. discriminate.
Qed.

(** Every step of every goroutine keeps the invariant. *)
Lemma step_invariant (Parse : parser) (seen0 : gmap (list ascii) bool) (c c' : crawler) :
  invariant Parse seen0 c -> step Parse c c' -> invariant Parse seen0 c'.
Proof.
  intros [Hm Hi Hw Hmono Ha Hex] Hstep.
  destruct Hstep as [c i0 u H0 Hfree | c i0 u H0 | c i0 u k0 H0 | c i0 u b H0].
  - (* Lock *)
    assert (Hnone : forall j q, goroutines c !! j = Some q -> inside q -> False).
    { intros j q Hj Hq. destruct (Hm j q Hj Hq) as [Hl _]. congruence. }
    constructor; cbn [locked seen goroutines].
    + intros i p Hlk Hin. split; [reflexivity|]. intros j q Hj Hq.
      upd H0 Hlk; upd H0 Hj; subst; try reflexivity; exfalso; eauto.
    + intros i u' k Hlk. upd H0 Hlk; [discriminate | eauto].
    + intros i p k Hlk Hwon. upd H0 Hlk; [subst; destruct Hwon|].
      destruct (Hw i p k Hlk Hwon) as (A & B & C).
      split; [exact A|]. split; [exact B|]. intros j q Hj Hq.
      upd H0 Hj; [subst; destruct Hq | eauto].
    + exact Hmono.
    + intros i p k Hlk Hans. upd H0 Hlk; [subst; destruct Hans | eauto].
    + intros k Hk Hk0. destruct (Hex k Hk Hk0) as (i & p & Hlk & Hwon).
      exists i, p. split; [|exact Hwon].
      apply (upd_lookup _ _ _ _ _ _ H0). right. split; [|exact Hlk].
      intros ->. rewrite H0 in Hlk. injection Hlk as <-. destruct Hwon.
  - (* parse and read *)
    destruct (Hm i0 _ H0 I) as [Hlocked Huniq].
    constructor; cbn [locked seen goroutines].
    + intros i p Hlk Hin. split; [exact Hlocked|]. intros j q Hj Hq.
      upd H0 Hlk; upd H0 Hj; subst; try reflexivity.
      * eauto.
      * symmetry. eauto.
      * destruct (Hm i p Hlk Hin) as [_ Hu]. eauto.
    + intros i u' k Hlk. upd H0 Hlk; [|eauto].
      symmetry in Hlk. now apply afterCheck_inserting in Hlk.
    + intros i p k Hlk Hwon.
      upd H0 Hlk; [subst; now apply afterCheck_not_won in Hwon|].
      destruct (Hw i p k Hlk Hwon) as (A & B & C).
      split; [exact A|]. split; [exact B|]. intros j q Hj Hq.
      upd H0 Hj; [subst; now apply afterCheck_not_won in Hq | eauto].
    + exact Hmono.
    + intros i p k Hlk Hans Hkey. upd H0 Hlk; [|eauto].
      subst. now apply (afterCheck_answered Parse (seen c) u k).
    + intros k Hk Hk0. destruct (Hex k Hk Hk0) as (i & p & Hlk & Hwon).
      exists i, p. split; [|exact Hwon].
      apply (upd_lookup _ _ _ _ _ _ H0). right. split; [|exact Hlk].
      intros ->. rewrite H0 in Hlk. injection Hlk as <-. destruct Hwon.
  - (* insert *)
    destruct (Hm i0 _ H0 I) as [Hlocked Huniq].
    destruct (Hi i0 u k0 H0) as [Hkey Habsent].
    assert (Hfresh : has seen0 k0 = false).
    { destruct (has seen0 k0) eqn:E; [|reflexivity].
      apply Hmono in E. congruence. }
    constructor; cbn [locked seen goroutines].
    + intros i p Hlk Hin. split; [exact Hlocked|]. intros j q Hj Hq.
      upd H0 Hlk; upd H0 Hj; subst; try reflexivity.
      * eauto.
      * symmetry. eauto.
      * destruct (Hm i p Hlk Hin) as [_ Hu]. eauto.
    + intros i u' k Hlk. upd H0 Hlk; [discriminate|].
      exfalso. assert (i0 = i) by (apply (Huniq i _ Hlk); exact I). congruence.
    + intros i p k Hlk Hwon. upd H0 Hlk.
      * subst. cbn in Hwon. assert (k = k0) as -> by congruence.
        split; [apply has_insert|]. split; [exact Hfresh|].
        intros j q Hj Hq. upd H0 Hj; [reflexivity|].
        destruct (Hw j q k0 Hj Hq) as (A & _). congruence.
      * destruct (Hw i p k Hlk Hwon) as (A & B & C).
        split; [now apply has_insert_mono|]. split; [exact B|].
        intros j q Hj Hq. upd H0 Hj; [|eauto].
        subst. cbn in Hq. assert (k = k0) as -> by congruence. congruence.
    + intros k Hk. apply has_insert_mono. now apply Hmono.
    + intros i p k Hlk Hans Hk. upd H0 Hlk.
      * subst. cbn in Hk. assert (k = k0) as -> by congruence. apply has_insert.
      * apply has_insert_mono. eauto.
    + intros k Hk Hk0. destruct (decide (k0 = k)) as [<-|Hne].
      * exists i0, (Returning u true). split; [|exact Hkey].
        apply (upd_lookup _ _ _ _ _ _ H0). left. auto.
      * rewrite has_insert_ne in Hk by exact Hne.
        destruct (Hex k Hk Hk0) as (i & p & Hlk & Hwon).
        exists i, p. split; [|exact Hwon].
        apply (upd_lookup _ _ _ _ _ _ H0). right. split; [|exact Hlk].
        intros ->. rewrite H0 in Hlk. injection Hlk as <-. destruct Hwon.
  - (* Unlock and return *)
    destruct (Hm i0 _ H0 I) as [Hlocked Huniq].
    constructor; cbn [locked seen goroutines].
    + intros i p Hlk Hin. exfalso. upd H0 Hlk; [subst; destruct Hin|].
      assert (i0 = i) by eauto. congruence.
    + intros i u' k Hlk. upd H0 Hlk; [discriminate | eauto].
    + intros i p k Hlk Hwon. upd H0 Hlk.
      * subst. destruct (Hw i0 (Returning u b) k H0 Hwon) as (A & B & C).
        split; [exact A|]. split; [exact B|]. intros j q Hj Hq.
        upd H0 Hj; [reflexivity | eauto].
      * destruct (Hw i p k Hlk Hwon) as (A & B & C).
        split; [exact A|]. split; [exact B|]. intros j q Hj Hq.
        upd H0 Hj; [|eauto]. subst. apply (C i0 (Returning u b) H0 Hq).
    + exact Hmono.
    + intros i p k Hlk Hans Hk. upd H0 Hlk; [|eauto].
      subst. apply (Ha i0 (Returning u b) k H0 I Hk).
    + intros k Hk Hk0. destruct (Hex k Hk Hk0) as (i & p & Hlk & Hwon).
      destruct (decide (i = i0)) as [->|Hne].
      * rewrite H0 in Hlk. injection Hlk as <-.
        exists i0, (Done u b). split; [|exact Hwon].
        apply (upd_lookup _ _ _ _ _ _ H0). left. auto.
      * exists i, p. split; [|exact Hwon].
        apply (upd_lookup _ _ _ _ _ _ H0). right. auto.
Qed.

Lemma start_invariant (Parse : parser) (seen0 : gmap (list ascii) bool)
    (urls : list (list ascii)) :
  invariant Parse seen0 (start seen0 urls).
Proof.
  assert (Hw : forall i p, (Waiting <$> urls) !! i = Some p -> exists u, p = Waiting u).
  { intros i p H. apply list_lookup_fmap_Some in H. destruct H as (u & -> & _). eauto. }
  constructor; cbn [start locked seen goroutines].
  - intros i p H Hin. destruct (Hw i p H) as [u ->]. destruct Hin.
  - intros i u k H. destruct (Hw i _ H) as [u' [=]].
  - intros i p k H Hwon. destruct (Hw i p H) as [u ->]. destruct Hwon.
  - auto.
  - intros i p k H Hans. destruct (Hw i p H) as [u ->]. destruct Hans.
  - intros k H1 H2. congruence.
Qed.

Lemma reachable_invariant (Parse : parser) (seen0 : gmap (list ascii) bool)
    (urls : list (list ascii)) (c : crawler) :
  reachable Parse seen0 urls c -> invariant Parse seen0 c.
Proof.
  induction 1 as [|c c' _ IH Hstep].
  - apply start_invariant.
  - exact (step_invariant Parse seen0 c c' IH Hstep).
Qed.

(** Goroutine [i] works on the [i]-th URL throughout. *)
Lemma reachable_urls (Parse : parser) (seen0 : gmap (list ascii) bool)
    (urls : list (list ascii)) (c : crawler) :
  reachable Parse seen0 urls c -> urlOf <$> goroutines c = urls.
Proof.
  induction 1 as [|c c' _ IH Hstep].
  - cbn. rewrite <- list_fmap_compose. apply list_fmap_id.
  - destruct Hstep as [c i0 u H0 _ | c i0 u H0 | c i0 u k0 H0 | c i0 u b H0];
      cbn [goroutines]; rewrite list_fmap_insert, <- IH;
      apply list_insert_id; rewrite list_lookup_fmap, H0; cbn; try reflexivity.
    unfold afterCheck. destruct (Parse u) as [parsed|]; [|reflexivity].
    destruct (has (seen c) (normalize parsed)); reflexivity.
Qed.

(** Among concurrent calls on URLs with one normalised key, at most one
    returns true. *)
Lemma one_winner (Parse : parser) (seen0 : gmap (list ascii) bool)
    (urls : list (list ascii)) (c : crawler) (i j : nat) (u v k : list ascii) :
  reachable Parse seen0 urls c ->
  goroutines c !! i = Some (Done u true) ->
  goroutines c !! j = Some (Done v true) ->
  key Parse u = Some k -> key Parse v = Some k ->
  i = j.
Proof.
  intros Hr Hi Hj Hu Hv. apply reachable_invariant in Hr.
  destruct (inv_won _ _ _ Hr i _ k Hi Hu) as (_ & _ & Huniq).
  exact (Huniq j _ Hj Hv).
Qed.

(** Once all calls have returned, a key that was not seen before has a
    call that returned true. *)
Lemma some_winner (Parse : parser) (seen0 : gmap (list ascii) bool)
    (urls : list (list ascii)) (c : crawler) (i : nat) (u k : list ascii) (b : bool) :
  reachable Parse seen0 urls c ->
  (forall j q, goroutines c !! j = Some q -> finished q) ->
  goroutines c !! i = Some (Done u b) ->
  key Parse u = Some k -> has seen0 k = false ->
  exists j v, goroutines c !! j = Some (Done v true) /\ key Parse v = Some k.
Proof.
  intros Hr Hfin Hi Hu H0. apply reachable_invariant in Hr.
  pose proof (inv_answered _ _ _ Hr i _ k Hi I Hu) as Hk.
  destruct (inv_winner _ _ _ Hr k Hk H0) as (j & q & Hj & Hwon).
  pose proof (Hfin j q Hj) as Hq.
  destruct q as [w | w | w k' | w r | v r]; cbn in Hq; try contradiction.
  destruct r; cbn in Hwon; [|contradiction].
  exists j, v. split; [exact Hj | exact Hwon].
Qed.

(** Two goroutines racing on URLs that differ in query only: whichever
    takes the mutex first wins; here the second one does. *)
Example race_example :
  reachable sampleParse ∅ [str "http://h/a?x=1"; str "http://h/a?x=2"]
    {| locked := false;
       seen := {[ str "http://h/a" := true ]};
       goroutines := [Done (str "http://h/a?x=1") false;
                      Done (str "http://h/a?x=2") true] |}.
Proof.
  set (u1 := str "http://h/a?x=1"). set (u2 := str "http://h/a?x=2").
  set (k := str "http://h/a").
  pose proof (reach_start sampleParse ∅ [u1; u2]) as R.
  match type of R with reachable _ _ _ ?c =>
    apply (fun r => reach_step _ _ _ c _ r
                      (step_lock sampleParse c 1 u2 eq_refl eq_refl)) in R end.
  match type of R with reachable _ _ _ ?c =>
    apply (fun r => reach_step _ _ _ c _ r
                      (step_check sampleParse c 1 u2 eq_refl)) in R end.
  match type of R with reachable _ _ _ ?c =>
    apply (fun r => reach_step _ _ _ c _ r
                      (step_insert sampleParse c 1 u2 k eq_refl)) in R end.
  match type of R with reachable _ _ _ ?c =>
    apply (fun r => reach_step _ _ _ c _ r
                      (step_unlock sampleParse c 1 u2 true eq_refl)) in R end.
  match type of R with reachable _ _ _ ?c =>
    apply (fun r => reach_step _ _ _ c _ r
                      (step_lock sampleParse c 0 u1 eq_refl eq_refl)) in R end.
  match type of R with reachable _ _ _ ?c =>
    apply (fun r => reach_step _ _ _ c _ r
                      (step_check sampleParse c 0 u1 eq_refl)) in R end.
  match type of R with reachable _ _ _ ?c =>
    apply (fun r => reach_step _ _ _ c _ r
                      (step_unlock sampleParse c 0 u1 false eq_refl)) in R end.
  exact R.
Qed.

(** In every state concurrent calls can reach, at most one goroutine is
    between its [Lock] and its [Unlock], and a goroutine about to insert
    a key still finds it absent: nothing comes between its check and its
    insert. *)
Lemma check_and_insert_atomic (Parse : parser) (seen0 : gmap (list ascii) bool)
    (urls : list (list ascii)) (c : crawler) :
  reachable Parse seen0 urls c ->
  (forall i j p q, goroutines c !! i = Some p -> goroutines c !! j = Some q ->
                   inside p -> inside q -> i = j)
  /\ (forall i u k, goroutines c !! i = Some (Inserting u k) ->
                    key Parse u = Some k /\ has (seen c) k = false).
Proof.
  intros Hr. apply reachable_invariant in Hr. split.
  - intros i j p q Hi Hj Hp Hq.
    destruct (inv_mutex _ _ _ Hr i p Hi Hp) as [_ Huniq].
    exact (Huniq j q Hj Hq).
  - intros i u k Hi. exact (inv_inserting _ _ _ Hr i u k Hi).
Qed.

(** C8, as stated, fails on the code: the key is built from the decoded
    path that [url.Parse] stores.  The URLs "http://example.com/a%2Fb" and
    "http://example.com/a/b" differ in path, yet both have the key
    "http://example.com/a/b": the first call returns true and the second
    false. *)
Lemma C8_counterexample :
  let u1 := str "http://example.com" ++ str "/a%2Fb" in
  let u2 := str "http://example.com" ++ str "/a/b" in
  str "/a%2Fb" <> str "/a/b"
  /\ key sampleParse u1 = Some (str "http://example.com/a/b")
  /\ key sampleParse u2 = Some (str "http://example.com/a/b")
  /\ isNew (markSeen sampleParse ∅ u1) = true
  /\ isNew (markSeen sampleParse (seenAfter (markSeen sampleParse ∅ u1)) u2)
     = false.
Proof.
  cbv zeta. split; [discriminate|]. repeat split; reflexivity.
Qed.

(** C8 (amended): [markSeen] keys a URL by the scheme, the host and the
    decoded path of its parse, and by nothing else.  For two parseable
    URLs, starting from a map that does not hold the first key: the first
    call returns true; if the parses have the same scheme, host and path
    (the URLs differ in query or fragment only, or in how the path is
    escaped) the second call returns false; if scheme and host are the
    same, the paths differ and the second key is not in the map either,
    the second call returns true as well; and for well-formed parses
    (scheme without ":", host without "/", path empty or starting with
    "/") with the second key not in the map, the second call returns
    false exactly when scheme, host and path are all the same.  Each call
    touches the map only between its [Lock] and its [Unlock]; of calls
    running concurrently, at most one at a time is between [Lock] and
    [Unlock], a call about to insert its key still finds it absent, and
    on URLs with one key at most one call returns true. *)
Theorem C8_markSeen (Parse : parser) (seen : gmap (list ascii) bool)
    (u1 u2 : list ascii) (p1 p2 : URL)
    (seen0 : gmap (list ascii) bool) (urls : list (list ascii)) (c : crawler) :
  Parse u1 = Some p1 -> Parse u2 = Some p2 ->
  has seen (normalize p1) = false ->
  let first := markSeen Parse seen u1 in
  let second := markSeen Parse (seenAfter first) u2 in
  isNew first = true
  /\ (Scheme p1 = Scheme p2 -> Host p1 = Host p2 -> Path p1 = Path p2 ->
      isNew second = false)
  /\ (Scheme p1 = Scheme p2 -> Host p1 = Host p2 -> Path p1 <> Path p2 ->
      has seen (normalize p2) = false -> isNew second = true)
  /\ (wellFormed p1 = true -> wellFormed p2 = true ->
      has seen (normalize p2) = false ->
      (isNew second = false
       <-> Scheme p1 = Scheme p2 /\ Host p1 = Host p2 /\ Path p1 = Path p2))
  /\ critical (trace first) /\ critical (trace second)
  /\ (reachable Parse seen0 urls c ->
      (forall i j p q, goroutines c !! i = Some p -> goroutines c !! j = Some q ->
                       inside p -> inside q -> i = j)
      /\ (forall i u k, goroutines c !! i = Some (Inserting u k) ->
                        key Parse u = Some k /\ has (Crawl.seen c) k = false)
      /\ forall i j u v k,
           goroutines c !! i = Some (Done u true) ->
           goroutines c !! j = Some (Done v true) ->
           key Parse u = Some k -> key Parse v = Some k ->
           i = j).
Proof.
  intros HP1 HP2 Hfresh first second.
  destruct (markSeen_parsed Parse seen u1 p1 HP1) as (Hnew1 & Hin1 & Hother1).
  fold first in Hnew1, Hin1, Hother1.
  destruct (markSeen_parsed Parse (seenAfter first) u2 p2 HP2) as (Hnew2 & _).
  fold second in Hnew2.
  assert (Hsame : normalize p1 = normalize p2 -> isNew second = false).
  { intros Hk. now rewrite Hnew2, <- Hk, Hin1. }
  assert (Hdiff : normalize p1 <> normalize p2 ->
                  has seen (normalize p2) = false -> isNew second = true).
  { intros Hk Hfresh2. rewrite Hnew2, Hother1, Hfresh2; [reflexivity|].
    intros Heq. apply Hk. now symmetry. }
  split; [now rewrite Hnew1, Hfresh|].
  split; [|split; [|split; [|split; [|split]]]].
  - intros Hs Hh Hp. apply Hsame. unfold normalize. now rewrite Hs, Hh, Hp.
  - intros Hs Hh Hp. apply Hdiff. intros Hk. apply Hp.
    now apply (normalize_path p1 p2 Hs Hh).
  - intros W1 W2 Hfresh2. split.
    + intros Hold.
      destruct (decide (normalize p1 = normalize p2)) as [Hk|Hk].
      * now apply normalize_inj.
      * rewrite (Hdiff Hk Hfresh2) in Hold. discriminate Hold.
    + intros (Hs & Hh & Hp). apply Hsame. unfold normalize.
      now rewrite Hs, Hh, Hp.
  - apply markSeen_critical.
  - apply markSeen_critical.
  - intros Hr.
    destruct (check_and_insert_atomic Parse seen0 urls c Hr) as [Hmutex Hins].
    split; [exact Hmutex|]. split; [exact Hins|].
    intros i j u v k Hi Hj Hu Hv.
    exact (one_winner Parse seen0 urls c i j u v k Hr Hi Hj Hu Hv).
Qed.

Lemma C8_markSeen_witness :
  let first := markSeen sampleParse ∅ (str "https://example.com/a?x=1") in
  isNew first = true
  /\ isNew (markSeen sampleParse (seenAfter first) (str "https://example.com/a#top"))
     = false
  /\ isNew (markSeen sampleParse (seenAfter first) (str "https://example.com/b?x=1"))
     = true
  /\ isNew (markSeen sampleParse (seenAfter first) (str "http://example.com/a?x=1"))
     = true
  /\ isNew (markSeen sampleParse (seenAfter first) (str "https://example.org/a?x=1"))
     = true.
Proof.
  cbv zeta.
  set (a := {| Scheme := str "https"; Host := str "example.com";
               Path := str "/a"; RawQuery := str "x=1"; Fragment := [] |}).
  set (a' := {| Scheme := str "https"; Host := str "example.com";
                Path := str "/a"; RawQuery := []; Fragment := str "top" |}).
  set (b := {| Scheme := str "https"; Host := str "example.com";
               Path := str "/b"; RawQuery := str "x=1"; Fragment := [] |}).
  set (h := {| Scheme := str "http"; Host := str "example.com";
               Path := str "/a"; RawQuery := str "x=1"; Fragment := [] |}).
  set (o := {| Scheme := str "https"; Host := str "example.org";
               Path := str "/a"; RawQuery := str "x=1"; Fragment := [] |}).
  destruct (C8_markSeen sampleParse ∅ (str "https://example.com/a?x=1")
              (str "https://example.com/a#top") a a' ∅ [] (start ∅ []))
    as (H1 & H2 & _); try reflexivity.
  destruct (C8_markSeen sampleParse ∅ (str "https://example.com/a?x=1")
              (str "https://example.com/b?x=1") a b ∅ [] (start ∅ []))
    as (_ & _ & H3 & _); try reflexivity.
  destruct (C8_markSeen sampleParse ∅ (str "https://example.com/a?x=1")
              (str "http://example.com/a?x=1") a h ∅ [] (start ∅ []))
    as (_ & _ & _ & H4 & _); try reflexivity.
  destruct (C8_markSeen sampleParse ∅ (str "https://example.com/a?x=1")
              (str "https://example.org/a?x=1") a o ∅ [] (start ∅ []))
    as (_ & _ & _ & H5 & _); try reflexivity.
  split; [exact H1|]. split; [apply H2; reflexivity|].
  split; [apply H3; [reflexivity | reflexivity | discriminate | reflexivity]|].
  split.
  - apply not_false_iff_true. intros E.
    apply H4 in E; [|reflexivity..]. destruct E as [E _]. discriminate E.
  - apply not_false_iff_true. intros E.
    apply H5 in E; [|reflexivity..]. destruct E as (_ & E & _). discriminate E.
Defined.

End CrawlProps.

(** ** Retry: success, cancellation, delays *)

Module PolicyProps.
Import GoErr GoNum Float64 Retry Policy RetryProps.

(** A success at attempt [k], after [k] retryable failures, ends the loop
    with a nil error, [k+1] calls and [k] sleeps. *)
Lemma retryLoop_succeeds_at (c : RetryConfig) (w : World) (k : nat) :
  (forall j, (j <= k)%nat -> doneBefore w j = false) ->
  (forall j, (j < k)%nat -> doneWaiting w j = false) ->
  (forall j, (j < k)%nat ->
     exists e, fn w j = Some e /\ isRetryable e (RetryableErrors c) = true) ->
  fn w k = None ->
  Z.of_nat k <= MaxRetries c ->
  forall fuel attempt delay lastErr log,
    (attempt <= k)%nat ->
    (fuel + attempt = S (Z.to_nat (MaxRetries c)))%nat ->
    exists log',
      retryLoop c w fuel attempt delay lastErr log = (None, log')
      /\ calls log' = (calls log + S (k - attempt))%nat
      /\ length (sleeps log') = (length (sleeps log) + (k - attempt))%nat.
Proof.
  intros Hb Hw Hprev Hk HkM fuel.
  induction fuel as [|fuel IH]; intros attempt delay lastErr log Ha Hsum; [lia|].
  cbn. rewrite (Hb attempt Ha).
  destruct (Nat.eq_dec attempt k) as [->|Hne].
  - rewrite Hk. eexists. split; [reflexivity|].
    rewrite calls_snoc_call. unfold sleeps. rewrite omap_app. cbn.
    rewrite app_nil_r. split; lia.
  - destruct (Hprev attempt) as (e & He & Hr); [lia|]. rewrite He, Hr. cbn.
    destruct (Z.eqb_spec (Z.of_nat attempt) (MaxRetries c)) as [Heq|_]; [lia|].
    rewrite Hw by lia.
    destruct (IH (S attempt) (nextDelay c delay) (Some e)
                ((log ++ [Call attempt]) ++ [Sleep (currentDelay c w attempt delay)]))
      as (log' & Hrun & Hcalls & Hsl); [lia | lia |].
    exists log'. split; [exact Hrun|].
    rewrite Hcalls, Hsl, calls_snoc_sleep, calls_snoc_call.
    unfold sleeps. rewrite !omap_app, !length_app. cbn. split; lia.
Qed.

(** X1: when [fn] fails [k] times with retryable errors and then succeeds,
    with [k] at most [MaxRetries] (after the defaults) and the context not
    cancelled so far, [RetryWithResult] reports a nil error and [k+1]
    attempts, and [RetryWithBackoff] has slept [k] times. *)
Theorem RetryWithResult_success (config : RetryConfig) (w : World) (k : nat)
    (start finish : Z) :
  (forall j, (j <= k)%nat -> doneBefore w j = false) ->
  (forall j, (j < k)%nat -> doneWaiting w j = false) ->
  (forall j, (j < k)%nat ->
     exists e, fn w j = Some e /\ isRetryable e (RetryableErrors config) = true) ->
  fn w k = None ->
  Z.of_nat k <= MaxRetries (withDefaults config) ->
  Error_ (RetryWithResult config w start finish) = None
  /\ Attempts (RetryWithResult config w start finish) = Z.of_nat k + 1
  /\ length (sleeps (RetryWithBackoff config w).2) = k.
Proof.
  intros Hb Hw Hprev Hk HkM.
  pose proof (withDefaults_MaxRetries_pos config) as Hpos.
  destruct (retryLoop_succeeds_at (withDefaults config) w k Hb Hw Hprev Hk HkM
              (Z.to_nat (MaxRetries (withDefaults config) + 1)) 0
              (InitialDelay (withDefaults config)) None [])
    as (log' & Hrun & Hcalls & Hsl); [lia | lia |].
  unfold RetryWithResult, RetryWithBackoff. cbv zeta. rewrite Hrun.
  cbn [fst snd Error_ Attempts].
  split; [reflexivity|]. rewrite Hcalls, Hsl.
  change (calls []) with 0%nat. change (length (sleeps [])) with 0%nat.
  split; lia.
Qed.

Lemma RetryWithResult_success_witness :
  Error_ (RetryWithResult DefaultRetryConfig flakyWorld 0 5) = None
  /\ Attempts (RetryWithResult DefaultRetryConfig flakyWorld 0 5) = 3.
Proof.
  destruct (RetryWithResult_success DefaultRetryConfig flakyWorld 2 0 5)
    as (H1 & H2 & _).
  - reflexivity.
  - reflexivity.
  - intros j Hj. exists errTimeout.
    destruct j as [|[|j]]; [split; reflexivity | split; reflexivity | exfalso; lia].
  - reflexivity.
  - vm_compute. discriminate.
  - split; [exact H1 | exact H2].
Defined.

(** Once the context is found cancelled, [ctx.Err()] is returned and [fn]
    is not called any more. *)
Lemma retryLoop_cancelled (c : RetryConfig) (w : World) (k : nat) (waiting : bool) :
  (forall j, (j < k)%nat -> doneBefore w j = false /\ doneWaiting w j = false) ->
  (forall j, (j < k + (if waiting then 1 else 0))%nat ->
     exists e, fn w j = Some e /\ isRetryable e (RetryableErrors c) = true) ->
  (if waiting then doneBefore w k = false /\ doneWaiting w k = true
   else doneBefore w k = true) ->
  Z.of_nat k + (if waiting then 1 else 0) <= MaxRetries c ->
  forall fuel attempt delay lastErr log,
    (attempt <= k)%nat ->
    (fuel + attempt = S (Z.to_nat (MaxRetries c)))%nat ->
    exists log',
      retryLoop c w fuel attempt delay lastErr log = (Some (ctxErr w), log')
      /\ calls log' = (calls log + (k - attempt) + (if waiting then 1 else 0))%nat.
Proof.
  intros Hctx Hprev Hk HkM fuel.
  induction fuel as [|fuel IH]; intros attempt delay lastErr log Ha Hsum.
  { destruct waiting; lia. }
  cbn. destruct (Nat.eq_dec attempt k) as [->|Hne].
  - destruct waiting.
    + destruct Hk as [Hb Hw]. rewrite Hb.
      destruct (Hprev k) as (e & He & Hr); [lia|]. rewrite He, Hr. cbn.
      destruct (Z.eqb_spec (Z.of_nat k) (MaxRetries c)) as [Heq|_]; [lia|].
      rewrite Hw. eexists. split; [reflexivity|]. rewrite calls_snoc_call. lia.
    + rewrite Hk. eexists. split; [reflexivity|]. lia.
  - destruct (Hctx attempt) as [Hb Hw]; [lia|]. rewrite Hb.
    destruct (Hprev attempt) as (e & He & Hr); [destruct waiting; lia|].
    rewrite He, Hr. cbn.
    destruct (Z.eqb_spec (Z.of_nat attempt) (MaxRetries c)) as [Heq|_];
      [destruct waiting; lia|].
    rewrite Hw.
    destruct (IH (S attempt) (nextDelay c delay) (Some e)
                ((log ++ [Call attempt]) ++ [Sleep (currentDelay c w attempt delay)]))
      as (log' & Hrun & Hcalls); [lia | lia |].
    exists log'. split; [exact Hrun|].
    rewrite Hcalls, calls_snoc_sleep, calls_snoc_call. lia.
Qed.

(** X2: a cancelled context ends [RetryWithBackoff] with [ctx.Err()].
    Found cancelled before attempt [k], [fn] has been called [k] times and
    is not called again; found cancelled while waiting after attempt [k],
    [fn] has been called [k+1] times.  In particular a context that is
    cancelled from the start means [fn] is never called. *)
Theorem RetryWithBackoff_cancelled (config : RetryConfig) (w : World) (k : nat)
    (waiting : bool) :
  (forall j, (j < k)%nat -> doneBefore w j = false /\ doneWaiting w j = false) ->
  (forall j, (j < k + (if waiting then 1 else 0))%nat ->
     exists e, fn w j = Some e /\ isRetryable e (RetryableErrors config) = true) ->
  (if waiting then doneBefore w k = false /\ doneWaiting w k = true
   else doneBefore w k = true) ->
  Z.of_nat k + (if waiting then 1 else 0) <= MaxRetries (withDefaults config) ->
  (RetryWithBackoff config w).1 = Some (ctxErr w)
  /\ calls (RetryWithBackoff config w).2 = (k + (if waiting then 1 else 0))%nat.
Proof.
  intros Hctx Hprev Hk HkM.
  pose proof (withDefaults_MaxRetries_pos config) as Hpos.
  destruct (retryLoop_cancelled (withDefaults config) w k waiting Hctx Hprev Hk HkM
              (Z.to_nat (MaxRetries (withDefaults config) + 1)) 0
              (InitialDelay (withDefaults config)) None [])
    as (log' & Hrun & Hcalls); [lia | lia |].
  unfold RetryWithBackoff. cbv zeta. rewrite Hrun. cbn [fst snd].
  split; [reflexivity|]. rewrite Hcalls. change (calls []) with 0%nat. lia.
Qed.

Lemma RetryWithBackoff_cancelled_witness :
  (RetryWithBackoff DefaultRetryConfig cancelledLater).1 = Some ctxCanceled
  /\ calls (RetryWithBackoff DefaultRetryConfig cancelledLater).2 = 2%nat.
Proof.
  apply (RetryWithBackoff_cancelled DefaultRetryConfig cancelledLater 1 true).
  - intros j Hj. assert (j = 0%nat) as -> by lia. split; reflexivity.
  - intros j Hj. exists errTimeout. split; reflexivity.
  - split; reflexivity.
  - vm_compute. discriminate.
Defined.

(** *** [ExponentialBackoff] and the policies *)

Lemma wrap64_small (z : Z) :
  - 2 ^ 63 <= z < 2 ^ 63 -> wrap64 z = z.
Proof. intros H. unfold wrap64. rewrite Z.mod_small; lia. Qed.

(** [time.Duration(math.Pow(2, float64(attempt)))] when it fits. *)
Lemma toInt_Pow2 (attempt : Z) :
  attempt <= 62 -> toInt (Pow2 attempt) = if attempt <? 0 then 0 else 2 ^ attempt.
Proof.
  intros H. unfold Pow2.
  destruct (Z.ltb_spec attempt (-1074)).
  { destruct (Z.ltb_spec attempt 0); [reflexivity | lia]. }
  destruct (Z.ltb_spec 1023 attempt); [lia|].
  destruct (Z.ltb_spec attempt 0).
  - cbn [toInt]. unfold Qtrunc. cbn [Qnum Qden].
    rewrite Z.quot_small; [reflexivity|].
    rewrite Pos2Z.inj_pow. split; [lia|]. apply Z.pow_gt_1; lia.
  - cbn [toInt]. unfold Qtrunc. cbn [Qnum Qden inject_Z]. rewrite Z.quot_1_r.
    assert (Hlo : 0 < 2 ^ attempt) by (apply Z.pow_pos_nonneg; lia).
    assert (Hhi : 2 ^ attempt <= 2 ^ 62) by (apply Z.pow_le_mono_r; lia).
    assert (E : (- 2 ^ 63 <=? 2 ^ attempt) && (2 ^ attempt <? 2 ^ 63) = true).
    { apply andb_true_intro. split; [apply Z.leb_le | apply Z.ltb_lt]; lia. }
    cbv zeta. now rewrite E.
Qed.

(** The delay computed by [ExponentialBackoff] when the doubled delay fits
    a Go [int]. *)
Lemma ExponentialBackoff_eq (attempt baseDelay maxDelay : Z) :
  0 <= baseDelay -> baseDelay * 2 ^ attempt <= 9223372036854775807 ->
  ExponentialBackoff attempt baseDelay maxDelay
  = Z.min (baseDelay * (if attempt <? 0 then 0 else 2 ^ attempt)) maxDelay.
Proof.
  intros Hb Hfit. unfold ExponentialBackoff. cbv zeta.
  assert (Hd : wrap64 (baseDelay * toInt (Pow2 attempt))
               = baseDelay * (if attempt <? 0 then 0 else 2 ^ attempt)).
  { destruct (Z.eq_dec baseDelay 0) as [->|Hne]; [reflexivity|].
    destruct (Z.le_gt_cases attempt 62) as [Hle|Hgt].
    - rewrite (toInt_Pow2 _ Hle). apply wrap64_small.
      destruct (Z.ltb_spec attempt 0); [lia|].
      assert (0 <= 2 ^ attempt) by (apply Z.pow_nonneg; lia). nia.
    - exfalso.
      assert (2 ^ 63 <= 2 ^ attempt) by (apply Z.pow_le_mono_r; lia). nia. }
  rewrite Hd.
  destruct (Z.ltb_spec maxDelay (baseDelay * (if attempt <? 0 then 0 else 2 ^ attempt)));
    lia.
Qed.

(** X3: the delay of the exponential policy never exceeds [maxDelay]; for
    a base delay that is not negative and attempts whose doubled delay
    fits a Go [int], it is [baseDelay * 2^attempt] capped at [maxDelay]
    (zero for a negative attempt, capped likewise), it does not decrease
    from one attempt to a later one, and it is at least the capped delay of
    the linear policy. *)
Theorem exponential_policy_delay (baseDelay maxDelay attempt later : Z) :
  0 <= baseDelay -> attempt <= later ->
  baseDelay * 2 ^ later <= 9223372036854775807 ->
  let p := NewExponentialRetryPolicy baseDelay maxDelay in
  Delay p attempt <= maxDelay
  /\ (0 <= attempt -> Delay p attempt = Z.min (baseDelay * 2 ^ attempt) maxDelay)
  /\ (attempt < 0 -> Delay p attempt = Z.min 0 maxDelay)
  /\ Delay p attempt <= Delay p later
  /\ (0 <= attempt ->
      Z.min (Delay (NewLinearRetryPolicy baseDelay) attempt) maxDelay
      <= Delay p attempt).
Proof.
  intros Hb Hle Hfit p. unfold p.
  cbn [Delay NewExponentialRetryPolicy NewLinearRetryPolicy].
  assert (Hpow : 0 <= 2 ^ later) by (apply Z.pow_nonneg; lia).
  assert (Hfit' : baseDelay * 2 ^ attempt <= 9223372036854775807).
  { destruct (Z.lt_ge_cases attempt 0) as [Hneg|Hnn].
    - rewrite (Z.pow_neg_r 2 attempt Hneg). lia.
    - assert (2 ^ attempt <= 2 ^ later) by (apply Z.pow_le_mono_r; lia). nia. }
  split.
  { unfold ExponentialBackoff. cbv zeta.
    destruct (Z.ltb_spec maxDelay (wrap64 (baseDelay * toInt (Pow2 attempt)))); lia. }
  rewrite (ExponentialBackoff_eq attempt) by assumption.
  rewrite (ExponentialBackoff_eq later) by assumption.
  split; [|split; [|split]].
  - intros Ha. destruct (Z.ltb_spec attempt 0); [lia | reflexivity].
  - intros Ha. destruct (Z.ltb_spec attempt 0); [|lia]. now rewrite Z.mul_0_r.
  - apply Z.min_le_compat_r.
    destruct (Z.ltb_spec attempt 0), (Z.ltb_spec later 0); try nia.
    apply Z.mul_le_mono_nonneg_l; [exact Hb|].
    apply Z.pow_le_mono_r; lia.
  - intros Ha. destruct (Z.ltb_spec attempt 0); [lia|].
    apply Z.min_le_compat_r.
    pose proof (Z.pow_gt_lin_r 2 attempt ltac:(lia) Ha) as Hlin.
    destruct (Z.eq_dec baseDelay 0) as [->|Hne].
    { rewrite !Z.mul_0_l. reflexivity. }
    assert (Hsmall : attempt + 1 <= 9223372036854775807) by nia.
    rewrite (wrap64_small (attempt + 1)) by lia.
    rewrite wrap64_small by nia.
    apply Z.mul_le_mono_nonneg_l; [exact Hb | lia].
Qed.

Lemma exponential_policy_delay_witness :
  Delay (NewExponentialRetryPolicy 100 1000) 2 = 400
  /\ Delay (NewExponentialRetryPolicy 100 1000) 2
     <= Delay (NewExponentialRetryPolicy 100 1000) 5.
Proof.
  destruct (exponential_policy_delay 100 1000 2 5) as (_ & H1 & _ & H2 & _);
    [lia | lia | vm_compute; discriminate |].
  split; [apply H1; lia | exact H2].
Defined.

End PolicyProps.

(** ** Waiting, adaptive and per-host limiters *)

Module LimitersProps.
Import GoErr GoNum Float64 RateLimit Policy Limiters RateLimitProps Float64Props.

Lemma Allow_fields (rl : RateLimiter) (now : Z) :
  rate (Allow rl now).1 = rate rl /\ burst (Allow rl now).1 = burst rl
  /\ lastUpdate (Allow rl now).1 = now.
Proof.
  unfold Allow. cbv zeta.
  destruct (fge (tokens (refill rl now)) (Fin 1)); repeat split.
Qed.

(** A limiter with no burst refuses, whatever it holds and whatever the
    clock reads. *)
Lemma Allow_zero_burst (rl : RateLimiter) (now : Z) :
  burst rl = 0 -> (Allow rl now).2 = false.
Proof.
  intros Hb. unfold Allow, refill. cbv zeta. cbn [tokens burst]. rewrite Hb.
  change (ofInt 0) with (Fin 0).
  destruct (fadd (tokens rl) (fmul (elapsedSeconds rl now) (rate rl)))
    as [|[|]|t]; try reflexivity.
  unfold fgt, fge. cbn [flt].
  destruct (Qle_bool t 0) eqn:E; cbn [negb fle tokens]; [|reflexivity].
  apply Qle_bool_iff in E.
  destruct (Qle_bool 1 t) eqn:E1; [|reflexivity].
  apply Qle_bool_iff in E1. lra.
Qed.

Lemma answers_zero_burst (nows : list Z) :
  forall rl, burst rl = 0 -> Forall (fun a => a = false) (answers rl nows).
Proof.
  induction nows as [|now nows IH]; intros rl Hb; cbn [answers]; cbv zeta.
  - constructor.
  - constructor; [now apply Allow_zero_burst|].
    apply IH. destruct (Allow_fields rl now) as (_ & -> & _). exact Hb.
Qed.

Lemma waitLoop_zero_burst (s : Surroundings) (fuel : nat) :
  forall k rl log,
    burst rl = 0 -> (waitLoop s fuel k rl log).1.2 <> Returned None.
Proof.
  induction fuel as [|fuel IH]; intros k rl log Hb; cbn [waitLoop]; cbv zeta.
  - discriminate.
  - destruct (doneBefore s k); [discriminate|].
    rewrite (Allow_zero_burst rl (clock s k) Hb).
    destruct (doneWaiting s k); [discriminate|].
    apply IH. destruct (Allow_fields rl (clock s k)) as (_ & -> & _). exact Hb.
Qed.

(** The burst a limiter gets from a rate below one and no burst of its
    own. *)
Lemma toInt_fraction (r : Q) : (0 < r)%Q -> (r < 1)%Q -> toInt (Fin r) = 0.
Proof.
  intros H0 H1.
  destruct (Qtrunc_range r 1 (Qlt_le_weak _ _ H0) ltac:(change (inject_Z 1) with 1%Q; lra))
    as [Hlo Hhi].
  assert (Hz : Qtrunc r = 0).
  { destruct (Z.eq_dec (Qtrunc r) 1) as [E|]; [|lia]. exfalso.
    destruct r as [n d]. unfold Qtrunc, Qlt in *. cbn in *.
    rewrite Z.quot_div_nonneg in E by lia.
    assert (n / Z.pos d = 0) by (apply Z.div_small; lia). lia. }
  cbn [toInt]. now rewrite Hz.
Qed.

Lemma NewRateLimiter_fraction (r : Q) (b t0 : Z) :
  (0 < r)%Q -> (r < 1)%Q -> b <= 0 -> burst (NewRateLimiter (Fin r) b t0) = 0.
Proof.
  intros H0 H1 Hb. unfold NewRateLimiter. cbv zeta. cbn [burst fle].
  case_Qle r 0%Q E; [lra|].
  destruct (Z.leb_spec b 0); [|lia]. now apply toInt_fraction.
Qed.

(** X4: a limiter made with a rate between 0 and 1 and no positive burst
    gets the burst [int(rate)], which is zero: [Allow] then never returns
    true, whatever the clock reads, and [Wait] never returns nil. *)
Theorem fractional_rate_never_allows (r : Q) (b t0 : Z) (nows : list Z)
    (s : Surroundings) (fuel : nat) :
  (0 < r)%Q -> (r < 1)%Q -> b <= 0 ->
  let rl := NewRateLimiter (Fin r) b t0 in
  burst rl = 0
  /\ Forall (fun a => a = false) (answers rl nows)
  /\ (Wait s fuel rl).1.2 <> Returned None.
Proof.
  intros H0 H1 Hb rl.
  pose proof (NewRateLimiter_fraction r b t0 H0 H1 Hb) as Hz. fold rl in Hz.
  split; [exact Hz|]. split.
  - now apply answers_zero_burst.
  - now apply waitLoop_zero_burst.
Qed.

Lemma fractional_rate_never_allows_witness :
  (0 < 1 # 2)%Q /\ (1 # 2 < 1)%Q /\ 0 <= 0
  /\ let rl := NewRateLimiter (Fin (1 # 2)) 0 0 in
     burst rl = 0
     /\ Forall (fun a => a = false) (answers rl [0; 1000000000; 60000000000])
     /\ (Wait halfSeconds 50 rl).1.2 <> Returned None.
Proof.
  assert (H0 : (0 < 1 # 2)%Q) by reflexivity.
  assert (H1 : (1 # 2 < 1)%Q) by reflexivity.
  assert (Hb : 0 <= 0) by lia.
  split; [exact H0|]. split; [exact H1|]. split; [exact Hb|].
  exact (fractional_rate_never_allows (1 # 2) 0 0 [0; 1000000000; 60000000000]
           halfSeconds 50 H0 H1 Hb).
Defined.

(** *** [AdaptiveRateLimiter] *)

Lemma adjustRate_fields (arl : AdaptiveRateLimiter) (avg : Z) :
  samples (adjustRate arl avg) = samples arl
  /\ maxSamples (adjustRate arl avg) = maxSamples arl
  /\ burst (limiter (adjustRate arl avg)) = burst (limiter arl).
Proof.
  unfold adjustRate. cbv zeta.
  destruct (wrap64 (targetLatency arl * 2) <? avg); [repeat split|].
  destruct (targetLatency arl <? avg); [repeat split|].
  destruct (avg <? Z.quot (targetLatency arl) 2); repeat split.
Qed.

Lemma RecordLatency_fields (arl : AdaptiveRateLimiter) (latency : Z) :
  maxSamples (RecordLatency arl latency) = maxSamples arl
  /\ burst (limiter (RecordLatency arl latency)) = burst (limiter arl).
Proof.
  unfold RecordLatency. cbv zeta.
  match goal with |- context [if ?b then adjustRate ?a ?v else _] =>
    destruct b; [destruct (adjustRate_fields a v) as (_ & -> & ->)|]
  end; repeat split.
Qed.

(** The samples kept after one more latency: the oldest one is dropped
    when there are more than [maxSamples]. *)
Lemma RecordLatency_samples (arl : AdaptiveRateLimiter) (latency : Z) :
  samples (RecordLatency arl latency)
  = if maxSamples arl <? Z.of_nat (length (samples arl ++ [latency]))
    then drop 1 (samples arl ++ [latency]) else samples arl ++ [latency].
Proof.
  unfold RecordLatency. cbv zeta.
  match goal with |- context [if ?b then adjustRate ?a ?v else _] =>
    destruct b; [destruct (adjustRate_fields a v) as (-> & _)|]
  end; reflexivity.
Qed.

Lemma record_snoc (arl : AdaptiveRateLimiter) (ls : list Z) (x : Z) :
  record arl (ls ++ [x]) = RecordLatency (record arl ls) x.
Proof. unfold record. now rewrite fold_left_app. Qed.

Lemma record_fields (ls : list Z) (arl : AdaptiveRateLimiter) :
  maxSamples (record arl ls) = maxSamples arl
  /\ burst (limiter (record arl ls)) = burst (limiter arl).
Proof.
  induction ls as [|x ls IH] using rev_ind; [repeat split|].
  rewrite record_snoc.
  destruct (RecordLatency_fields (record arl ls) x) as (-> & ->).
  exact IH.
Qed.

(** X5: the adaptive limiter keeps a sliding window of the latencies
    recorded: the last 100 of them, in order, whatever the adjustments of
    the rate on the way. *)
Theorem RecordLatency_window (initialRate minRate maxRate : float)
    (targetLatency now : Z) (latencies : list Z) :
  let arl :=
    record (NewAdaptiveRateLimiter initialRate minRate maxRate targetLatency now)
           latencies in
  samples arl = drop (length latencies - 100) latencies
  /\ (length (samples arl) <= 100)%nat.
Proof.
  cbv zeta.
  set (arl0 := NewAdaptiveRateLimiter initialRate minRate maxRate targetLatency now).
  assert (Hwin : samples (record arl0 latencies)
                 = drop (length latencies - 100) latencies).
  { induction latencies as [|x ls IH] using rev_ind; [reflexivity|].
    rewrite record_snoc, RecordLatency_samples, IH.
    destruct (record_fields ls arl0) as (-> & _).
    change (maxSamples arl0) with 100.
    assert (Hl : length (ls ++ [x]) = (length ls + 1)%nat)
      by (rewrite length_app; reflexivity).
    rewrite Hl.
    destruct (le_lt_dec 100 (length ls)) as [Hlen|Hlen].
    - assert (Hd : length (drop (length ls - 100) ls ++ [x]) = 101%nat).
      { rewrite length_app. cbn [length].
        pose proof (length_drop ls (length ls - 100)) as Hdrop. lia. }
      rewrite Hd. change (100 <? Z.of_nat 101) with true. cbv iota.
      rewrite <- (drop_app_le _ [x]) by lia.
      rewrite drop_drop. f_equal. lia.
    - replace (length ls - 100)%nat with 0%nat by lia.
      replace (length ls + 1 - 100)%nat with 0%nat by lia.
      rewrite !drop_0, Hl.
      destruct (Z.ltb_spec 100 (Z.of_nat (length ls + 1))); [lia | reflexivity]. }
  split; [exact Hwin|]. rewrite Hwin.
  pose proof (length_drop latencies (length latencies - 100)). lia.
Qed.

(** X6: an adaptive limiter made with an initial rate between 0 and 1
    has the burst [int(initialRate)], which is zero, and no recorded
    latency changes that: its [Wait] never returns nil. *)
Theorem adaptive_fractional_rate (initialRate : Q) (minRate maxRate : float)
    (targetLatency now : Z) (latencies : list Z) (s : Surroundings) (fuel : nat) :
  (0 < initialRate)%Q -> (initialRate < 1)%Q ->
  let arl :=
    record (NewAdaptiveRateLimiter (Fin initialRate) minRate maxRate
              targetLatency now)
           latencies in
  burst (limiter arl) = 0
  /\ (AdaptiveWait s fuel arl).1.2 <> Returned None.
Proof.
  intros H0 H1 arl.
  assert (Hb : burst (limiter arl) = 0).
  { unfold arl. destruct (record_fields latencies
      (NewAdaptiveRateLimiter (Fin initialRate) minRate maxRate targetLatency now))
      as (_ & ->).
    cbn [limiter NewAdaptiveRateLimiter].
    apply NewRateLimiter_fraction; [exact H0 | exact H1 |].
    rewrite (toInt_fraction initialRate H0 H1). lia. }
  split; [exact Hb|]. now apply waitLoop_zero_burst.
Qed.

Lemma adaptive_fractional_rate_witness :
  (0 < 1 # 2)%Q /\ (1 # 2 < 1)%Q
  /\ let arl :=
       record (NewAdaptiveRateLimiter (Fin (1 # 2)) (lit (1 # 10)) (Fin 10) 200 0)
              (replicate 15 10) in
     burst (limiter arl) = 0
     /\ (AdaptiveWait halfSeconds 40 arl).1.2 <> Returned None.
Proof.
  assert (H0 : (0 < 1 # 2)%Q) by reflexivity.
  assert (H1 : (1 # 2 < 1)%Q) by reflexivity.
  split; [exact H0|]. split; [exact H1|].
  exact (adaptive_fractional_rate (1 # 2) (lit (1 # 10)) (Fin 10) 200 0
           (replicate 15 10) halfSeconds 40 H0 H1).
Defined.

(** *** [PerHostRateLimiter] *)

Lemma AllowHost_answer (phrl : PerHostRateLimiter) (h : string) (c t : Z) :
  (AllowHost phrl h c t).2 = (Allow (getLimiter phrl h c).2 t).2.
Proof. reflexivity. Qed.

Lemma AllowHost_own (phrl : PerHostRateLimiter) (h : string) (c t : Z) :
  limiters (AllowHost phrl h c t).1 !! h
  = Some (Allow (getLimiter phrl h c).2 t).1.
Proof. unfold AllowHost. cbv zeta. cbn [fst limiters]. apply lookup_insert_eq. Qed.

Lemma AllowHost_other (phrl : PerHostRateLimiter) (h h' : string) (c t : Z) :
  h <> h' ->
  limiters (AllowHost phrl h c t).1 !! h' = limiters phrl !! h'.
Proof.
  intros Hne. unfold AllowHost, getLimiter. cbv zeta. cbn [fst limiters].
  rewrite lookup_insert_ne by exact Hne.
  destruct (limiters phrl !! h); cbn [fst limiters]; [reflexivity|].
  now rewrite lookup_insert_ne.
Qed.

Lemma AllowHost_settings (phrl : PerHostRateLimiter) (h : string) (c t : Z) :
  hostRate (AllowHost phrl h c t).1 = hostRate phrl
  /\ hostBurst (AllowHost phrl h c t).1 = hostBurst phrl.
Proof. split; reflexivity. Qed.

(** The answers one host gets, read off its own limiter. *)
Lemma requests_own (host : string) (reqs : list (string * (Z * Z)))
    (phrl : PerHostRateLimiter) :
  answersTo host (requests phrl reqs)
  = match ownLimiter phrl host (timesOf host reqs) with
    | Some l => allowed l (allowsAt (timesOf host reqs))
    | None => []
    end.
Proof.
  revert phrl. induction reqs as [|[h [c t]] rest IH]; intros phrl.
  - unfold answersTo, timesOf, ownLimiter. cbn.
    destruct (limiters phrl !! host); reflexivity.
  - cbn [requests]. cbv zeta. unfold answersTo, timesOf.
    cbn [List.filter fst].
    destruct (bool_decide (h = host)) eqn:E.
    + apply bool_decide_eq_true in E. subst h. cbn [map snd].
      fold (answersTo host (requests (AllowHost phrl host c t).1 rest)).
      fold (timesOf host rest).
      rewrite IH. unfold ownLimiter at 1. rewrite AllowHost_own.
      rewrite AllowHost_answer.
      assert (Hl : ownLimiter phrl host ((c, t) :: timesOf host rest)
                   = Some (getLimiter phrl host c).2).
      { unfold ownLimiter, getLimiter.
        destruct (limiters phrl !! host); reflexivity. }
      rewrite Hl. reflexivity.
    + apply bool_decide_eq_false in E.
      fold (answersTo host (requests (AllowHost phrl h c t).1 rest)).
      fold (timesOf host rest).
      rewrite IH. unfold ownLimiter.
      rewrite (AllowHost_other phrl h host c t E).
      destruct (AllowHost_settings phrl h c t) as [-> ->]. reflexivity.
Qed.

(** X7: the hosts do not interfere.  The answers one host gets are those
    of a limiter of its own, made at its first request (or found in the
    map), asked at the host's requests only. *)
Theorem per_host_independent (host : string)
    (reqs : list (string * (Z * Z))) (phrl : PerHostRateLimiter) :
  answersTo host (requests phrl reqs)
  = match ownLimiter phrl host (timesOf host reqs) with
    | Some l => allowed l (allowsAt (timesOf host reqs))
    | None => []
    end.
Proof. apply requests_own. Qed.

(** Calls of [Allow] that all read the same instant are granted at most
    [burst] times. *)
Lemma sound_grants (rl : RateLimiter) (now : Z) (k : nat) :
  sound rl -> lastUpdate rl <= now ->
  Z.of_nat (granted (allowed rl (replicate k (OpAllow now)))) <= burst rl.
Proof.
  intros Hs Ht.
  assert (Hbud : budget now (burst rl) 0 rl).
  { split; [exact Hs|]. split; [lia|]. split; [exact Ht|]. split; [lia|].
    split; [|now right].
    destruct Hs as (_ & _ & (q & Hq & _ & Hq1)). exists q. split; [exact Hq|].
    now rewrite Z.sub_0_r. }
  pose proof (instant_grants now (burst rl) (replicate k (OpAllow now))
                ltac:(apply Hs) rl 0 Hbud (within_Allow now (burst rl) k)).
  lia.
Qed.

(** X8: of the requests a fresh per-host limiter gets, those to one host
    whose calls of [Allow] all read the same instant, no earlier than the
    limiter was made, are granted at most [burst] times (the burst
    [NewRateLimiter] settles on), however many other hosts are served in
    between. *)
Theorem per_host_burst (rate : float) (burst0 : Z) (host : string)
    (reqs : list (string * (Z * Z))) (now : Z) :
  valid rate burst0 ->
  Forall (fun ct => ct.1 <= now /\ ct.2 = now) (timesOf host reqs) ->
  Z.of_nat (granted (answersTo host
              (requests (NewPerHostRateLimiter rate burst0) reqs)))
  <= burst (NewRateLimiter rate burst0 now).
Proof.
  intros Hvalid Hall. rewrite requests_own.
  unfold ownLimiter. cbn [limiters NewPerHostRateLimiter hostRate hostBurst].
  rewrite lookup_empty.
  destruct (timesOf host reqs) as [|[c t] ts] eqn:E.
  - pose proof (NewRateLimiter_sound rate burst0 now Hvalid) as Hs.
    destruct Hs as (_ & Hb & _).
    change (0 <= burst (NewRateLimiter rate burst0 now)). lia.
  - assert (Hrep : allowsAt ((c, t) :: ts)
                   = replicate (length ((c, t) :: ts)) (OpAllow now)).
    { clear E. induction Hall as [|x l [_ Hx] _ IH]; [reflexivity|].
      unfold allowsAt in *. cbn [map length replicate]. now rewrite Hx, IH. }
    rewrite Hrep. inversion Hall as [|x l [Hc _] _]; subst.
    change (burst (NewRateLimiter rate burst0 now))
      with (burst (NewRateLimiter rate burst0 (c, t).1)).
    apply sound_grants.
    + now apply NewRateLimiter_sound.
    + exact Hc.
Qed.

Lemma per_host_burst_witness :
  valid (Fin 5) 2
  /\ Forall (fun ct => ct.1 <= 7 /\ ct.2 = 7) (timesOf "a.example" sampleRequests)
  /\ Z.of_nat (granted (answersTo "a.example"
                 (requests (NewPerHostRateLimiter (Fin 5) 2) sampleRequests)))
     <= burst (NewRateLimiter (Fin 5) 2 7).
Proof.
  assert (V : valid (Fin 5) 2).
  { split; [vm_compute; discriminate | intros H; lia]. }
  assert (F : Forall (fun ct => ct.1 <= 7 /\ ct.2 = 7)
                (timesOf "a.example" sampleRequests)).
  { vm_compute. repeat constructor; discriminate. }
  split; [exact V|]. split; [exact F|].
  exact (per_host_burst (Fin 5) 2 "a.example" sampleRequests 7 V F).
Defined.

End LimitersProps.

(** ** [FanOut] *)

Module FanProps.
Import GoErr Fan.

(** While fewer goroutines have finished than there are functions, the
    channel has room: no error is dropped. *)
Lemma collect_all (fns : list (option error)) (order : list nat) :
  forall errs,
    (length errs + length order <= length fns)%nat ->
    fold_left (finish fns) order errs = errs ++ omap (failure fns) order.
Proof.
  induction order as [|i order IH]; intros errs Hlen; cbn [fold_left].
  - cbn. now rewrite app_nil_r.
  - cbn [length] in Hlen.
    change (omap (failure fns) (i :: order))
      with (match failure fns i with
            | Some y => y :: omap (failure fns) order
            | None => omap (failure fns) order
            end).
    unfold finish at 2, failure at 1.
    destruct (fns !! i) as [[e|]|] eqn:E; cbn [mjoin option_join mbind option_bind].
    + unfold trySend. destruct (Nat.ltb_spec (length errs) (length fns)); [|lia].
      rewrite IH by (rewrite length_app; cbn [length]; lia).
      now rewrite <- app_assoc.
    + apply IH. lia.
    + apply IH. lia.
Qed.

(** X9: whatever the order in which the goroutines finish, [FanOut]
    returns the error of the first that failed, no error being dropped on
    the way to the channel; it returns nil exactly when every function
    returned nil, and otherwise an error one of them returned. *)
Theorem FanOut_first_error (fns : list (option error)) (order : list nat) :
  order ≡ₚ seq 0 (length fns) ->
  collected fns order = omap (failure fns) order
  /\ FanOut fns order = head (omap (failure fns) order)
  /\ (FanOut fns order = None <-> Forall (fun o => o = None) fns)
  /\ (forall e, FanOut fns order = Some e -> Some e ∈ fns).
Proof.
  intros Hperm.
  assert (Hlen : length order = length fns).
  { rewrite (Permutation_length Hperm). apply length_seq. }
  assert (Hall : collected fns order = omap (failure fns) order).
  { unfold collected. rewrite collect_all by (cbn [length]; lia). reflexivity. }
  assert (Hin : forall i, i ∈ order <-> (i < length fns)%nat).
  { intros i. rewrite Hperm, elem_of_seq. lia. }
  unfold FanOut. rewrite Hall.
  split; [reflexivity|]. split; [reflexivity|]. split.
  - split.
    + intros Hhead. apply Forall_lookup. intros i o Hi.
      destruct o as [e|]; [exfalso | reflexivity].
      assert (Hio : i ∈ order) by (apply Hin; eapply lookup_lt_Some; eauto).
      assert (He : e ∈ omap (failure fns) order).
      { apply list_elem_of_omap. exists i. split; [exact Hio|].
        unfold failure. now rewrite Hi. }
      destruct (omap (failure fns) order); [|discriminate].
      now apply elem_of_nil in He.
    + intros Hnone.
      destruct (omap (failure fns) order) as [|e l] eqn:E; [reflexivity|].
      assert (He : e ∈ omap (failure fns) order) by (rewrite E; left).
      apply list_elem_of_omap in He. destruct He as (i & _ & Hi).
      unfold failure in Hi. destruct (fns !! i) as [[e'|]|] eqn:Ei; try discriminate.
      rewrite Forall_lookup in Hnone. specialize (Hnone i _ Ei). discriminate.
  - intros e He.
    destruct (omap (failure fns) order) as [|e' l] eqn:E; [discriminate|].
    cbn in He. injection He as ->.
    assert (He : e ∈ omap (failure fns) order) by (rewrite E; left).
    apply list_elem_of_omap in He. destruct He as (i & _ & Hi).
    unfold failure in Hi. destruct (fns !! i) as [[e'|]|] eqn:Ei; try discriminate.
    cbn in Hi. injection Hi as ->. eapply list_elem_of_lookup_2; eauto.
Qed.

Lemma FanOut_first_error_witness :
  [2; 0; 1]%nat ≡ₚ seq 0 3
  /\ FanOut [Some (Plain "first"); None; Some (Plain "third")] [2; 0; 1]%nat
     = Some (Plain "third").
Proof.
  assert (P : [2; 0; 1]%nat
              ≡ₚ seq 0 (length [Some (Plain "first"); None; Some (Plain "third")])).
  { cbn. etransitivity; [apply perm_swap|]. apply perm_skip, perm_swap. }
  split; [exact P|].
  destruct (FanOut_first_error [Some (Plain "first"); None; Some (Plain "third")]
              [2; 0; 1]%nat P) as (_ & -> & _).
  reflexivity.
Defined.

End FanProps.

(** ** Banners *)

Module BannerProps.
Import GoStrings Banner.





Lemma slice_length (s : list ascii) (i n : nat) :
  (i + n <= length s)%nat -> length (slice s i (i + n)) = n.
Proof.
  intros H. unfold slice. rewrite length_take, length_drop. lia.
Qed.






Lemma identify_spec (banner : list ascii) (order : list (list ascii * list ascii)) :
  (identifyFromBanner order banner = str "unknown"
   /\ forall p, p ∈ order -> containsIgnoreCase banner p.1 = false)
  \/ (exists p, p ∈ order /\ containsIgnoreCase banner p.1 = true
                /\ identifyFromBanner order banner = p.2).
Proof.
  induction order as [|[pattern service] rest IH]; cbn [identifyFromBanner].
  - left. split; [reflexivity|]. intros p Hp. now apply elem_of_nil in Hp.
  - destruct (containsIgnoreCase banner pattern) eqn:E.
    + right. exists (pattern, service). split; [left|]. split; [exact E | reflexivity].
    + destruct IH as [[Hu Hnone]|(p & Hp & Hm & Hr)].
      * left. split; [exact Hu|]. intros p Hp.
        apply elem_of_cons in Hp. destruct Hp as [->|Hp]; [exact E | now apply Hnone].
      * right. exists p. split; [now right|]. split; [exact Hm | exact Hr].
Qed.

Lemma services_known :
  Forall (fun p => p.2 <> str "unknown") patterns.
Proof. repeat constructor; discriminate. Qed.

(** X13: [identifyFromBanner] returns the service of a pattern the
    banner contains, and "unknown" exactly when it contains none; when
    it contains one pattern only, the answer is that pattern's service.
    A banner that contains several gets the service of whichever the map
    iteration meets first: the answer to an nginx banner is "http" in one
    order and "nginx" in another. *)
Theorem identifyFromBanner_order (order : list (list ascii * list ascii))
    (banner : list ascii) :
  order ≡ₚ patterns ->
  (identifyFromBanner order banner = str "unknown"
   <-> forall p, p ∈ patterns -> containsIgnoreCase banner p.1 = false)
  /\ (identifyFromBanner order banner <> str "unknown" ->
      exists p, p ∈ patterns /\ containsIgnoreCase banner p.1 = true
                /\ identifyFromBanner order banner = p.2)
  /\ (forall p, p ∈ patterns -> containsIgnoreCase banner p.1 = true ->
        (forall p', p' ∈ patterns -> containsIgnoreCase banner p'.1 = true ->
                    p' = p) ->
        identifyFromBanner order banner = p.2)
  /\ (exists o1 o2, o1 ≡ₚ patterns /\ o2 ≡ₚ patterns
        /\ identifyFromBanner o1 nginxBanner = str "http"
        /\ identifyFromBanner o2 nginxBanner = str "nginx").
Proof.
  intros Hperm.
  assert (Hin : forall p, p ∈ order <-> p ∈ patterns)
    by (intros p; now rewrite Hperm).
  pose proof (identify_spec banner order) as Hspec.
  pose proof services_known as Hknown. rewrite Forall_forall in Hknown.
  split; [|split; [|split]].
  - split.
    + intros Hu. destruct Hspec as [[_ Hnone]|(p & Hp & _ & Hr)].
      * intros p Hp. apply Hnone, Hin, Hp.
      * exfalso. apply (Hknown p); [now apply Hin | congruence].
    + intros Hnone. destruct Hspec as [[Hu _]|(p & Hp & Hm & _)]; [exact Hu|].
      rewrite Hnone in Hm by now apply Hin. discriminate.
  - intros Hne. destruct Hspec as [[Hu _]|(p & Hp & Hm & Hr)]; [contradiction|].
    exists p. split; [now apply Hin|]. split; [exact Hm | exact Hr].
  - intros p Hp Hm Honly.
    destruct Hspec as [[_ Hnone]|(p' & Hp' & Hm' & Hr)].
    + rewrite Hnone in Hm by now apply Hin. discriminate.
    + rewrite Hr. f_equal. apply Honly; [now apply Hin | exact Hm'].
  - exists patterns, (reverse patterns).
    split; [reflexivity|]. split; [apply reverse_Permutation|].
    split; vm_compute; reflexivity.
Qed.

Lemma identifyFromBanner_order_witness :
  reverse patterns ≡ₚ patterns
  /\ identifyFromBanner (reverse patterns) (str "SSH-2.0-OpenSSH_8.9")
     = str "ssh".
Proof.
  assert (P : reverse patterns ≡ₚ patterns) by apply reverse_Permutation.
  split; [exact P|].
  destruct (identifyFromBanner_order (reverse patterns)
              (str "SSH-2.0-OpenSSH_8.9") P) as (_ & _ & H & _).
  apply (H (str "SSH", str "ssh")).
  - left.
  - vm_compute. reflexivity.
  - intros p' Hp' Hm. unfold patterns in Hp'.
    repeat (apply elem_of_cons in Hp'; destruct Hp' as [->|Hp'];
            [first [reflexivity | vm_compute in Hm; discriminate Hm]|]).
    now apply elem_of_nil in Hp'.
Defined.

End BannerProps.

(** ** Unique results *)

Module SubdomainsProps.
Import Subdomains.

Lemma addResult_tidy (s : Scanner) (sub source stamp : string) :
  tidy s -> tidy (addResult s sub source stamp).
Proof.
  intros [Hseen Hnd]. unfold addResult.
  destruct (default false (seen s !! sub)) eqn:E; [split; assumption|].
  split; cbn [seen results].
  - intros x. rewrite map_app, elem_of_app. cbn [map Subdomain].
    rewrite list_elem_of_singleton.
    destruct (decide (x = sub)) as [->|Hne].
    + rewrite lookup_insert_eq. cbn. tauto.
    + rewrite lookup_insert_ne by congruence. rewrite Hseen. tauto.
  - rewrite map_app. cbn [map Subdomain]. apply NoDup_app.
    split; [exact Hnd|]. split; [|apply NoDup_singleton].
    intros x Hx Hx'. apply list_elem_of_singleton in Hx'. subst x.
    apply Hseen in Hx. congruence.
Qed.

Lemma addAll_snoc (s : Scanner) (calls : list (string * string * string))
    (c : string * string * string) :
  addAll s (calls ++ [c]) = addResult (addAll s calls) c.1.1 c.1.2 c.2.
Proof. unfold addAll. now rewrite fold_left_app. Qed.

Lemma addAll_tidy (calls : list (string * string * string)) :
  tidy (addAll NewScanner calls).
Proof.
  induction calls as [|c calls IH] using rev_ind.
  - split; [|constructor]. intros sub. cbn. rewrite lookup_empty. cbn.
    split; [discriminate|]. intros H. now apply elem_of_nil in H.
  - rewrite addAll_snoc. now apply addResult_tidy.
Qed.

(** X14: however often and from whichever source a subdomain is
    reported, the scanner sends it once: the results name each reported
    subdomain exactly once, and each result carries the source and the
    time of the first report of its subdomain. *)
Theorem addResult_unique (calls : list (string * string * string)) :
  let s := addAll NewScanner calls in
  NoDup (map Subdomain (results s))
  /\ (forall sub, sub ∈ map Subdomain (results s) <-> sub ∈ map (fun c => c.1.1) calls)
  /\ (forall r, r ∈ results s ->
        exists before after,
          calls = before ++ (Subdomain r, Source r, Timestamp r) :: after
          /\ Subdomain r ∉ map (fun c => c.1.1) before).
Proof.
  cbv zeta. split; [apply addAll_tidy|].
  induction calls as [|c calls [IH1 IH2]] using rev_ind.
  - split.
    + intros sub. cbn. tauto.
    + intros r Hr. now apply elem_of_nil in Hr.
  - rewrite addAll_snoc.
    pose proof (addAll_tidy calls) as [Hseen _].
    unfold addResult.
    destruct (default false (seen (addAll NewScanner calls) !! c.1.1)) eqn:E.
    + split.
      * intros sub. rewrite IH1, map_app, elem_of_app. cbn [map].
        rewrite list_elem_of_singleton. split; [tauto|].
        intros [H| ->]; [exact H|]. apply IH1, Hseen, E.
      * intros r Hr. destruct (IH2 r Hr) as (before & after & -> & Hfresh).
        exists before, (after ++ [c]). split; [|exact Hfresh].
        now rewrite <- app_assoc.
    + cbn [results]. split.
      * intros sub. rewrite !map_app, !elem_of_app. cbn [map Subdomain].
        rewrite IH1. tauto.
      * intros r Hr. apply elem_of_app in Hr. destruct Hr as [Hr|Hr].
        -- destruct (IH2 r Hr) as (before & after & -> & Hfresh).
           exists before, (after ++ [c]). split; [|exact Hfresh].
           now rewrite <- app_assoc.
        -- apply list_elem_of_singleton in Hr. subst r. cbn.
           exists calls, []. split; [now destruct c as [[? ?] ?]|].
           intros Hin. apply IH1, Hseen in Hin. congruence.
Qed.

End SubdomainsProps.

(** ** The number of URLs seen *)

Module CrawlCountProps.
Import Crawl CrawlCount.

Lemma markSeen_count (Parse : parser) (seen : gmap (list ascii) bool)
    (u : list ascii) :
  allTrue seen ->
  allTrue (seenAfter (markSeen Parse seen u))
  /\ size (seenAfter (markSeen Parse seen u))
     = (size seen + if isNew (markSeen Parse seen u) then 1 else 0)%nat.
Proof.
  intros Hall. unfold markSeen.
  destruct (Parse u) as [parsed|]; cbn [seenAfter isNew];
    [|split; [exact Hall | lia]].
  cbv zeta. unfold has.
  destruct (seen !! normalize parsed) as [v|] eqn:E.
  - pose proof (Hall _ _ E) as ->. cbn [default from_option id seenAfter isNew].
    split; [exact Hall | lia].
  - cbn [default from_option id seenAfter isNew]. split.
    + intros k v Hk. destruct (decide (k = normalize parsed)) as [->|Hne].
      * rewrite lookup_insert_eq in Hk. congruence.
      * rewrite lookup_insert_ne in Hk by congruence. eapply Hall; eauto.
    + rewrite map_size_insert_None by exact E. lia.
Qed.

(** X15: [urlCount] counts the calls of [markSeen] that returned true:
    from an empty map, the number of URLs seen is the number of true
    answers, and never more than the number of calls. *)
Theorem urlCount_counts (Parse : parser) (urls : list (list ascii)) :
  let r := markAll Parse ∅ urls in
  urlCount r.1 = Z.of_nat (length (List.filter (fun b => b) r.2))
  /\ urlCount r.1 <= Z.of_nat (length urls).
Proof.
  cbv zeta.
  assert (H : forall seen, allTrue seen ->
            size (markAll Parse seen urls).1
            = (size seen
               + length (List.filter (fun b => b) (markAll Parse seen urls).2))%nat
            /\ (length (List.filter (fun b => b) (markAll Parse seen urls).2)
                <= length urls)%nat).
  { induction urls as [|u urls IH]; intros seen Hall; cbn [markAll].
    - cbn. lia.
    - cbv zeta. cbn [fst snd List.filter].
      destruct (markSeen_count Parse seen u Hall) as [Hall' Hsize].
      destruct (IH _ Hall') as [IHs IHl]. rewrite IHs, Hsize.
      destruct (isNew (markSeen Parse seen u)); cbn [length]; lia. }
  destruct (H ∅) as [Hs Hl].
  { intros k v Hk. rewrite lookup_empty in Hk. discriminate. }
  unfold urlCount. rewrite Hs, map_size_empty. lia.
Qed.

End CrawlCountProps.

(** ** [FilterAlive] *)

Module FilterAliveProps.
Import GoErr GoNum Dns DnsProps.

Lemma filter_filter_same {A : Type} (f : A -> bool) (l : list A) :
  List.filter f (List.filter f l) = List.filter f l.
Proof.
  induction l as [|x l IH]; [reflexivity|]. cbn [List.filter].
  destruct (f x) eqn:E; [|exact IH]. cbn [List.filter]. now rewrite E, IH.
Qed.

Lemma worker_Subdomain (r : ResolverConfig) (net : network) (j : job) :
  Subdomain (worker r net j) = j.2.
Proof. unfold worker, resolveWithRetry. apply resolveLoop_Subdomain. Qed.

Lemma worker_alive (r : ResolverConfig) (net : network) (j : job) :
  Alive (worker r net j) = true
  <-> exists a, Z.of_nat a <= Retries r
                /\ resolved (net (j.1 mod length (Resolvers r))%nat j.2 a) = true.
Proof.
  unfold worker, resolveWithRetry.
  destruct (resolveLoop_spec r net (j.1 mod length (Resolvers r))%nat j.2
              (Z.to_nat (Retries r + 1)) 0 None [])
    as (n & _ & Hle & _ & Hyes & Hno); [lia|].
  split.
  - intros Halive. destruct (Hyes Halive) as (Hn & Hres & _ & _).
    exists (0 + n - 1)%nat. split; [lia | exact Hres].
  - intros (a & Ha & Hres).
    match goal with |- Alive ?x = true => destruct (Alive x) eqn:Halive end;
      [reflexivity|].
    destruct (Hno eq_refl) as (_ & _ & Hnone).
    rewrite Hnone in Hres by lia. discriminate Hres.
Qed.

(** X16: [FilterAlive] returns the names of the jobs whose lookup
    succeeded within [Retries + 1] attempts, in the order their results
    arrived; testing [Alive] again on what [Resolve] returns removes
    nothing. *)
Theorem FilterAlive_names (r : ResolverConfig) (net : network) (taken : list job)
    (name : string) :
  FilterAlive r net taken = map Subdomain (Resolve r net taken)
  /\ FilterAlive r net taken
     = map snd (List.filter (fun j => Alive (worker r net j)) taken)
  /\ (name ∈ FilterAlive r net taken
      <-> exists j a, j ∈ taken /\ j.2 = name /\ Z.of_nat a <= Retries r
            /\ resolved (net (j.1 mod length (Resolvers r))%nat name a) = true).
Proof.
  assert (H1 : FilterAlive r net taken = map Subdomain (Resolve r net taken)).
  { unfold FilterAlive, Resolve. now rewrite filter_filter_same. }
  assert (H2 : FilterAlive r net taken
               = map snd (List.filter (fun j => Alive (worker r net j)) taken)).
  { rewrite H1. unfold Resolve. clear H1.
    induction taken as [|j taken IH]; [reflexivity|].
    cbn [map List.filter]. destruct (Alive (worker r net j)) eqn:E.
    - cbn [map]. now rewrite IH, worker_Subdomain.
    - exact IH. }
  split; [exact H1|]. split; [exact H2|].
  rewrite H2, list_elem_of_fmap. split.
  - intros (j & -> & Hj). apply list_elem_of_In, List.filter_In in Hj.
    destruct Hj as [Hin Halive]. apply worker_alive in Halive.
    destruct Halive as (a & Ha & Hres).
    exists j, a. split; [now apply list_elem_of_In|]. auto.
  - intros (j & a & Hin & <- & Ha & Hres). exists j. split; [reflexivity|].
    apply list_elem_of_In, List.filter_In. split; [now apply list_elem_of_In|].
    apply worker_alive. eauto.
Qed.

End FilterAliveProps.
